(** * Connected components of a graphology graph

    A shallow embedding of [src/components/index.js] (weakly and strongly
    connected components, largest component, subgraph extraction and
    cropping), together with the properties stated for it.  The default
    settings and reducers of the canvas renderer, [src/canvas/defaults.js],
    are embedded in a part of their own.

    Conventions used throughout:
    - node and edge keys are JavaScript strings;
    - a JavaScript array used as a stack ([push]/[pop] at the end) is a
      list whose head is the top of the stack;
    - an array that is only appended to ([component], [components]) is a
      list in push order;
    - a [Set] is a [gset], a [Map] is a [gmap];
    - the [graph] argument is a mutable object: every operation is a
      computation in the monad [M] that threads it;
    - the argument is typed as a graph, so the [isGraph(graph)] test at
      the head of each function passes;
    - a [while] loop or a recursive call takes an iteration bound (fuel);
      running out of it is the outcome [Diverged], which is proved not to
      happen on well-formed graphs. *)

From stdpp Require Import base decidable option list sets gmap strings.
From Stdlib Require Import Lia.

Set Warnings "-clear-no-such-hyp".

(** ** The graph object *)

Inductive GraphType := directed | undirected | mixed.

#[global] Instance GraphType_eq_dec : EqDecision GraphType.
Proof. solve_decision. Defined.

(** Errors raised by the component functions and by the graph methods they
    call. *)
Inductive Error :=
  | InvalidGraph          (* 'the given graph is not a valid graphology instance.' (excluded by typing) *)
  | UndirectedGraph       (* 'the given graph is undirected' *)
  | NotFoundGraphError    (* graph method called on a missing node *)
  | UsageGraphError.      (* graph method refusing an insertion *)

Section Components.

(** Attribute bags of nodes and edges are opaque to this module. *)
Context {Attr : Type}.

Record Edge := mkEdge {
  edge_key : string;
  edge_source : string;
  edge_target : string;
  edge_undirected : bool;
  edge_attributes : Attr
}.

(** Modelled from the spec: the Graph Access Interface (the graphology
    [Graph] class) is not part of the sources at hand.  A graph is its
    options, its nodes in insertion order and its edges in insertion
    order. *)
Record Graph := mkGraph {
  type : GraphType;
  multi : bool;
  allowSelfLoops : bool;
  g_nodes : list (string * Attr);
  g_edges : list Edge
}.

Definition node_keys (g : Graph) : list string := (g_nodes g).*1.

(** Modelled from the spec: node count and edge count, [graph.order] and
    [graph.size]. *)
Definition graph_order (g : Graph) : nat := length (g_nodes g).
Definition graph_size (g : Graph) : nat := length (g_edges g).

(** First-occurrence deduplication: a neighbor reached through several
    edges is enumerated once, at its first position. *)
Fixpoint nub (l : list string) : list string :=
  match l with
  | [] => []
  | x :: l => x :: filter (λ y, y ≠ x) (nub l)
  end.

(** Modelled from the spec: the three adjacency maps of a node (inbound,
    outbound, undirected), each in edge insertion order. *)
Definition in_neighbors (g : Graph) (v : string) : list string :=
  omap (λ e, if decide (edge_undirected e = false ∧ edge_target e = v)
             then Some (edge_source e) else None) (g_edges g).

Definition out_neighbors (g : Graph) (v : string) : list string :=
  omap (λ e, if decide (edge_undirected e = false ∧ edge_source e = v)
             then Some (edge_target e) else None) (g_edges g).

Definition undirected_neighbors (g : Graph) (v : string) : list string :=
  omap (λ e, if decide (edge_undirected e = true ∧ edge_source e = v)
             then Some (edge_target e)
             else if decide (edge_undirected e = true ∧ edge_target e = v)
             then Some (edge_source e) else None) (g_edges g).

(** Modelled from the spec: neighbor enumeration in the undirected sense
    (inbound, outbound and undirected edges all count), each neighbor
    once. *)
Definition neighbors (g : Graph) (v : string) : list string :=
  nub (in_neighbors g v ++ out_neighbors g v ++ undirected_neighbors g v).

(** Modelled from the spec: outbound-only neighbor enumeration, used by the
    strong component walker. *)
Definition outbound_neighbors (g : Graph) (v : string) : list string :=
  nub (out_neighbors g v ++ undirected_neighbors g v).

(** ** Computations on the graph object *)

(** [Returned v g]: normal completion with value [v], the graph object
    being [g] afterwards.  [Thrown e g]: an exception escaped the call.
    [Diverged]: the iteration bound of a loop was exhausted. *)
Inductive Outcome (T : Type) : Type :=
  | Returned (v : T) (g : Graph)
  | Thrown (e : Error) (g : Graph)
  | Diverged.

Arguments Returned {T} v g.
Arguments Thrown {T} e g.
Arguments Diverged {T}.

(** A computation reads and updates the graph object. *)
Definition M (T : Type) : Type := Graph → Outcome T.

#[global] Instance M_ret : MRet M := λ T v g, Returned v g.

#[global] Instance M_bind : MBind M := λ T U k m g,
  match m g with
  | Returned v g' => k v g'
  | Thrown e g' => Thrown e g'
  | Diverged => Diverged
  end.

Definition throw {T} (e : Error) : M T := λ g, Thrown e g.
Definition diverge {T} : M T := λ _, Diverged.

(** Reading a property of the graph object. *)
Definition read {T} (f : Graph → T) : M T := λ g, Returned (f g) g.

(** Modelled from the spec: [graph.forEachNeighbor(node, callback)].  The
    callbacks passed by this module only update local variables. *)
Definition forEachNeighbor {L} (node : string) (callback : string → L → L)
    (l : L) : M L :=
  λ g, if decide (node ∈ node_keys g)
       then Returned (foldl (flip callback) l (neighbors g node)) g
       else Thrown NotFoundGraphError g.

(** Modelled from the spec: [graph.forEachNode(callback)] walks the live
    node map in insertion order; a node deleted before it is reached is
    not visited. *)
Fixpoint forEachNode_from {L} (callback : string → L → M L)
    (pending : list string) (l : L) : M L :=
  match pending with
  | [] => mret l
  | node :: pending =>
    present ← read (λ g, bool_decide (node ∈ node_keys g));
    if (present : bool)
    then l ← callback node l; forEachNode_from callback pending l
    else forEachNode_from callback pending l
  end.

(** [graph.forEachNode(callback)], from the first node. *)
Definition forEachNode {L} (callback : string → L → M L) (l : L) : M L :=
  pending ← read node_keys; forEachNode_from callback pending l.

(** Modelled from the spec: [graph.someNode(callback)] is [forEachNode]
    that stops at the first node for which the callback returns a truthy
    value. *)
Fixpoint someNode_from {L} (callback : string → L → M (bool * L))
    (pending : list string) (l : L) : M (bool * L) :=
  match pending with
  | [] => mret (false, l)
  | node :: pending =>
    present ← read (λ g, bool_decide (node ∈ node_keys g));
    if (present : bool)
    then '(found, l) ← callback node l;
         if (found : bool) then mret (true, l)
         else someNode_from callback pending l
    else someNode_from callback pending l
  end.

(** [graph.someNode(callback)], from the first node. *)
Definition someNode {L} (callback : string → L → M (bool * L)) (l : L)
    : M (bool * L) :=
  pending ← read node_keys; someNode_from callback pending l.

(** ** Weak component walker *)

(** [function addToStack(target)], closed over [seen] and [stack]. *)
Definition addToStack (seen : gset string) (target : string)
    (stack : list string) : list string :=
  if decide (target ∈ seen) then stack else target :: stack.

(** The [while (stack.length !== 0)] loop of [forEachConnectedComponent]
    (and, verbatim, of [largestConnectedComponent]). *)
Fixpoint while_stack (fuel : nat) (seen : gset string)
    (stack component : list string)
    : M (gset string * list string * list string) :=
  match fuel with
  | 0 => diverge
  | S fuel =>
    match stack with
    | [] => mret (seen, stack, component)
    | source :: stack =>
      if decide (source ∈ seen) then while_stack fuel seen stack component
      else
        let seen := {[source]} ∪ seen in
        let component := component ++ [source] in
        stack ← forEachNeighbor source (addToStack seen) stack;
        while_stack fuel seen stack component
    end
  end.

(** Iteration bound handed to the [while] loops: a walk pops at most one
    entry per push, and pushes at most [order] entries per node. *)
Definition walk_fuel (g : Graph) : nat :=
  S (S (graph_order g * S (graph_order g))).

Definition forEachConnectedComponent {U} (callback : list string → U → U)
    (u : U) : M U :=
  order ← read graph_order;
  if decide (order = 0) then mret u
  else
    fuel ← read walk_fuel;
    '(seen, stack, u) ← forEachNode (λ node '(seen, stack, u),
        if decide (node ∈ seen) then mret (seen, stack, u)
        else
          '(seen, stack, component) ← while_stack fuel seen (node :: stack) [];
          mret (seen, stack, callback component u))
      ((∅ : gset string), ([] : list string), u);
    mret u.

(** The size-only variant; its loop counts instead of collecting. *)
Fixpoint while_stack_order (fuel : nat) (seen : gset string)
    (stack : list string) (order : nat)
    : M (gset string * list string * nat) :=
  match fuel with
  | 0 => diverge
  | S fuel =>
    match stack with
    | [] => mret (seen, stack, order)
    | source :: stack =>
      if decide (source ∈ seen) then while_stack_order fuel seen stack order
      else
        let seen := {[source]} ∪ seen in
        let order := S order in
        stack ← forEachNeighbor source (addToStack seen) stack;
        while_stack_order fuel seen stack order
    end
  end.

Definition forEachConnectedComponentOrder {U} (callback : nat → U → U)
    (u : U) : M U :=
  order ← read graph_order;
  if decide (order = 0) then mret u
  else
    fuel ← read walk_fuel;
    '(seen, stack, u) ← forEachNode (λ node '(seen, stack, u),
        if decide (node ∈ seen) then mret (seen, stack, u)
        else
          '(seen, stack, order) ← while_stack_order fuel seen (node :: stack) 0;
          mret (seen, stack, callback order u))
      ((∅ : gset string), ([] : list string), u);
    mret u.

Definition connectedComponents : M (list (list string)) :=
  forEachConnectedComponent (λ component components, components ++ [component]) [].

Definition largestConnectedComponent : M (list string) :=
  order ← read graph_order;
  if decide (order = 0) then mret []
  else
    fuel ← read walk_fuel;
    '(_, (seen, stack, largestComponent)) ← someNode
      (λ node '(seen, stack, largestComponent),
        if decide (node ∈ seen) then mret (false, (seen, stack, largestComponent))
        else
          '(seen, stack, component) ← while_stack fuel seen (node :: stack) [];
          let largestComponent :=
            if decide (length largestComponent < length component)
            then component else largestComponent in
          let remaining := order - size seen in
          if decide (remaining < length largestComponent)
          then mret (true, (seen, stack, largestComponent))
          else mret (false, (seen, stack, largestComponent)))
      ((∅ : gset string), ([] : list string), ([] : list string));
    mret largestComponent.

(** Not a function of the source: the selector as a full traversal, the
    reference the early exit is compared with.  Every component is
    enumerated and the first one that reaches the maximum size is kept. *)
Definition largest_by_full_traversal : M (list string) :=
  forEachConnectedComponent
    (λ component largestComponent,
       if decide (length largestComponent < length component)
       then component else largestComponent)
    [].

(** ** Graph methods used by the subgraph and mutation operations *)

(** Modelled from the spec: [graph.hasNode(key)]. *)
Definition hasNode (g : Graph) (key : string) : bool :=
  bool_decide (key ∈ node_keys g).

(** Modelled from the spec: [graph.nullCopy()], the "create empty graph of
    same kind" factory. *)
Definition nullCopy (g : Graph) : Graph :=
  mkGraph (type g) (multi g) (allowSelfLoops g) [] [].

(** Modelled from the spec: node attribute reader. *)
Definition getNodeAttributes (key : string) : M Attr :=
  λ g, match list_find (λ na, na.1 = key) (g_nodes g) with
       | Some (_, (_, attr)) => Returned attr g
       | None => Thrown NotFoundGraphError g
       end.

(** Modelled from the spec: [copyNode(S, key, attributes)] adds the node
    with a copy of the attribute bag; adding an existing key is refused. *)
Definition copyNode (S : Graph) (key : string) (attr : Attr) : Error + Graph :=
  if hasNode S key then inl UsageGraphError
  else inr (mkGraph (type S) (multi S) (allowSelfLoops S)
                    (g_nodes S ++ [(key, attr)]) (g_edges S)).

(** Two edges occupy the same adjacency slot when they have the same
    directedness and the same endpoints (in either order if undirected). *)
Definition same_slot (undirected_ : bool) (source target : string) (e : Edge)
    : Prop :=
  edge_undirected e = undirected_ ∧
  ((edge_source e = source ∧ edge_target e = target) ∨
   (undirected_ = true ∧ edge_source e = target ∧ edge_target e = source)).

#[global] Instance same_slot_dec u s t e : Decision (same_slot u s t e).
Proof. unfold same_slot. apply _. Defined.

(** Modelled from the spec: [copyEdge(S, undirected, key, source, target,
    attributes)] adds the edge under its key, with the checks of the graph
    engine: the directedness must fit the graph type, self loops and
    parallel edges must be allowed, both endpoints must exist and the key
    must be free. *)
Definition copyEdge (S : Graph) (undirected_ : bool)
    (key source target : string) (attr : Attr) : Error + Graph :=
  if decide (undirected_ = false ∧ type S = undirected) then inl UsageGraphError
  else if decide (undirected_ = true ∧ type S = directed) then inl UsageGraphError
  else if decide (allowSelfLoops S = false ∧ source = target) then inl UsageGraphError
  else if negb (hasNode S source) then inl NotFoundGraphError
  else if negb (hasNode S target) then inl NotFoundGraphError
  else if decide (key ∈ edge_key <$> g_edges S) then inl UsageGraphError
  else if decide (multi S = false ∧
                  Exists (same_slot undirected_ source target) (g_edges S))
       then inl UsageGraphError
  else inr (mkGraph (type S) (multi S) (allowSelfLoops S) (g_nodes S)
              (g_edges S ++ [mkEdge key source target undirected_ attr])).

(** A graph method applied to a graph other than the receiver [graph]:
    its exception, if any, escapes the current call. *)
Definition try_ {T} (r : Error + T) : M T :=
  match r with
  | inl e => throw e
  | inr v => mret v
  end.

(** [array.forEach(callback)], also used for plain [for] loops over an
    array. *)
Fixpoint array_forEach {T L} (callback : T → L → M L) (array : list T)
    (l : L) : M L :=
  match array with
  | [] => mret l
  | x :: array => l ← callback x l; array_forEach callback array l
  end.

(** Modelled from the spec: [graph.forEachEdge(callback)], edges in
    insertion order; the callback receives the edge's key, attributes,
    endpoints and directedness. *)
Definition forEachEdge {L} (callback : Edge → L → M L) (l : L) : M L :=
  pending ← read g_edges; array_forEach callback pending l.

(** Modelled from the spec: [graph.dropNode(key)] deletes the node and,
    in cascade, every edge attached to it. *)
Definition dropNode (key : string) : M unit :=
  λ g, if hasNode g key
       then Returned tt
              (mkGraph (type g) (multi g) (allowSelfLoops g)
                 (filter (λ na, na.1 ≠ key) (g_nodes g))
                 (filter (λ e, edge_source e ≠ key ∧ edge_target e ≠ key)
                         (g_edges g)))
       else Thrown NotFoundGraphError g.

(** ** Subgraph and mutation operations *)

(** The local graph [S] of the source is called [sub] here. *)

Definition largestConnectedComponentSubgraph : M Graph :=
  component ← largestConnectedComponent;
  sub ← read nullCopy;
  sub ← array_forEach (λ key sub,
           attr ← getNodeAttributes key; try_ (copyNode sub key attr))
         component sub;
  sub ← forEachEdge (λ e sub,
           if hasNode sub (edge_source e)
           then try_ (copyEdge sub (edge_undirected e) (edge_key e)
                        (edge_source e) (edge_target e) (edge_attributes e))
           else mret sub)
         sub;
  mret sub.

Definition cropToLargestConnectedComponent : M unit :=
  largest ← largestConnectedComponent;
  let component : gset string := list_to_set largest in
  forEachNode (λ key _,
      if decide (key ∈ component) then mret tt else dropNode key)
    tt.

(** ** Strong component walker *)

(** Modelled from the spec: [graph.outboundNeighbors(node)]. *)
Definition outboundNeighbors (node : string) : M (list string) :=
  λ g, if decide (node ∈ node_keys g)
       then Returned (outbound_neighbors g node) g
       else Thrown NotFoundGraphError g.

(** The variables [DFS] closes over. *)
Record SCC := mkSCC {
  st_count : nat;
  st_P : list string;
  st_S : list string;
  st_preorder : gmap string nat;
  st_assigned : gset string;
  st_components : list (list string)
}.

Definition set_P (P : list string) (st : SCC) : SCC :=
  mkSCC (st_count st) P (st_S st) (st_preorder st) (st_assigned st)
        (st_components st).

(** [preorder.get(P[P.length - 1])]: [undefined] when [P] is empty. *)
Definition top_preorder (preorder : gmap string nat) (P : list string)
    : option nat :=
  head P ≫= (preorder !!.).

(** [while (preorder.get(P[P.length - 1]) > neighborOrder) P.pop();]
    ([undefined > n] is false). *)
Fixpoint pop_while (preorder : gmap string nat) (neighborOrder : nat)
    (P : list string) : list string :=
  match P with
  | [] => []
  | top :: rest =>
    match preorder !! top with
    | Some o => if decide (neighborOrder < o)
                then pop_while preorder neighborOrder rest else P
    | None => P
    end
  end.

(** [do { pop = S.pop(); component.push(pop); assigned.add(pop); }
    while (pop !== node);]  Popping an empty [S] yields [undefined], which
    never equals [node]: the loop then runs forever. *)
Fixpoint pop_until (node : string) (stackS component : list string)
    (assigned : gset string)
    : option (list string * list string * gset string) :=
  match stackS with
  | [] => None
  | pop :: stackS =>
    let component := component ++ [pop] in
    let assigned := {[pop]} ∪ assigned in
    if decide (pop ≠ node) then pop_until node stackS component assigned
    else Some (stackS, component, assigned)
  end.

Fixpoint DFS (fuel : nat) (node : string) (st : SCC) : M SCC :=
  match fuel with
  | 0 => diverge
  | S fuel =>
    neighbors ← outboundNeighbors node;
    let st := mkSCC (S (st_count st)) (node :: st_P st) (node :: st_S st)
                    (<[node := st_count st]> (st_preorder st))
                    (st_assigned st) (st_components st) in
    st ← array_forEach (λ neighbor st,
            match st_preorder st !! neighbor with
            | Some neighborOrder =>
              if decide (neighbor ∈ st_assigned st) then mret st
              else mret (set_P (pop_while (st_preorder st) neighborOrder
                                          (st_P st)) st)
            | None => DFS fuel neighbor st
            end)
          neighbors st;
    if decide (top_preorder (st_preorder st) (st_P st) = st_preorder st !! node)
    then
      match pop_until node (st_S st) [] (st_assigned st) with
      | Some (stackS, component, assigned) =>
        mret (mkSCC (st_count st) (tail (st_P st)) stackS (st_preorder st)
                    assigned (st_components st ++ [component]))
      | None => diverge
      end
    else mret st
  end.

Definition stronglyConnectedComponents : M (list (list string)) :=
  order ← read graph_order;
  if decide (order = 0) then mret []
  else
    ty ← read type;
    if decide (ty = undirected) then throw UndirectedGraph
    else
      nodes ← read node_keys;
      size_ ← read graph_size;
      if decide (size_ = 0)
      then array_forEach (λ n components, mret (components ++ [[n]])) nodes []
      else
        st ← array_forEach (λ vertex st,
                if decide (vertex ∈ st_assigned st) then mret st
                else DFS (S order) vertex st)
              nodes (mkSCC 1 [] [] ∅ ∅ []);
        mret (st_components st).

(** ** Well-formed graphs *)

Definition parallel (e e' : Edge) : Prop :=
  same_slot (edge_undirected e) (edge_source e) (edge_target e) e'.

Fixpoint no_parallel (l : list Edge) : Prop :=
  match l with
  | [] => True
  | e :: l => Forall (λ e', ¬ parallel e e') l ∧ no_parallel l
  end.

#[global] Instance no_parallel_dec l : Decision (no_parallel l).
Proof. induction l; simpl; apply _. Defined.

(** Modelled from the spec: the invariants the graph engine maintains.
    Node keys and edge keys are unique, every edge joins two nodes of the
    graph, and the edges respect the graph's options. *)
Definition well_formed (g : Graph) : Prop :=
  NoDup (node_keys g) ∧
  NoDup (edge_key <$> g_edges g) ∧
  Forall (λ e, edge_source e ∈ node_keys g ∧ edge_target e ∈ node_keys g ∧
               (edge_undirected e = false → type g ≠ undirected) ∧
               (edge_undirected e = true → type g ≠ directed) ∧
               (allowSelfLoops g = false → edge_source e ≠ edge_target e))
         (g_edges g) ∧
  (multi g = false → no_parallel (g_edges g)).

#[global] Instance well_formed_dec g : Decision (well_formed g).
Proof. unfold well_formed. apply _. Defined.

(** Weak adjacency and weak connectivity. *)
Definition adjacent (g : Graph) (x y : string) : Prop := y ∈ neighbors g x.

Definition connected (g : Graph) : relation string := rtc (adjacent g).

End Components.

Arguments Edge : clear implicits.
Arguments Graph : clear implicits.
Arguments Outcome : clear implicits.
Arguments Returned {Attr T} v g.
Arguments Thrown {Attr T} e g.
Arguments Diverged {Attr T}.
Arguments walk_fuel {Attr} g : simpl never.

(** * Vocabulary of the properties *)

Section Vocabulary.

Context {Attr : Type}.
Implicit Types (g : Graph Attr) (seen : gset string).

(** Number of nodes of [l] not yet seen. *)
Definition unseen (seen : gset string) (l : list string) : nat :=
  length (filter (λ x, x ∉ seen) l).

(** A set of nodes is closed when no edge leaves it. *)
Definition closed g seen : Prop :=
  ∀ x y, x ∈ seen → y ∈ neighbors g x → y ∈ seen.

(** [c] is the weak component discovered from [node]: it starts with
    [node], lists distinct nodes of the graph, no edge leaves it and all
    its members are connected to [node]. *)
Definition weak_component g (node : string) (c : list string) : Prop :=
  (∃ rest, c = node :: rest) ∧
  NoDup c ∧
  (∀ x, x ∈ c → x ∈ node_keys g) ∧
  (∀ x y, x ∈ c → y ∈ neighbors g x → y ∈ c) ∧
  (∀ x, x ∈ c → connected g node x).

(** The component collected by the walk started at [node]. *)
Definition component_of g seen (node : string) : list string :=
  match while_stack (walk_fuel g) seen [node] [] g with
  | Returned (_, _, component) _ => component
  | _ => []
  end.

(** The components collected from the nodes still to enumerate. *)
Fixpoint components_from g (pending : list string) seen : list (list string) :=
  match pending with
  | [] => []
  | node :: pending =>
    if decide (node ∈ seen) then components_from g pending seen
    else let c := component_of g seen node in
         c :: components_from g pending (seen ∪ list_to_set c)
  end.

Definition weak_components g : list (list string) :=
  components_from g (node_keys g) ∅.

(** The selection rule of [largestConnectedComponent]: a component
    replaces the current best only if it is strictly longer. *)
Definition largest_of (best : list string) (comps : list (list string))
    : list string :=
  foldl (λ best c, if decide (length best < length c) then c else best)
        best comps.

(** The state once [DFS] has numbered [node] and pushed it on both
    stacks. *)
Definition visit (node : string) (st : SCC) : SCC :=
  mkSCC (S (st_count st)) (node :: st_P st) (node :: st_S st)
        (<[node := st_count st]> (st_preorder st))
        (st_assigned st) (st_components st).

(** The body of the loop over [neighbors]. *)
Definition DFS_neighbor (fuel : nat) (neighbor : string) (st : SCC)
    : @M Attr SCC :=
  match st_preorder st !! neighbor with
  | Some neighborOrder =>
    if decide (neighbor ∈ st_assigned st) then mret st
    else mret (set_P (pop_while (st_preorder st) neighborOrder (st_P st)) st)
  | None => DFS fuel neighbor st
  end.

(** Invariant of the walker's variables: numbered nodes are either
    assigned to a finished component or waiting on [S]; [P] is part of
    [S] and holds, for every waiting node, a node numbered no later; the
    finished components list the assigned nodes once each. *)
Record scc_inv g (st : SCC) : Prop := {
  inv_dom : ∀ x, is_Some (st_preorder st !! x) ↔
                 x ∈ st_assigned st ∨ x ∈ st_S st;
  inv_S_NoDup : NoDup (st_S st);
  inv_S_fresh : ∀ x, x ∈ st_S st → x ∉ st_assigned st;
  inv_count : ∀ x o, st_preorder st !! x = Some o → o < st_count st;
  inv_inj : ∀ x y o, st_preorder st !! x = Some o →
                     st_preorder st !! y = Some o → x = y;
  inv_P_S : ∀ p, p ∈ st_P st → p ∈ st_S st;
  inv_P_low : ∀ s, s ∈ st_S st →
                ∃ p o o', p ∈ st_P st ∧ st_preorder st !! p = Some o ∧
                          st_preorder st !! s = Some o' ∧ o ≤ o';
  inv_comps_NoDup : NoDup (concat (st_components st));
  inv_comps : ∀ x, x ∈ concat (st_components st) ↔ x ∈ st_assigned st;
  inv_nodes : ∀ x, is_Some (st_preorder st !! x) → x ∈ node_keys g
}.

(** How the variables evolve from [st0] to [st]: [S] grows on top, [P]
    only loses entries, numbers and assignments are kept, and the nodes
    numbered in between get numbers from [count] on. *)
Record extends (st0 st : SCC) : Prop := {
  ext_S : ∃ X, st_S st = X ++ st_S st0;
  ext_P : st_P st `suffix_of` st_P st0;
  ext_preorder : st_preorder st0 ⊆ st_preorder st;
  ext_assigned : st_assigned st0 ⊆ st_assigned st;
  ext_count : st_count st0 ≤ st_count st;
  ext_new : ∀ x o, st_preorder st0 !! x = None →
                   st_preorder st !! x = Some o → st_count st0 ≤ o
}.

(** Directed reachability, along outbound neighbors. *)
Definition out_edge g (x y : string) : Prop := y ∈ outbound_neighbors g x.

Definition reach g : relation string := rtc (out_edge g).

Definition mutual g (x y : string) : Prop := reach g x y ∧ reach g y x.

(** The number of a node, 0 when it has none. *)
Definition pre (st : SCC) (x : string) : nat :=
  default 0 (st_preorder st !! x).

(** Soundness invariant of the strong component walker, for the set [E]
    of the edges examined so far: [P] is sorted by number; every entry of
    [P] reaches the nodes of [S] numbered after it, and every node of [S]
    reaches the last entry of [P] numbered before it; an examined edge
    from a node of [S] leads to an assigned node or to a node of [S] that
    is not below it with respect to [P]; no edge leaves the assigned
    nodes; every finished component is a class of mutual reachability. *)
Record scc_sound g (E : string → string → Prop) (st : SCC) : Prop := {
  snd_sorted : ∀ l1 p l2, st_P st = l1 ++ p :: l2 →
                 ∀ q, q ∈ l2 → pre st q < pre st p;
  snd_down : ∀ x p, x ∈ st_S st → p ∈ st_P st → pre st p ≤ pre st x →
               reach g p x;
  snd_up : ∀ x, x ∈ st_S st →
             ∃ p, p ∈ st_P st ∧ pre st p ≤ pre st x ∧ reach g x p ∧
                  ∀ q, q ∈ st_P st → pre st q ≤ pre st x →
                       pre st q ≤ pre st p;
  snd_edges : ∀ x y, E x y → x ∈ st_S st →
                y ∈ st_assigned st ∨
                (y ∈ st_S st ∧
                 ∀ p, p ∈ st_P st → pre st p ≤ pre st x → pre st p ≤ pre st y);
  snd_closed : ∀ x y, x ∈ st_assigned st → out_edge g x y →
                 y ∈ st_assigned st;
  snd_comps : ∀ c x y, c ∈ st_components st → x ∈ c →
                (y ∈ c ↔ mutual g x y);
  snd_E_edge : ∀ x y, E x y → out_edge g x y;
  snd_E_dom : ∀ x y, E x y → is_Some (st_preorder st !! x)
}.

(** What a call [DFS(node)] started in [st] with examined edges [E]
    achieves: the invariants hold for [st'] and [E'], [node] got the next
    number, and all the edges out of the nodes numbered by the call have
    been examined. *)
Definition DFS_result g (E : string → string → Prop) (node : string)
    (st st' : SCC) (E' : string → string → Prop) : Prop :=
  scc_inv g st' ∧ scc_sound g E' st' ∧ extends st st' ∧
  st_preorder st' !! node = Some (st_count st) ∧
  (∀ x y, E x y → E' x y) ∧
  (∀ x y, st_preorder st !! x = None → is_Some (st_preorder st' !! x) →
          out_edge g x y → E' x y).

(** The graph induced by the nodes of [keep]. *)
Definition restrict g (keep : gset string) : Graph Attr :=
  mkGraph (type g) (multi g) (allowSelfLoops g)
    (filter (λ na, na.1 ∈ keep) (g_nodes g))
    (filter (λ e, edge_source e ∈ keep ∧ edge_target e ∈ keep) (g_edges g)).

(** The graph once the nodes of [dropped] are deleted. *)
Definition without g (dropped : gset string) : Graph Attr :=
  mkGraph (type g) (multi g) (allowSelfLoops g)
    (filter (λ na, na.1 ∉ dropped) (g_nodes g))
    (filter (λ e, (edge_source e ∉ dropped) ∧ (edge_target e ∉ dropped))
            (g_edges g)).

End Vocabulary.

(** * Further vocabulary *)

Section Relations.

Context {Attr : Type}.
Implicit Types (g : Graph Attr).

(** Two edges join the same pair of nodes, whatever their orientation and
    whether or not they are directed. *)
Definition same_ends (e e' : Edge Attr) : Prop :=
  (edge_source e = edge_source e' ∧ edge_target e = edge_target e') ∨
  (edge_source e = edge_target e' ∧ edge_target e = edge_source e').

#[global] Instance same_ends_dec e e' : Decision (same_ends e e').
Proof. unfold same_ends. apply _. Defined.

(** Every beginning of the list of components is a set of nodes that no
    outbound edge leaves. *)
Definition prefix_closed g (comps : list (list string)) : Prop :=
  ∀ l1 l2, comps = l1 ++ l2 →
    ∀ x y, x ∈ concat l1 → out_edge g x y → y ∈ concat l1.

End Relations.

(** * Concrete graphs *)

Definition plain_node (key : string) : string * string := (key, "{}"%string).

Definition directed_edge (key source target : string) : Edge string :=
  mkEdge key source target false "{}"%string.

Definition undirected_edge (key source target : string) : Edge string :=
  mkEdge key source target true "{}"%string.

(** The directed cycle A→B→C→A and the directed path A→B→C. *)
Definition cycle_graph : Graph string :=
  (mkGraph directed false true
     [plain_node "A"; plain_node "B"; plain_node "C"]
     [directed_edge "ab" "A" "B"; directed_edge "bc" "B" "C";
      directed_edge "ca" "C" "A"])%string.

Definition path_graph : Graph string :=
  (mkGraph directed false true
     [plain_node "A"; plain_node "B"; plain_node "C"]
     [directed_edge "ab" "A" "B"; directed_edge "bc" "B" "C"])%string.

(** The same edge sets in undirected graphs. *)
Definition cycle_undirected : Graph string :=
  (mkGraph undirected false true
     [plain_node "A"; plain_node "B"; plain_node "C"]
     [undirected_edge "ab" "A" "B"; undirected_edge "bc" "B" "C";
      undirected_edge "ca" "C" "A"])%string.

Definition path_undirected : Graph string :=
  (mkGraph undirected false true
     [plain_node "A"; plain_node "B"; plain_node "C"]
     [undirected_edge "ab" "A" "B"; undirected_edge "bc" "B" "C"])%string.

(** Nodes 1..5 with the undirected edges (1,2), (2,3), (4,5). *)
Definition two_components : Graph string :=
  (mkGraph mixed false true
     [plain_node "1"; plain_node "2"; plain_node "3"; plain_node "4";
      plain_node "5"]
     [undirected_edge "e1" "1" "2"; undirected_edge "e2" "2" "3";
      undirected_edge "e3" "4" "5"])%string.

(** The directed edges (1,2), (2,1), (2,3). *)
Definition two_strong_components : Graph string :=
  (mkGraph directed false true
     [plain_node "1"; plain_node "2"; plain_node "3"]
     [directed_edge "e1" "1" "2"; directed_edge "e2" "2" "1";
      directed_edge "e3" "2" "3"])%string.

Definition isolated_nodes : Graph string :=
  (mkGraph mixed false true
     [plain_node "A"; plain_node "B"; plain_node "C"] [])%string.

Definition single_undirected : Graph string :=
  (mkGraph undirected false true [plain_node "A"] [])%string.

Definition null_undirected : Graph string :=
  mkGraph undirected false true [] [].

Definition null_graph : Graph string :=
  mkGraph mixed false true [] [].

(** Well-formedness of a concrete graph is decided by computation. *)
Ltac well_formed_by_computation :=
  match goal with
  | |- ?P => apply (@bool_decide_unpack P _); vm_compute; exact I
  end.

(** * Canvas rendering settings

    A shallow embedding of [src/canvas/defaults.js]: the default settings
    of the canvas renderer, their refinement and the default reducers.

    Conventions:
    - a plain JavaScript object is a finite map from property names to
      values, holding its own enumerable data properties; its prototype
      is [Object.prototype], so reading a property it does not have gives
      [undefined] (none of the names read here is defined on
      [Object.prototype]); a property named [__proto__] in a map is an own
      data property, as [JSON.parse] creates;
    - the functions only test numbers for truthiness and with [typeof], so
      a number is an integer or [NaN];
    - a function value is opaque and carries no property of its own;
    - an exception is the left injection of a sum. *)

#[warnings="-register-all"]
Inductive JSValue :=
  | JSUndefined
  | JSNull
  | JSBoolean (b : bool)
  | JSNumber (n : Z)
  | JSNaN
  | JSString (s : string)
  | JSFunction (name : string)
  | JSObject (props : gmap string JSValue).

Abbreviation Obj := (gmap string JSValue).

Inductive CanvasError :=
  | InvalidDimensions            (* 'graphology-canvas: need at least a valid width or height!' *)
  | InvalidPosition (node : string)  (* 'graphology-canvas: the <node> node has no valid x or y position.' *)
  | TypeError.                   (* property read on undefined or null *)

#[global] Instance CanvasError_ret : MRet (sum CanvasError) := λ T v, inr v.

#[global] Instance CanvasError_bind : MBind (sum CanvasError) := λ T U k m,
  match m with
  | inl e => inl e
  | inr v => k v
  end.

(** [ToBoolean]. *)
Definition truthy (v : JSValue) : bool :=
  match v with
  | JSUndefined | JSNull | JSNaN => false
  | JSBoolean b => b
  | JSNumber n => negb (n =? 0)%Z
  | JSString s => negb (String.eqb s "")
  | JSFunction _ | JSObject _ => true
  end.

(** [typeof v === 'number']. *)
Definition is_number (v : JSValue) : bool :=
  match v with JSNumber _ | JSNaN => true | _ => false end.

(** [o.key] on an object. *)
Definition get (o : Obj) (key : string) : JSValue :=
  default JSUndefined (o !! key).

(** [v.key] on any value: a [TypeError] on [undefined] and [null];
    [undefined] on the other primitives and on functions, for a [key] that
    their prototypes do not define (the only one read this way is
    [defaultColor]). *)
Definition member (v : JSValue) (key : string) : CanvasError + JSValue :=
  match v with
  | JSUndefined | JSNull => inl TypeError
  | JSObject o => inr (get o key)
  | _ => inr JSUndefined
  end.

(** [a || b], both operands already evaluated. *)
Definition js_or (a b : JSValue) : JSValue := if truthy a then a else b.

(** One source of [Object.assign]: each own enumerable property of
    [source] is assigned to the target with [[Set]], so it becomes an own
    property of the target, except for [__proto__].  While the target has
    no own [__proto__] and the setter of [Object.prototype] is reachable
    through its prototype chain, assigning [__proto__] calls that setter:
    an object, a function or [null] becomes the prototype of the target,
    any other value is ignored, and no own property is created.  The
    boolean tells whether the setter is reachable: it no longer is below a
    [null] prototype, nor below a prototype with an own [__proto__]
    property; [__proto__] is then assigned like any other property. *)
Definition assign_source (target : Obj * bool) (source : Obj) : Obj * bool :=
  let (own, setter) := target in
  let copied := delete "__proto__" source ∪ own in
  match source !! "__proto__" with
  | None => (copied, setter)
  | Some v =>
    if setter && bool_decide (own !! "__proto__" = None) then
      match v with
      | JSNull => (copied, false)
      | JSObject prototype =>
        (copied, bool_decide (prototype !! "__proto__" = None))
      | JSFunction _ => (copied, true)
      | _ => (copied, setter)
      end
    else (<["__proto__" := v]> copied, setter)
  end.

(** [Object.assign(target, ...sources)] on a plain target: the own
    properties of the target afterwards; later sources win. *)
Definition Object_assign (target : Obj) (sources : list Obj) : Obj :=
  (foldl assign_source (target, true) sources).1.

Definition DEFAULTS : Obj :=
  <["batchSize" := JSNumber 500]> (
  <["padding" := JSNumber 20]> (
  <["width" := JSNumber 2048]> (
  <["height" := JSNumber 2048]> (
  <["nodes" := JSObject (<["reducer" := JSNull]> (
                         <["defaultColor" := JSString "#999"]> ∅))]> (
  <["edges" := JSObject (<["reducer" := JSNull]> (
                         <["defaultColor" := JSString "#ccc"]> ∅))]> ∅))))).

(** The argument is the settings object, or [None] when the caller passes
    nothing or a falsy value: [settings || {}] is then the empty object.
    The result is given by its own properties.  Every property that is
    read from refined settings, here and in the reducers, is an own one,
    since the defaults define it; so the prototype that an own [__proto__]
    of the caller's settings may install on the result is never
    consulted. *)
Definition refineSettings (settings : option Obj) : CanvasError + Obj :=
  let settings := default ∅ settings in
  let dimensions : Obj := ∅ in
  let dimensions :=
    if truthy (get settings "width") && negb (truthy (get settings "height"))
    then <["height" := get settings "width"]> dimensions else dimensions in
  let dimensions :=
    if truthy (get settings "height") && negb (truthy (get settings "width"))
    then <["width" := get settings "height"]> dimensions else dimensions in
  let settings := Object_assign ∅ [DEFAULTS; settings; dimensions] in
  if negb (truthy (get settings "width")) && negb (truthy (get settings "height"))
  then inl InvalidDimensions
  else inr settings.

(** The properties of the object literal are evaluated in order, so the
    read of [settings.nodes.defaultColor], made only when [attr.color] is
    falsy, can throw before the positions are checked. *)
Definition DEFAULT_NODE_REDUCER (settings : Obj) (node : string) (attr : Obj)
    : CanvasError + Obj :=
  let type_ := js_or (get attr "type") (JSString "circle") in
  let label := js_or (get attr "label") (JSString node) in
  let x := get attr "x" in
  let y := get attr "y" in
  let size := js_or (get attr "size") (JSNumber 1) in
  color ← (if truthy (get attr "color") then inr (get attr "color")
           else member (get settings "nodes") "defaultColor");
  let reduced : Obj :=
    <["type" := type_]> (<["label" := label]> (<["x" := x]> (<["y" := y]> (
    <["size" := size]> (<["color" := color]> ∅))))) in
  if negb (is_number (get reduced "x")) || negb (is_number (get reduced "y"))
  then inl (InvalidPosition node)
  else inr reduced.

Definition DEFAULT_EDGE_REDUCER (settings : Obj) (edge : string) (attr : Obj)
    : CanvasError + Obj :=
  let type_ := js_or (get attr "type") (JSString "line") in
  let size := js_or (get attr "size") (JSNumber 1) in
  color ← (if truthy (get attr "color") then inr (get attr "color")
           else member (get settings "edges") "defaultColor");
  inr (<["type" := type_]> (<["size" := size]> (<["color" := color]> ∅))).

(** A value from which a property can be read. *)
Definition resolvable (fallback : JSValue) : Prop :=
  fallback ≠ JSUndefined ∧ fallback ≠ JSNull.

(** ** Concrete settings and attributes *)

Definition width_only : Obj := <["width" := JSNumber 800]> ∅.

Definition zero_width : Obj := <["width" := JSNumber 0]> ∅.


Definition custom_settings : Obj :=
  <["width" := JSNumber 800]> (
  <["padding" := JSNumber 0]> (
  <["nodes" := JSObject (<["reducer" := JSFunction "reducer"]> ∅)]> ∅)).

(** Settings as [JSON.parse] gives them for a text with a [__proto__]
    member. *)
Definition inherited_settings : Obj :=
  <["__proto__" := JSObject (<["width" := JSNumber 0]> ∅)]> custom_settings.

Definition positioned : Obj :=
  <["x" := JSNumber 1]> (<["y" := JSNumber 2]> ∅).

Definition misplaced : Obj :=
  <["x" := JSString "1"]> (<["y" := JSNumber 2]> ∅).

(** * Properties *)

Section Properties.

Context {Attr : Type}.
Implicit Types (g : Graph Attr) (seen : gset string).

(** ** Running computations *)

Lemma bind_run {T U} (m : M T) (k : T → M U) g :
  (m ≫= k) g = match m g with
               | Returned v g' => k v g'
               | Thrown e g' => Thrown e g'
               | Diverged => Diverged
               end.
Proof. reflexivity. Qed.

Lemma bind_returned {T U} (m : M T) (k : T → M U) g v g' :
  m g = Returned v g' → (m ≫= k) g = k v g'.
Proof. intros Hm. rewrite bind_run, Hm. reflexivity. Qed.

Lemma read_run {T} (f : Graph Attr → T) g : read f g = Returned (f g) g.
Proof. reflexivity. Qed.

Lemma ret_run {T} (v : T) g : (mret v : M T) g = Returned v g.
Proof. reflexivity. Qed.

Lemma forEachNode_from_cons {L} (callback : string → L → M L) node pending l g :
  node ∈ node_keys g →
  forEachNode_from callback (node :: pending) l g
  = match callback node l g with
    | Returned l' g' => forEachNode_from callback pending l' g'
    | Thrown e g' => Thrown e g'
    | Diverged => Diverged
    end.
Proof.
  intros Hin. simpl. rewrite bind_run, read_run.
  rewrite bool_decide_eq_true_2 by done. apply bind_run.
Qed.

Lemma someNode_from_cons {L} (callback : string → L → M (bool * L))
    node pending l g :
  node ∈ node_keys g →
  someNode_from callback (node :: pending) l g
  = match callback node l g with
    | Returned (true, l') g' => Returned (true, l') g'
    | Returned (false, l') g' => someNode_from callback pending l' g'
    | Thrown e g' => Thrown e g'
    | Diverged => Diverged
    end.
Proof.
  intros Hin. simpl. rewrite bind_run, read_run.
  rewrite bool_decide_eq_true_2 by done. rewrite bind_run.
  destruct (callback node l g) as [[[] l'] g'| |]; reflexivity.
Qed.

Lemma elem_of_concat {T} (x : T) (ls : list (list T)) :
  x ∈ concat ls ↔ ∃ l, x ∈ l ∧ l ∈ ls.
Proof.
  induction ls as [|l ls IH]; simpl.
  - split; [by intros ?%elem_of_nil|]. intros (l & _ & Hl). by apply elem_of_nil in Hl.
  - rewrite elem_of_app, IH. split.
    + intros [Hx|(l' & Hx & Hl')]; [exists l; split; [done|left]|].
      exists l'. split; [done|by right].
    + intros (l' & Hx & [->|Hl']%elem_of_cons); [by left|right; eauto].
Qed.

(** ** Neighbor enumeration *)

Lemma elem_of_nub x l : x ∈ nub l ↔ x ∈ l.
Proof.
  induction l as [|y l IH]; simpl; [done|].
  rewrite !elem_of_cons, list_elem_of_filter, IH.
  destruct (decide (x = y)); naive_solver.
Qed.

Lemma NoDup_nub l : NoDup (nub l).
Proof.
  induction l as [|y l IH]; simpl; [constructor|].
  constructor.
  - rewrite list_elem_of_filter. naive_solver.
  - by apply NoDup_filter.
Qed.

Lemma elem_of_in_neighbors g v x :
  x ∈ in_neighbors g v ↔
  ∃ e, e ∈ g_edges g ∧ edge_undirected e = false ∧
       edge_source e = x ∧ edge_target e = v.
Proof.
  unfold in_neighbors. rewrite list_elem_of_omap.
  split; intros (e & He & Hx); exists e; split; try done.
  - case_decide; naive_solver.
  - rewrite decide_True by naive_solver. naive_solver.
Qed.

Lemma elem_of_out_neighbors g v x :
  x ∈ out_neighbors g v ↔
  ∃ e, e ∈ g_edges g ∧ edge_undirected e = false ∧
       edge_source e = v ∧ edge_target e = x.
Proof.
  unfold out_neighbors. rewrite list_elem_of_omap.
  split; intros (e & He & Hx); exists e; split; try done.
  - case_decide; naive_solver.
  - rewrite decide_True by naive_solver. naive_solver.
Qed.

Lemma elem_of_undirected_neighbors g v x :
  x ∈ undirected_neighbors g v ↔
  ∃ e, e ∈ g_edges g ∧ edge_undirected e = true ∧
       ((edge_source e = v ∧ edge_target e = x) ∨
        (edge_source e = x ∧ edge_target e = v)).
Proof.
  unfold undirected_neighbors. rewrite list_elem_of_omap.
  split; intros (e & He & Hx); exists e; split; try done.
  - repeat case_decide; naive_solver.
  - destruct Hx as (Hu & [[Hs Ht]|[Hs Ht]]).
    + rewrite decide_True by naive_solver. naive_solver.
    + destruct (decide (edge_undirected e = true ∧ edge_source e = v))
        as [[_ Hv]|Hn].
      * f_equal. congruence.
      * rewrite decide_True by naive_solver. naive_solver.
Qed.

(** Two nodes are adjacent exactly when some edge joins them, whatever its
    direction. *)
Lemma elem_of_neighbors g v x :
  x ∈ neighbors g v ↔
  ∃ e, e ∈ g_edges g ∧
       ((edge_source e = v ∧ edge_target e = x) ∨
        (edge_source e = x ∧ edge_target e = v)).
Proof.
  unfold neighbors.
  rewrite elem_of_nub, !elem_of_app, elem_of_in_neighbors,
    elem_of_out_neighbors, elem_of_undirected_neighbors.
  split.
  - intros [H|[H|H]]; destruct H as (e & He & H); exists e; naive_solver.
  - intros (e & He & H). destruct (edge_undirected e) eqn:Hu.
    + right; right. exists e. naive_solver.
    + destruct H as [H|H]; [right; left|left]; exists e; naive_solver.
Qed.

Lemma neighbors_sym g v x : x ∈ neighbors g v → v ∈ neighbors g x.
Proof. rewrite !elem_of_neighbors. naive_solver. Qed.

Lemma NoDup_neighbors g v : NoDup (neighbors g v).
Proof. apply NoDup_nub. Qed.

Lemma elem_of_outbound_neighbors g v x :
  x ∈ outbound_neighbors g v ↔
  ∃ e, e ∈ g_edges g ∧
       ((edge_source e = v ∧ edge_target e = x) ∨
        (edge_undirected e = true ∧ edge_source e = x ∧ edge_target e = v)).
Proof.
  unfold outbound_neighbors.
  rewrite elem_of_nub, !elem_of_app, elem_of_out_neighbors,
    elem_of_undirected_neighbors.
  split.
  - intros [H|H]; destruct H as (e & He & H); exists e; naive_solver.
  - intros (e & He & H). destruct (edge_undirected e) eqn:Hu.
    + right. exists e. naive_solver.
    + left. exists e. naive_solver.
Qed.

Lemma wf_NoDup_nodes g : well_formed g → NoDup (node_keys g).
Proof. by intros (? & _). Qed.

Lemma wf_endpoints g e :
  well_formed g → e ∈ g_edges g →
  edge_source e ∈ node_keys g ∧ edge_target e ∈ node_keys g.
Proof.
  intros (_ & _ & Hall & _) He.
  rewrite Forall_forall in Hall. naive_solver.
Qed.

Lemma neighbors_in_nodes g v x :
  well_formed g → x ∈ neighbors g v → x ∈ node_keys g.
Proof.
  intros Hwf. rewrite elem_of_neighbors.
  intros (e & He & H). destruct (wf_endpoints g e Hwf He). naive_solver.
Qed.

Lemma outbound_neighbors_in_nodes g v x :
  well_formed g → x ∈ outbound_neighbors g v → x ∈ node_keys g.
Proof.
  intros Hwf. rewrite elem_of_outbound_neighbors.
  intros (e & He & H). destruct (wf_endpoints g e Hwf He). naive_solver.
Qed.

(** ** The explicit-stack walk *)

(** [graph.forEachNeighbor(source, addToStack)] pushes the unseen
    neighbors, the last one ending on top. *)
Lemma push_neighbors seen ns stack :
  foldl (flip (addToStack seen)) stack ns
  = reverse (filter (λ x, x ∉ seen) ns) ++ stack.
Proof.
  revert stack. induction ns as [|x ns IH]; intros stack; simpl; [done|].
  rewrite IH, filter_cons. unfold flip, addToStack.
  destruct (decide (x ∈ seen)); simpl.
  - rewrite decide_False by tauto. done.
  - rewrite decide_True by tauto.
    rewrite reverse_cons, <- app_assoc. done.
Qed.

Lemma forEachNeighbor_addToStack g seen source stack :
  source ∈ node_keys g →
  forEachNeighbor source (addToStack seen) stack g
  = Returned (reverse (filter (λ x, x ∉ seen) (neighbors g source)) ++ stack) g.
Proof.
  intros Hin. unfold forEachNeighbor.
  rewrite decide_True by done. by rewrite push_neighbors.
Qed.

Lemma unseen_insert_notin seen l x :
  x ∉ l → unseen ({[x]} ∪ seen) l = unseen seen l.
Proof.
  unfold unseen. induction l as [|y l IH]; intros Hx; [done|].
  rewrite not_elem_of_cons in Hx. destruct Hx as [Hxy Hx].
  rewrite !filter_cons.
  destruct (decide (y ∉ seen)).
  - rewrite decide_True by set_solver. simpl. by rewrite IH.
  - rewrite decide_False by set_solver. by rewrite IH.
Qed.

Lemma unseen_insert seen l x :
  NoDup l → x ∈ l → x ∉ seen →
  S (unseen ({[x]} ∪ seen) l) = unseen seen l.
Proof.
  induction 1 as [|y l Hy Hnd IH]; intros Hx Hs; [by apply elem_of_nil in Hx|].
  unfold unseen in *. rewrite !filter_cons.
  apply elem_of_cons in Hx as [->|Hx].
  - rewrite decide_False by set_solver. rewrite decide_True by done.
    simpl. f_equal. by apply unseen_insert_notin.
  - assert (x ≠ y) by (intros ->; done).
    destruct (decide (y ∉ seen)).
    + rewrite decide_True by set_solver. simpl. f_equal. by apply IH.
    + rewrite decide_False by set_solver. by apply IH.
Qed.

Lemma unseen_length seen l : unseen seen l ≤ length l.
Proof. apply length_filter. Qed.

Lemma graph_order_keys g : graph_order g = length (node_keys g).
Proof. unfold graph_order, node_keys. by rewrite length_fmap. Qed.

Lemma length_neighbors g v :
  well_formed g → length (neighbors g v) ≤ graph_order g.
Proof.
  intros Hwf. rewrite graph_order_keys.
  apply submseteq_length, NoDup_submseteq; [apply NoDup_neighbors|].
  intros x. by apply neighbors_in_nodes.
Qed.

(** The walk ends, leaves the graph as it is, empties the stack and adds
    to [seen] and [component] the same fresh nodes [new]. *)
Lemma while_stack_spec g fuel seen stack component :
  well_formed g →
  (∀ x, x ∈ stack → x ∈ node_keys g) →
  length stack + unseen seen (node_keys g) * S (graph_order g) < fuel →
  ∃ new,
    while_stack fuel seen stack component g
    = Returned (seen ∪ list_to_set new, [], component ++ new) g ∧
    NoDup new ∧
    (∀ x, x ∈ new → (x ∉ seen) ∧ x ∈ node_keys g) ∧
    (∀ x, x ∈ stack → x ∈ seen ∨ x ∈ new) ∧
    (∀ x y, x ∈ new → y ∈ neighbors g x → y ∈ seen ∨ y ∈ new) ∧
    (∀ x, x ∈ new → ∃ s, s ∈ stack ∧ (s ∉ seen) ∧ connected g s x) ∧
    (∀ s rest, stack = s :: rest → s ∉ seen → ∃ new', new = s :: new').
Proof.
  intros Hwf. revert seen stack component.
  induction fuel as [|fuel IH]; intros seen stack component Hst Hfuel; [lia|].
  destruct stack as [|source stack]; simpl.
  { exists []. rewrite app_nil_r.
    replace (seen ∪ list_to_set []) with seen by set_solver.
    split; [done|]. split; [constructor|].
    repeat split; try (intros; set_solver). }
  destruct (decide (source ∈ seen)) as [Hseen|Hseen].
  - destruct (IH seen stack component) as (new & Hrun & Hnd & Hnew & Hstk & Hcl & Hreach & _).
    { intros x Hx. apply Hst. set_solver. }
    { simpl in Hfuel. lia. }
    exists new. split; [done|]. split; [done|]. split; [done|].
    split; [|split; [done|split]].
    + intros x [->|Hx]%elem_of_cons; [by left|by apply Hstk].
    + intros x Hx. destruct (Hreach x Hx) as (s & Hs & Hs').
      exists s. split; [set_solver|done].
    + intros s rest [= -> ->] Hs. done.
  - assert (Hsrc : source ∈ node_keys g) by (apply Hst; set_solver).
    rewrite (bind_returned _ _ _ _ _ (forEachNeighbor_addToStack g _ source stack Hsrc)).
    set (seen1 := {[source]} ∪ seen).
    set (stack1 := reverse (filter (λ x, x ∉ seen1) (neighbors g source)) ++ stack).
    destruct (IH seen1 stack1 (component ++ [source]))
      as (new & Hrun & Hnd & Hnew & Hstk & Hcl & Hreach & _).
    { intros x. unfold stack1. rewrite elem_of_app, elem_of_reverse, list_elem_of_filter.
      intros [[_ Hx]|Hx]; [by eapply neighbors_in_nodes|apply Hst; set_solver]. }
    { unfold stack1. rewrite length_app, length_reverse.
      pose proof (length_filter (λ x, x ∉ seen1) (neighbors g source)).
      pose proof (length_neighbors g source Hwf).
      pose proof (unseen_insert seen (node_keys g) source (wf_NoDup_nodes g Hwf) Hsrc Hseen).
      fold seen1 in H1. simpl in Hfuel. nia. }
    exists (source :: new). split.
    { rewrite Hrun. f_equal. f_equal; [f_equal|].
      - unfold seen1. set_solver.
      - by rewrite <- app_assoc. }
    split. { constructor; [|done]. intros Hin. apply Hnew in Hin. set_solver. }
    split. { intros x [->|Hx]%elem_of_cons; [done|]. apply Hnew in Hx. set_solver. }
    split. { intros x [->|Hx]%elem_of_cons; [right; left|].
             destruct (Hstk x) as [H|H]; [unfold stack1; set_solver| |set_solver].
             unfold seen1 in H. set_solver. }
    split. { intros x y [->|Hx]%elem_of_cons Hy.
             - destruct (decide (y ∈ seen1)) as [Hy1|Hy1]; [unfold seen1 in Hy1; set_solver|].
               destruct (Hstk y) as [H|H]; [|done|set_solver].
               unfold stack1. rewrite elem_of_app, elem_of_reverse, list_elem_of_filter. by left.
             - destruct (Hcl x y Hx Hy) as [H|H]; [unfold seen1 in H|]; set_solver. }
    split.
    { intros x [->|Hx]%elem_of_cons.
      - exists source. split; [left|split; [done|apply rtc_refl]].
      - destruct (Hreach x Hx) as (s & Hs & Hs1 & Hsx).
        unfold stack1 in Hs. rewrite elem_of_app, elem_of_reverse, list_elem_of_filter in Hs.
        destruct Hs as [[_ Hs]|Hs].
        + exists source. split; [left|split; [done|]].
          eapply rtc_l; [exact Hs|done].
        + exists s. split; [by right|split; [unfold seen1 in Hs1; set_solver|done]]. }
    intros s rest [= -> ->] _. by eexists.
Qed.

(** ** Enumeration of the weak components *)

Lemma closed_empty g : closed g ∅.
Proof. intros x y Hx. set_solver. Qed.

Lemma component_of_spec g seen node :
  well_formed g → closed g seen → node ∈ node_keys g → node ∉ seen →
  while_stack (walk_fuel g) seen [node] [] g
  = Returned (seen ∪ list_to_set (component_of g seen node), [],
              component_of g seen node) g ∧
  weak_component g node (component_of g seen node) ∧
  (∀ x, x ∈ component_of g seen node → x ∉ seen) ∧
  closed g (seen ∪ list_to_set (component_of g seen node)).
Proof.
  intros Hwf Hcl Hnode Hseen.
  destruct (while_stack_spec g (walk_fuel g) seen [node] [] Hwf)
    as (new & Hrun & Hnd & Hnew & Hstk & Hclosed & Hreach & Hhead).
  { intros x Hx. set_solver. }
  { unfold walk_fuel. pose proof (unseen_length seen (node_keys g)).
    rewrite <- graph_order_keys in H. simpl. nia. }
  change ([] ++ new) with new in Hrun. unfold component_of. rewrite Hrun.
  assert (Hin : ∀ x y, x ∈ new → y ∈ neighbors g x → y ∈ new).
  { intros x y Hx Hy. destruct (Hclosed x y Hx Hy) as [H|H]; [|done].
    exfalso. apply (Hnew x Hx). eapply Hcl; [exact H|]. by apply neighbors_sym. }
  split; [done|]. split; [|split].
  - split; [by eapply Hhead|]. split; [done|]. split; [intros x Hx; by apply Hnew|].
    split; [done|]. intros x Hx.
    destruct (Hreach x Hx) as (s & Hs & _ & Hsx). by apply list_elem_of_singleton in Hs as ->.
  - intros x Hx. by apply Hnew.
  - intros x y [Hx|Hx]%elem_of_union Hy.
    + apply elem_of_union_l. by eapply Hcl.
    + apply elem_of_union_r. rewrite elem_of_list_to_set in *. by eapply Hin.
Qed.

Lemma components_from_spec g pending seen :
  well_formed g → closed g seen →
  (∀ x, x ∈ pending → x ∈ node_keys g) →
  NoDup (concat (components_from g pending seen)) ∧
  (∀ x, x ∈ concat (components_from g pending seen) →
        (x ∉ seen) ∧ x ∈ node_keys g) ∧
  (∀ x, x ∈ pending → x ∈ seen ∨ x ∈ concat (components_from g pending seen)) ∧
  Forall (λ c, ∃ node, weak_component g node c) (components_from g pending seen) ∧
  closed g (seen ∪ list_to_set (concat (components_from g pending seen))).
Proof.
  intros Hwf. revert seen.
  induction pending as [|node pending IH]; intros seen Hcl Hpend; simpl.
  { split; [constructor|]. split; [set_solver|]. split; [set_solver|].
    split; [constructor|]. intros x y Hx Hy. apply elem_of_union_l.
    apply (Hcl x y); set_solver. }
  destruct (decide (node ∈ seen)) as [Hseen|Hseen].
  - destruct (IH seen Hcl) as (Hnd & Hnew & Hcov & Hall & Hcl').
    { intros x Hx. apply Hpend. set_solver. }
    split; [done|]. split; [done|]. split; [|done].
    intros x [->|Hx]%elem_of_cons; [by left|by apply Hcov].
  - destruct (component_of_spec g seen node Hwf Hcl) as (_ & Hc & Hfresh & Hcl1);
      [apply Hpend; set_solver|done|].
    set (c := component_of g seen node) in *.
    destruct (IH (seen ∪ list_to_set c) Hcl1) as (Hnd & Hnew & Hcov & Hall & Hcl').
    { intros x Hx. apply Hpend. set_solver. }
    destruct Hc as (Hhd & Hndc & Hcn & Hcc & Hconn).
    simpl. split; [|split; [|split; [|split]]].
    + apply NoDup_app. split; [done|]. split; [|done].
      intros x Hx Hx'. apply Hnew in Hx'. set_solver.
    + intros x [Hx|Hx]%elem_of_app; [split; [by apply Hfresh|by apply Hcn]|].
      apply Hnew in Hx. set_solver.
    + intros x [->|Hx]%elem_of_cons.
      * right. destruct Hhd as [rest ->]. set_solver.
      * destruct (Hcov x Hx) as [H|H]; set_solver.
    + constructor; [|done]. exists node. done.
    + replace (seen ∪ list_to_set (c ++ concat (components_from g pending (seen ∪ list_to_set c))))
        with (seen ∪ list_to_set c ∪ list_to_set (concat (components_from g pending (seen ∪ list_to_set c))));
        [done|].
      rewrite list_to_set_app_L. set_solver.
Qed.

(** The callback that [forEachConnectedComponent] hands to
    [graph.forEachNode], run from the nodes still to enumerate. *)
Lemma forEachNode_from_components {U} g (callback : list string → U → U)
    pending seen u :
  well_formed g → closed g seen →
  (∀ x, x ∈ pending → x ∈ node_keys g) →
  forEachNode_from (λ node '(seen, stack, u),
      if decide (node ∈ seen) then mret (seen, stack, u)
      else
        '(seen, stack, component) ← while_stack (walk_fuel g) seen (node :: stack) [];
        mret (seen, stack, callback component u))
    pending (seen, [], u) g
  = Returned (seen ∪ list_to_set (concat (components_from g pending seen)), [],
              foldl (flip callback) u (components_from g pending seen)) g.
Proof.
  intros Hwf. revert seen u.
  induction pending as [|node pending IH]; intros seen u Hcl Hpend.
  { simpl. rewrite ret_run. f_equal. f_equal. f_equal. set_solver. }
  rewrite forEachNode_from_cons by (apply Hpend; set_solver).
  cbn [components_from]. cbv beta iota.
  destruct (decide (node ∈ seen)) as [Hseen|Hseen].
  - rewrite ret_run. apply IH; [done|]. intros x Hx. apply Hpend. set_solver.
  - destruct (component_of_spec g seen node Hwf Hcl) as (Hrun & _ & _ & Hcl1);
      [apply Hpend; set_solver|done|].
    rewrite bind_run, Hrun, ret_run.
    rewrite IH; [|done|intros x Hx; apply Hpend; set_solver].
    cbn [concat foldl]. f_equal. f_equal. f_equal.
    rewrite list_to_set_app_L. set_solver.
Qed.

Lemma forEachConnectedComponent_run {U} g (callback : list string → U → U) u :
  well_formed g →
  forEachConnectedComponent callback u g
  = Returned (foldl (flip callback) u (weak_components g)) g.
Proof.
  intros Hwf. unfold forEachConnectedComponent, weak_components.
  rewrite bind_run, read_run.
  destruct (decide (graph_order g = 0)) as [H0|H0].
  { rewrite graph_order_keys in H0. apply nil_length_inv in H0. by rewrite H0. }
  rewrite bind_run, read_run, bind_run. unfold forEachNode.
  rewrite bind_run, read_run.
  rewrite (forEachNode_from_components g callback (node_keys g) ∅ u Hwf (closed_empty g));
    [|done].
  by rewrite ret_run.
Qed.

Lemma foldl_snoc {T} (l acc : list T) :
  foldl (flip (λ x xs, xs ++ [x])) acc l = acc ++ l.
Proof.
  revert acc. induction l as [|x l IH]; intros acc; simpl.
  - by rewrite app_nil_r.
  - rewrite IH. unfold flip. by rewrite <- app_assoc.
Qed.

Lemma connectedComponents_run g :
  well_formed g → connectedComponents g = Returned (weak_components g) g.
Proof.
  intros Hwf. unfold connectedComponents.
  rewrite forEachConnectedComponent_run by done. by rewrite foldl_snoc.
Qed.

(** ** The size-only variant *)

Lemma while_stack_order_length g fuel seen stack component :
  while_stack_order fuel seen stack (length component) g
  = match while_stack fuel seen stack component g with
    | Returned (seen', stack', component') g' =>
        Returned (seen', stack', length component') g'
    | Thrown e g' => Thrown e g'
    | Diverged => Diverged
    end.
Proof.
  revert seen stack component g.
  induction fuel as [|fuel IH]; intros seen stack component g; [done|].
  destruct stack as [|source stack]; simpl; [done|].
  destruct (decide (source ∈ seen)); [apply IH|].
  rewrite !bind_run.
  destruct (forEachNeighbor source (addToStack ({[source]} ∪ seen)) stack g)
    as [stack1 g1| |]; [|done|done].
  replace (S (length component)) with (length (component ++ [source]))
    by (rewrite length_app; simpl; lia).
  apply IH.
Qed.

Lemma forEachNode_from_order {U} (callback : nat → U → U) fuel pending l g :
  forEachNode_from (λ node '(seen, stack, u),
      if decide (node ∈ seen) then mret (seen, stack, u)
      else
        '(seen, stack, order) ← while_stack_order fuel seen (node :: stack) 0;
        mret (seen, stack, callback order u))
    pending l g
  = forEachNode_from (λ node '(seen, stack, u),
      if decide (node ∈ seen) then mret (seen, stack, u)
      else
        '(seen, stack, component) ← while_stack fuel seen (node :: stack) [];
        mret (seen, stack, callback (length component) u))
    pending l g.
Proof.
  revert l g. induction pending as [|node pending IH]; intros l g; [done|].
  cbn [forEachNode_from]. rewrite !bind_run, !read_run.
  destruct (bool_decide (node ∈ node_keys g)); [|apply IH].
  rewrite !bind_run. destruct l as [[seen stack] u].
  destruct (decide (node ∈ seen)); [rewrite !ret_run; apply IH|].
  rewrite !bind_run.
  change 0 with (length (@nil string)).
  rewrite while_stack_order_length.
  destruct (while_stack fuel seen (node :: stack) [] g)
    as [[[seen' stack'] component] g'| |]; [|done|done].
  rewrite !ret_run. apply IH.
Qed.

Lemma forEachConnectedComponentOrder_eq {U} (callback : nat → U → U) u g :
  forEachConnectedComponentOrder callback u g
  = forEachConnectedComponent (λ component, callback (length component)) u g.
Proof.
  unfold forEachConnectedComponentOrder, forEachConnectedComponent.
  rewrite !bind_run, !read_run.
  destruct (decide (graph_order g = 0)); [done|].
  rewrite !bind_run, !read_run, !bind_run. unfold forEachNode.
  rewrite !bind_run, !read_run.
  by rewrite forEachNode_from_order.
Qed.

(** ** The largest component *)

Lemma largest_of_small best comps :
  (∀ c, c ∈ comps → length c ≤ length best) → largest_of best comps = best.
Proof.
  unfold largest_of. induction comps as [|c comps IH]; intros Hall; [done|].
  simpl. assert (length c ≤ length best) by (apply Hall; left).
  rewrite decide_False by lia.
  apply IH. intros c' Hc'. apply Hall. by right.
Qed.

Lemma largest_of_first_max best comps :
  (largest_of best comps = best ∧ ∀ c, c ∈ comps → length c ≤ length best) ∨
  (∃ l1 l2, comps = l1 ++ largest_of best comps :: l2 ∧
            length best < length (largest_of best comps) ∧
            (∀ c, c ∈ l1 → length c < length (largest_of best comps)) ∧
            (∀ c, c ∈ l2 → length c ≤ length (largest_of best comps))).
Proof.
  revert best. induction comps as [|c comps IH]; intros best.
  { left. split; [done|]. intros c Hc. by apply elem_of_nil in Hc. }
  unfold largest_of. simpl. fold (largest_of (if decide (length best < length c) then c else best) comps).
  destruct (decide (length best < length c)) as [Hlt|Hge].
  - right. destruct (IH c) as [[Heq Hall]|(l1 & l2 & Hcomps & Hlen & H1 & H2)].
    + exists [], comps. rewrite Heq. split; [done|]. split; [done|].
      split; [intros c' Hc'; by apply elem_of_nil in Hc'|done].
    + exists (c :: l1), l2. split; [simpl; by f_equal|]. split; [lia|].
      split; [|done]. intros c' [->|Hc']%elem_of_cons; [done|by apply H1].
  - destruct (IH best) as [[Heq Hall]|(l1 & l2 & Hcomps & Hlen & H1 & H2)].
    + left. split; [done|]. intros c' [->|Hc']%elem_of_cons; [lia|by apply Hall].
    + right. exists (c :: l1), l2. split; [simpl; by f_equal|]. split; [done|].
      split; [|done]. intros c' [->|Hc']%elem_of_cons; [lia|by apply H1].
Qed.

(** What is left to enumerate cannot hold more nodes than are unseen. *)
Lemma components_from_length g pending seen c :
  well_formed g → closed g seen →
  (∀ x, x ∈ pending → x ∈ node_keys g) →
  (∀ x, x ∈ seen → x ∈ node_keys g) →
  c ∈ components_from g pending seen →
  length c ≤ graph_order g - size seen.
Proof.
  intros Hwf Hcl Hpend Hseen Hc.
  destruct (components_from_spec g pending seen Hwf Hcl Hpend)
    as (Hnd & Hnew & _).
  assert (length (concat (components_from g pending seen)) + size seen
          ≤ graph_order g).
  { rewrite graph_order_keys. unfold size, set_size. simpl.
    rewrite <- length_app. apply submseteq_length, NoDup_submseteq.
    - apply NoDup_app. split; [done|]. split; [|apply NoDup_elements].
      intros x Hx Hx'. apply Hnew in Hx. set_solver.
    - intros x [Hx|Hx]%elem_of_app; [by apply Hnew|]. apply Hseen. set_solver. }
  assert (length c ≤ length (concat (components_from g pending seen))).
  { apply list_elem_of_split in Hc as (l1 & l2 & ->).
    rewrite concat_app, length_app. simpl. rewrite length_app. lia. }
  lia.
Qed.

Lemma someNode_from_largest g pending seen best :
  well_formed g → closed g seen →
  (∀ x, x ∈ pending → x ∈ node_keys g) →
  (∀ x, x ∈ seen → x ∈ node_keys g) →
  ∃ found seen',
    someNode_from
      (λ node '(seen, stack, largestComponent),
        if decide (node ∈ seen) then mret (false, (seen, stack, largestComponent))
        else
          '(seen, stack, component) ← while_stack (walk_fuel g) seen (node :: stack) [];
          let largestComponent :=
            if decide (length largestComponent < length component)
            then component else largestComponent in
          let remaining := graph_order g - size seen in
          if decide (remaining < length largestComponent)
          then mret (true, (seen, stack, largestComponent))
          else mret (false, (seen, stack, largestComponent)))
      pending (seen, [], best) g
    = Returned (found, (seen', [], largest_of best (components_from g pending seen))) g.
Proof.
  intros Hwf. revert seen best.
  induction pending as [|node pending IH]; intros seen best Hcl Hpend Hseen.
  { exists false, seen. done. }
  rewrite someNode_from_cons by (apply Hpend; set_solver).
  cbn [components_from]. cbv beta iota.
  destruct (decide (node ∈ seen)) as [Hin|Hin].
  - rewrite ret_run. apply IH; [done| |done]. intros x Hx. apply Hpend. set_solver.
  - destruct (component_of_spec g seen node Hwf Hcl) as (Hrun & Hc & _ & Hcl1);
      [apply Hpend; set_solver|done|].
    rewrite bind_run, Hrun. cbv zeta.
    set (c := component_of g seen node) in *.
    set (best1 := if decide (length best < length c) then c else best).
    assert (Hseen1 : ∀ x, x ∈ seen ∪ list_to_set c → x ∈ node_keys g).
    { intros x [Hx|Hx]%elem_of_union; [by apply Hseen|].
      destruct Hc as (_ & _ & Hcn & _). apply Hcn. set_solver. }
    assert (Hpend1 : ∀ x, x ∈ pending → x ∈ node_keys g).
    { intros x Hx. apply Hpend. set_solver. }
    unfold largest_of. cbn [foldl]. fold best1.
    fold (largest_of best1 (components_from g pending (seen ∪ list_to_set c))).
    destruct (decide (graph_order g - size (seen ∪ list_to_set c) < length best1)) as [Hexit|Hgo].
    + rewrite ret_run. exists true, (seen ∪ list_to_set c).
      rewrite largest_of_small; [done|].
      intros c' Hc'.
      pose proof (components_from_length g pending _ c' Hwf Hcl1 Hpend1 Hseen1 Hc').
      lia.
    + rewrite ret_run. by apply IH.
Qed.

Lemma largestConnectedComponent_run g :
  well_formed g →
  largestConnectedComponent g = Returned (largest_of [] (weak_components g)) g.
Proof.
  intros Hwf. unfold largestConnectedComponent, weak_components.
  rewrite bind_run, read_run.
  destruct (decide (graph_order g = 0)) as [H0|H0].
  { rewrite graph_order_keys in H0. apply nil_length_inv in H0. by rewrite H0. }
  rewrite bind_run, read_run, bind_run. unfold someNode.
  rewrite bind_run, read_run.
  destruct (someNode_from_largest g (node_keys g) ∅ [] Hwf (closed_empty g))
    as (found & seen' & Hrun); [done|set_solver|].
  cbv zeta in Hrun |- *. rewrite Hrun. by rewrite ret_run.
Qed.

Lemma largest_by_full_traversal_run g :
  well_formed g →
  largest_by_full_traversal g = Returned (largest_of [] (weak_components g)) g.
Proof.
  intros Hwf. unfold largest_by_full_traversal.
  by rewrite forEachConnectedComponent_run.
Qed.

(** ** The strong component walker *)

Lemma array_forEach_cons {T L} (callback : T → L → M L) x array l g :
  array_forEach callback (x :: array) l g
  = match callback x l g with
    | Returned l' g' => array_forEach callback array l' g'
    | Thrown e g' => Thrown e g'
    | Diverged => Diverged
    end.
Proof. reflexivity. Qed.

Lemma pop_while_spec (preorder : gmap string nat) o P :
  ∃ popped, P = popped ++ pop_while preorder o P ∧
            ∀ x, x ∈ popped → ∃ ox, preorder !! x = Some ox ∧ o < ox.
Proof.
  induction P as [|top rest (popped & Heq & Hpop)]; simpl.
  { exists []. split; [done|]. intros x Hx. by apply elem_of_nil in Hx. }
  destruct (preorder !! top) as [ot|] eqn:Htop.
  - destruct (decide (o < ot)).
    + exists (top :: popped). split; [simpl; by f_equal|].
      intros x [->|Hx]%elem_of_cons; [eauto|by apply Hpop].
    + exists []. split; [done|]. intros x Hx. by apply elem_of_nil in Hx.
  - exists []. split; [done|]. intros x Hx. by apply elem_of_nil in Hx.
Qed.

Lemma pop_until_spec node X S0 component assigned :
  node ∉ X →
  pop_until node (X ++ node :: S0) component assigned
  = Some (S0, component ++ X ++ [node], list_to_set (X ++ [node]) ∪ assigned).
Proof.
  revert component assigned.
  induction X as [|x X IH]; intros component assigned Hnode; simpl.
  - rewrite decide_False by (intros H; by apply H).
    do 2 f_equal. set_solver.
  - apply not_elem_of_cons in Hnode as [Hne Hnode].
    rewrite decide_True by done. rewrite IH by done.
    do 2 f_equal; [f_equal; by rewrite <- app_assoc|set_solver].
Qed.

Lemma DFS_unfold fuel node st g :
  DFS (S fuel) node st g
  = (neighbors ← outboundNeighbors node;
     st ← array_forEach (DFS_neighbor fuel) neighbors (visit node st);
     if decide (top_preorder (st_preorder st) (st_P st) = st_preorder st !! node)
     then
       match pop_until node (st_S st) [] (st_assigned st) with
       | Some (stackS, component, assigned) =>
         mret (mkSCC (st_count st) (tail (st_P st)) stackS (st_preorder st)
                     assigned (st_components st ++ [component]))
       | None => diverge
       end
     else mret st) g.
Proof. reflexivity. Qed.

Lemma extends_refl st : extends st st.
Proof.
  split; [by exists []|done|done|done|done|].
  intros x o Hnone Hsome. congruence.
Qed.

Lemma extends_trans st0 st1 st2 :
  extends st0 st1 → extends st1 st2 → extends st0 st2.
Proof.
  intros [[X1 H1] HP1 Hm1 Ha1 Hc1 Hn1] [[X2 H2] HP2 Hm2 Ha2 Hc2 Hn2].
  split.
  - exists (X2 ++ X1). by rewrite H2, H1, app_assoc.
  - by etrans.
  - by etrans.
  - by etrans.
  - lia.
  - intros x o Hnone Hsome.
    destruct (st_preorder st1 !! x) as [o1|] eqn:H1x.
    + pose proof (lookup_weaken _ _ _ _ H1x Hm2). simplify_eq. by eapply Hn1.
    + pose proof (Hn2 x o H1x Hsome). lia.
Qed.

Lemma unseen_mono seen seen' l : seen ⊆ seen' → unseen seen' l ≤ unseen seen l.
Proof.
  intros Hsub. unfold unseen. induction l as [|x l IH]; [done|].
  rewrite !filter_cons. destruct (decide (x ∉ seen')).
  - rewrite decide_True by set_solver. simpl. lia.
  - destruct (decide (x ∉ seen)); simpl; lia.
Qed.

Lemma scc_inv_visit g node st :
  scc_inv g st → node ∈ node_keys g → st_preorder st !! node = None →
  scc_inv g (visit node st).
Proof.
  intros [] Hnode Hnone.
  assert (Hfresh : (node ∉ st_S st) ∧ (node ∉ st_assigned st)).
  { split; intros Hin; cut (is_Some (st_preorder st !! node));
      try (rewrite Hnone; by intros [? ?]); apply inv_dom0; auto. }
  destruct Hfresh as [HnS Hna].
  split; simpl.
  - intros x. rewrite lookup_insert_is_Some, inv_dom0, elem_of_cons.
    destruct (decide (node = x)); naive_solver.
  - by constructor.
  - intros x [->|Hx]%elem_of_cons; auto.
  - intros x o [[-> <-]|[Hne Hx]]%lookup_insert_Some; [lia|].
    apply inv_count0 in Hx. lia.
  - intros x y o [[-> <-]|[Hne Hx]]%lookup_insert_Some
                 [[-> Ho]|[Hne' Hy]]%lookup_insert_Some; try done.
    + apply inv_count0 in Hy. lia.
    + apply inv_count0 in Hx. lia.
    + by eapply inv_inj0.
  - intros p [->|Hp]%elem_of_cons; [left|right; auto].
  - intros s [->|Hs]%elem_of_cons.
    + exists node, (st_count st), (st_count st).
      rewrite lookup_insert_eq. split; [left|done].
    + destruct (inv_P_low0 s Hs) as (p & o & o' & Hp & Hpo & Hso & Hle).
      exists p, o, o'. split; [by right|].
      rewrite !lookup_insert_ne; [done| |]; intros ->; congruence.
  - done.
  - done.
  - intros x [->|[_ Hx]]%lookup_insert_is_Some; auto.
Qed.

Lemma scc_inv_init g : scc_inv g (mkSCC 1 [] [] ∅ ∅ []).
Proof.
  split; simpl.
  - intros x. rewrite lookup_empty. split; [by intros [? ?]|set_solver].
  - constructor.
  - set_solver.
  - intros x o H. by rewrite lookup_empty in H.
  - intros x y o H. by rewrite lookup_empty in H.
  - set_solver.
  - intros s Hs. by apply elem_of_nil in Hs.
  - constructor.
  - set_solver.
  - intros x [? H]. by rewrite lookup_empty in H.
Qed.

Lemma outboundNeighbors_run g node :
  node ∈ node_keys g →
  outboundNeighbors node g = Returned (outbound_neighbors g node) g.
Proof. intros Hin. unfold outboundNeighbors. by rewrite decide_True. Qed.

Lemma array_forEach_singletons g (l : list string) acc :
  array_forEach (λ n components, mret (components ++ [[n]])) l acc g
  = Returned (acc ++ ((λ n, [n]) <$> l)) g.
Proof.
  revert acc. induction l as [|x l IH]; intros acc.
  - simpl. by rewrite app_nil_r.
  - rewrite array_forEach_cons, ret_run, IH. simpl.
    by rewrite <- app_assoc.
Qed.

Lemma concat_singletons (l : list string) : concat ((λ n, [n]) <$> l) = l.
Proof. induction l as [|x l IH]; simpl; [done|by f_equal]. Qed.

Lemma scc_inv_pop g st o :
  scc_inv g st →
  (∃ neighbor, neighbor ∈ st_S st ∧ st_preorder st !! neighbor = Some o) →
  scc_inv g (set_P (pop_while (st_preorder st) o (st_P st)) st) ∧
  extends st (set_P (pop_while (st_preorder st) o (st_P st)) st).
Proof.
  intros [] (neighbor & HnS & Hno).
  destruct (pop_while_spec (st_preorder st) o (st_P st)) as (popped & HP & Hpopped).
  set (P' := pop_while (st_preorder st) o (st_P st)) in *.
  assert (Hsub : ∀ p, p ∈ P' → p ∈ st_P st).
  { intros p Hp. rewrite HP. set_solver. }
  assert (Hkeep : ∀ p op, p ∈ st_P st → st_preorder st !! p = Some op →
                          op ≤ o → p ∈ P').
  { intros p op Hp Hop Hle. rewrite HP in Hp.
    apply elem_of_app in Hp as [Hp|Hp]; [|done].
    destruct (Hpopped p Hp) as (ox & Hox & Hlt). simplify_eq. lia. }
  split; [split; simpl; try done|].
  - auto.
  - intros s Hs.
    destruct (inv_P_low0 s Hs) as (p & op & os & Hp & Hpo & Hso & Hle).
    destruct (decide (op ≤ o)) as [Hle'|Hgt].
    + exists p, op, os. eauto.
    + destruct (inv_P_low0 neighbor HnS) as (w & ow & on & Hw & Hwo & Hn & Hlew).
      simplify_eq. exists w, ow, os. split; [eapply Hkeep; eauto|].
      split; [done|]. split; [done|lia].
  - split; simpl; [by exists []|by exists popped|done|done|done|].
    intros x ox Hnone Hsome. congruence.
Qed.

(** Numbers of the nodes. *)
Ltac fold_pre :=
  repeat match goal with
  | |- context [default 0 (st_preorder ?s !! ?x)] =>
      change (default 0 (st_preorder s !! x)) with (pre s x)
  | |- context [pre (set_P ?p ?s) ?x] =>
      change (pre (set_P p s) x) with (pre s x)
  end.

Lemma pre_lookup st x o : st_preorder st !! x = Some o → pre st x = o.
Proof. intros H. unfold pre. by rewrite H. Qed.

Lemma pre_visit_eq node st : pre (visit node st) node = st_count st.
Proof. unfold pre. simpl. by rewrite lookup_insert_eq. Qed.

Lemma pre_visit_ne node st x : x ≠ node → pre (visit node st) x = pre st x.
Proof. intros Hne. unfold pre. simpl. by rewrite lookup_insert_ne. Qed.

Lemma pre_weaken st st' x :
  st_preorder st ⊆ st_preorder st' → is_Some (st_preorder st !! x) →
  pre st' x = pre st x.
Proof.
  intros Hsub [o Ho]. rewrite (pre_lookup st x o Ho).
  apply pre_lookup. by eapply lookup_weaken.
Qed.

Lemma S_numbered g st x :
  scc_inv g st → x ∈ st_S st → is_Some (st_preorder st !! x).
Proof. intros Hinv Hx. apply (inv_dom g st Hinv). by right. Qed.

Lemma pre_lt_count g st x :
  scc_inv g st → x ∈ st_S st → pre st x < st_count st.
Proof.
  intros Hinv Hx. destruct (S_numbered g st x Hinv Hx) as [o Ho].
  rewrite (pre_lookup st x o Ho). by eapply (inv_count g st Hinv).
Qed.

Lemma pre_inj g st x y :
  scc_inv g st → x ∈ st_S st → y ∈ st_S st → pre st x = pre st y → x = y.
Proof.
  intros Hinv Hx Hy Heq.
  destruct (S_numbered g st x Hinv Hx) as [ox Hox].
  destruct (S_numbered g st y Hinv Hy) as [oy Hoy].
  rewrite (pre_lookup st x ox Hox), (pre_lookup st y oy Hoy) in Heq. subst oy.
  by eapply (inv_inj g st Hinv).
Qed.

Lemma scc_sound_init g : scc_sound g (λ _ _, False) (mkSCC 1 [] [] ∅ ∅ []).
Proof.
  split; simpl; try done.
  - intros l1 p l2 Heq. by destruct l1.
  - intros x p Hx. by apply elem_of_nil in Hx.
  - intros x Hx. by apply elem_of_nil in Hx.
  - intros c x y Hc. by apply elem_of_nil in Hc.
Qed.

Lemma scc_sound_visit g E node st :
  scc_inv g st → scc_sound g E st →
  st_preorder st !! node = None →
  (∀ p, p ∈ st_P st → reach g p node) →
  scc_sound g E (visit node st).
Proof.
  intros Hinv [Hsorted Hdown Hup Hedges Hclosed Hcomps HEedge HEdom] Hnone HPRE.
  assert (HS : ∀ x, x ∈ st_S st →
                 pre (visit node st) x = pre st x ∧ pre st x < st_count st).
  { intros x Hx. split; [|by eapply pre_lt_count].
    apply pre_visit_ne. intros ->.
    destruct (S_numbered g st node Hinv Hx). congruence. }
  assert (HP : ∀ p, p ∈ st_P st →
                 pre (visit node st) p = pre st p ∧ pre st p < st_count st).
  { intros p Hp. apply HS. by apply (inv_P_S g st Hinv). }
  pose proof (pre_visit_eq node st) as Hnode.
  split; simpl.
  - intros l1 p l2 Heq q Hq. destruct l1 as [|a l1]; simpl in Heq.
    + injection Heq as <- <-. destruct (HP q Hq). lia.
    + injection Heq as -> Heq.
      assert (p ∈ st_P st) by (rewrite Heq; set_solver).
      assert (q ∈ st_P st) by (rewrite Heq; set_solver).
      destruct (HP p), (HP q); try done.
      pose proof (Hsorted l1 p l2 Heq q Hq). lia.
  - intros x p [->|Hx]%elem_of_cons [->|Hp]%elem_of_cons Hle.
    + apply rtc_refl.
    + by apply HPRE.
    + destruct (HS x Hx). lia.
    + destruct (HS x Hx), (HP p Hp). apply Hdown; [done|done|lia].
  - intros x [->|Hx]%elem_of_cons.
    + exists node. split; [left|]. split; [done|]. split; [apply rtc_refl|].
      intros q [->|Hq]%elem_of_cons _; [done|]. destruct (HP q Hq). lia.
    + destruct (Hup x Hx) as (p & Hp & Hle & Hreach & Hmax).
      destruct (HS x Hx), (HP p Hp).
      exists p. split; [by right|]. split; [lia|]. split; [done|].
      intros q [->|Hq]%elem_of_cons Hq'; [lia|].
      destruct (HP q Hq). specialize (Hmax q Hq). lia.
  - intros x y HE [->|Hx]%elem_of_cons.
    + destruct (HEdom node y HE). congruence.
    + destruct (Hedges x y HE Hx) as [Ha|[Hy Hall]]; [by left|right].
      split; [by right|]. destruct (HS x Hx), (HS y Hy).
      intros p [->|Hp]%elem_of_cons Hle; [lia|].
      destruct (HP p Hp). specialize (Hall p Hp). lia.
  - done.
  - done.
  - done.
  - intros x y HE. rewrite lookup_insert_is_Some.
    destruct (decide (node = x)); [by left|right]. split; [done|by eapply HEdom].
Qed.

Lemma pop_while_le st o P :
  (∀ l1 p l2, P = l1 ++ p :: l2 → ∀ q, q ∈ l2 → pre st q < pre st p) →
  ∀ q, q ∈ pop_while (st_preorder st) o P → pre st q ≤ o.
Proof.
  induction P as [|top rest IH]; simpl; intros Hsorted q Hq.
  { by apply elem_of_nil in Hq. }
  assert (Hrest : ∀ q, q ∈ rest → pre st q < pre st top).
  { by apply (Hsorted [] top rest). }
  unfold pre in Hrest.
  destruct (st_preorder st !! top) as [ot|] eqn:Htop; simpl in Hrest.
  - destruct (decide (o < ot)).
    + apply IH; [|done]. intros l1 p l2 ->. by apply (Hsorted (top :: l1) p l2).
    + apply elem_of_cons in Hq as [->|Hq].
      * rewrite (pre_lookup st top ot Htop). lia.
      * specialize (Hrest q Hq). unfold pre. lia.
  - apply elem_of_cons in Hq as [->|Hq].
    + unfold pre. rewrite Htop. simpl. lia.
    + specialize (Hrest q Hq). lia.
Qed.

(** An edge from the node being explored to a numbered node that waits on
    [S]: the entries of [P] numbered after that node are popped. *)
Lemma scc_sound_pop g E st node y o :
  scc_inv g st → scc_sound g E st →
  node ∈ st_S st → (∀ p, p ∈ st_P st → pre st p ≤ pre st node) →
  y ∈ st_S st → st_preorder st !! y = Some o → out_edge g node y →
  scc_sound g E (set_P (pop_while (st_preorder st) o (st_P st)) st) ∧
  (∀ q, q ∈ pop_while (st_preorder st) o (st_P st) → pre st q ≤ o).
Proof.
  intros Hinv [Hsorted Hdown Hup Hedges Hclosed Hcomps HEedge HEdom]
    Hnode Hactive Hy Hyo Hedge.
  destruct (pop_while_spec (st_preorder st) o (st_P st)) as (popped & HP & Hpopped).
  pose proof (pop_while_le st o (st_P st) Hsorted) as Hle.
  set (P' := pop_while (st_preorder st) o (st_P st)) in *.
  assert (Hsub : ∀ p, p ∈ P' → p ∈ st_P st).
  { intros p Hp. rewrite HP. set_solver. }
  assert (Hsplit : ∀ p, p ∈ st_P st → p ∈ P' ∨ o < pre st p).
  { intros p Hp. rewrite HP in Hp. apply elem_of_app in Hp as [Hp|Hp]; [right|by left].
    destruct (Hpopped p Hp) as (ox & Hox & Hlt). by rewrite (pre_lookup st p ox Hox). }
  pose proof (pre_lookup st y o Hyo) as Hprey.
  split; [|done]. split; simpl; fold_pre; try done.
  - intros l1 p l2 Heq. apply (Hsorted (popped ++ l1) p l2).
    rewrite HP, Heq. by rewrite <- app_assoc.
  - intros x p Hx Hp. apply Hdown; auto.
  - intros x Hx.
    destruct (Hup x Hx) as (p & Hp & Hpx & Hreach & Hmax).
    destruct (Hsplit p Hp) as [Hp'|Hgt].
    + exists p. split; [done|]. split; [done|]. split; [done|].
      intros q Hq. apply Hmax. by apply Hsub.
    + destruct (Hup y Hy) as (py & Hpy & Hpyy & Hreachy & Hmaxy).
      destruct (Hsplit py Hpy) as [Hpy'|?]; [|lia].
      exists py. split; [done|]. fold_pre. split; [lia|]. split.
      * etrans; [exact Hreach|].
        etrans; [apply (Hdown node p Hnode Hp), Hactive, Hp|].
        eapply rtc_l; [exact Hedge|exact Hreachy].
      * intros q Hq _. fold_pre. apply Hmaxy; [by apply Hsub|].
        specialize (Hle q Hq). lia.
  - intros x y' HE Hx.
    destruct (Hedges x y' HE Hx) as [Ha|[Hy' Hall]]; [by left|right].
    split; [done|]. intros p Hp. apply Hall. by apply Hsub.
Qed.

Lemma scc_sound_add_edge g E st x y :
  scc_sound g E st → out_edge g x y → is_Some (st_preorder st !! x) →
  (x ∈ st_S st →
   y ∈ st_assigned st ∨
   (y ∈ st_S st ∧
    ∀ p, p ∈ st_P st → pre st p ≤ pre st x → pre st p ≤ pre st y)) →
  scc_sound g (λ a b, E a b ∨ (a = x ∧ b = y)) st.
Proof.
  intros [Hsorted Hdown Hup Hedges Hclosed Hcomps HEedge HEdom] Hedge Hx Hnew.
  split; try done.
  - intros a b [HE|[-> ->]]; [by apply Hedges|done].
  - intros a b [HE|[-> ->]]; [by apply HEedge|done].
  - intros a b [HE|[-> ->]]; [by eapply HEdom|done].
Qed.

(** What is known of the node being explored while its neighbors are
    examined. *)
Lemma active_node g st0 node st :
  scc_inv g st0 → st_preorder st0 !! node = None →
  extends (visit node st0) st →
  node ∈ st_S st ∧
  st_preorder st !! node = Some (st_count st0) ∧
  (∀ s, s ∈ st_S st0 → pre st s < st_count st0) ∧
  (∀ p, p ∈ st_P st → pre st p ≤ pre st node).
Proof.
  intros Hinv0 Hnone [[X HS] HP Hpre _ _ _]. simpl in *.
  assert (Hnode : st_preorder st !! node = Some (st_count st0)).
  { eapply lookup_weaken; [|exact Hpre]. apply lookup_insert_eq. }
  assert (Hpre0 : st_preorder st0 ⊆ st_preorder st).
  { etrans; [|exact Hpre]. by apply insert_subseteq. }
  assert (HS0 : ∀ s, s ∈ st_S st0 → pre st s < st_count st0).
  { intros s Hs. rewrite (pre_weaken st0 st s Hpre0) by (by eapply S_numbered).
    by eapply pre_lt_count. }
  split; [rewrite HS; set_solver|]. split; [done|]. split; [done|].
  intros p Hp. rewrite (pre_lookup st node _ Hnode).
  destruct HP as [k HP]. 
  assert (p ∈ node :: st_P st0) as [->|Hp0]%elem_of_cons by (rewrite HP; set_solver).
  - by rewrite (pre_lookup st node _ Hnode).
  - apply (inv_P_S g st0 Hinv0) in Hp0. specialize (HS0 p Hp0). lia.
Qed.

(** The nodes that [DFS] finds above [node] on [S] when its loop ends
    were numbered during the loop. *)
Lemma above_node_new g st0 node sti X :
  scc_inv g st0 → st_preorder st0 !! node = None →
  scc_inv g sti → extends (visit node st0) sti →
  st_S sti = X ++ node :: st_S st0 →
  ∀ x, x ∈ X → st_preorder (visit node st0) !! x = None ∧
               st_count st0 < pre sti x.
Proof.
  intros Hinv0 Hnone Hi [_ _ Hpre Hass _ Hnew] HS x Hx. simpl in *.
  pose proof (inv_S_NoDup g sti Hi) as Hnd. rewrite HS in Hnd.
  apply NoDup_app in Hnd as (_ & HXS & _).
  assert (Hxn : x ≠ node) by (intros ->; apply (HXS node Hx); left).
  assert (HxS : x ∈ st_S sti) by (rewrite HS; set_solver).
  assert (Hx0 : st_preorder st0 !! x = None).
  { apply eq_None_not_Some. intros Hsome.
    apply (inv_dom g st0 Hinv0) in Hsome as [Ha|Hs].
    - apply (inv_S_fresh g sti Hi x HxS). by apply Hass.
    - apply (HXS x Hx). by right. }
  assert (Hxv : <[node:=st_count st0]> (st_preorder st0) !! x = None).
  { by rewrite lookup_insert_ne. }
  split; [done|].
  destruct (S_numbered g sti x Hi HxS) as [o Ho].
  rewrite (pre_lookup sti x o Ho). specialize (Hnew x o Hxv Ho). lia.
Qed.

Lemma closed_reach g (D : gset string) x y :
  (∀ a b, a ∈ D → out_edge g a b → b ∈ D) → x ∈ D → reach g x y → y ∈ D.
Proof.
  intros Hcl Hx Hxy. induction Hxy as [x|x y z Hxy _ IH]; [done|].
  apply IH. by eapply Hcl.
Qed.

(** [node] roots a finished component: the part of [S] from [node] up is
    moved to the components. *)
Lemma scc_root_pop g E st0 node sti X :
  scc_inv g st0 → st_preorder st0 !! node = None →
  scc_inv g sti → scc_sound g E sti →
  extends (visit node st0) sti →
  st_S sti = X ++ node :: st_S st0 →
  st_P sti = node :: st_P st0 →
  (∀ x y, x ∈ X ++ [node] → out_edge g x y → E x y) →
  scc_inv g (mkSCC (st_count sti) (st_P st0) (st_S st0) (st_preorder sti)
               (list_to_set (X ++ [node]) ∪ st_assigned sti)
               (st_components sti ++ [X ++ [node]])) ∧
  scc_sound g E (mkSCC (st_count sti) (st_P st0) (st_S st0) (st_preorder sti)
               (list_to_set (X ++ [node]) ∪ st_assigned sti)
               (st_components sti ++ [X ++ [node]])).
Proof.
  intros Hinv0 Hnone Hi Hs Hext HS HP Hcov.
  destruct (active_node g st0 node sti Hinv0 Hnone Hext)
    as (HnodeS & Hlook & HS0 & Hactive).
  pose proof (above_node_new g st0 node sti X Hinv0 Hnone Hi Hext HS) as HX.
  pose proof (pre_lookup sti node _ Hlook) as Hprenode.
  pose proof (inv_S_NoDup g sti Hi) as HndS. rewrite HS in HndS.
  apply NoDup_app in HndS as (HndX & HXS & HndS).
  apply NoDup_cons in HndS as [HnS HndS0].
  assert (HnX : node ∉ X). { intros Hin. apply (HXS node Hin). left. }
  assert (HC : ∀ x, x ∈ X ++ [node] → x ∈ st_S sti ∧ pre sti node ≤ pre sti x).
  { intros x [Hx|Hx]%elem_of_app.
    - split; [rewrite HS; set_solver|]. destruct (HX x Hx). lia.
    - apply list_elem_of_singleton in Hx as ->. done. }
  assert (Hback : ∀ y, y ∈ st_S sti → pre sti node ≤ pre sti y → y ∈ X ++ [node]).
  { intros y Hy Hle. rewrite HS in Hy.
    apply elem_of_app in Hy as [Hy|[->|Hy]%elem_of_cons]; [set_solver|set_solver|].
    specialize (HS0 y Hy). lia. }
  split.
  - destruct Hi. rewrite HS, HP in *. split; simpl.
    + intros x. rewrite inv_dom0. rewrite elem_of_union, elem_of_list_to_set.
      rewrite !elem_of_app, !elem_of_cons, elem_of_nil. naive_solver.
    + done.
    + intros x Hx. rewrite elem_of_union, elem_of_list_to_set.
      intros [Hin|Hin].
      * apply elem_of_app in Hin as [Hin|Hin]; [apply (HXS x Hin); by right|].
        apply list_elem_of_singleton in Hin as ->. done.
      * eapply inv_S_fresh0; [|exact Hin]. set_solver.
    + done.
    + done.
    + apply (inv_P_S g st0 Hinv0).
    + intros s Hs0.
      destruct (inv_P_low0 s) as (p & o & o' & Hp & Hpo & Hso & Hle); [set_solver|].
      apply elem_of_cons in Hp as [->|Hp]; [|by exists p, o, o'].
      exfalso. specialize (HS0 s Hs0).
      rewrite (pre_lookup sti s o' Hso) in HS0. simplify_eq. lia.
    + rewrite concat_app. simpl. rewrite app_nil_r.
      apply NoDup_app. split; [done|]. split.
      * intros x Hx Hx'. apply inv_comps0 in Hx.
        eapply inv_S_fresh0; [|exact Hx]. set_solver.
      * apply NoDup_app. split; [done|]. split; [|apply NoDup_singleton].
        intros x Hx Hx'. apply list_elem_of_singleton in Hx' as ->. done.
    + intros x. rewrite concat_app. simpl. rewrite app_nil_r.
      rewrite elem_of_app, inv_comps0, elem_of_union, elem_of_list_to_set.
      tauto.
    + done.
  - destruct Hs as [Hsorted Hdown Hup Hedges Hclosed Hcomps HEedge HEdom].
    assert (Hclosed' : ∀ a b,
      a ∈ (list_to_set (X ++ [node]) ∪ st_assigned sti : gset string) →
      out_edge g a b →
      b ∈ (list_to_set (X ++ [node]) ∪ st_assigned sti : gset string)).
    { intros a b [Ha|Ha]%elem_of_union Hab.
      - apply elem_of_list_to_set in Ha. destruct (HC a Ha) as [HaS Hale].
        destruct (Hedges a b (Hcov a b Ha Hab) HaS) as [Hb|[Hb Hall]].
        + by apply elem_of_union_r.
        + apply elem_of_union_l, elem_of_list_to_set, Hback; [done|].
          apply Hall; [rewrite HP; left|done].
      - apply elem_of_union_r. by eapply Hclosed. }
    assert (Hloop : ∀ x, x ∈ X ++ [node] → mutual g x node).
    { intros x Hx. destruct (HC x Hx) as [HxS Hle]. split.
      - destruct (Hup x HxS) as (p & Hp & Hpx & Hreach & Hmax).
        rewrite HP in Hp. apply elem_of_cons in Hp as [->|Hp]; [done|].
        exfalso. pose proof (Hsorted [] node (st_P st0) HP p Hp).
        specialize (Hmax node). rewrite HP in Hmax.
        specialize (Hmax ltac:(left) Hle). lia.
      - apply Hdown; [done|rewrite HP; left|done]. }
    split; simpl; fold_pre.
    + intros l1 p l2 Heq. apply (Hsorted (node :: l1) p l2). by rewrite HP, Heq.
    + intros x p Hx Hp. apply Hdown; [rewrite HS; set_solver|rewrite HP; by right].
    + intros x Hx.
      destruct (Hup x) as (p & Hp & Hpx & Hreach & Hmax); [rewrite HS; set_solver|].
      rewrite HP in Hp. apply elem_of_cons in Hp as [->|Hp].
      { specialize (HS0 x Hx). lia. }
      exists p. split; [done|]. split; [done|]. split; [done|].
      intros q Hq. apply Hmax. rewrite HP. by right.
    + intros x y HE Hx.
      destruct (Hedges x y HE) as [Hy|[Hy Hall]]; [rewrite HS; set_solver| |].
      { left. by apply elem_of_union_r. }
      rewrite HS in Hy.
      apply elem_of_app in Hy as [Hy|[->|Hy]%elem_of_cons].
      * left. apply elem_of_union_l, elem_of_list_to_set. set_solver.
      * left. apply elem_of_union_l, elem_of_list_to_set. set_solver.
      * right. split; [done|]. intros p Hp. apply Hall. rewrite HP. by right.
    + exact Hclosed'.
    + intros c x y [Hc|Hc]%elem_of_app Hx; [by apply Hcomps|].
      apply list_elem_of_singleton in Hc as ->. split.
      * intros Hy. destruct (Hloop x Hx), (Hloop y Hy). split; by etrans.
      * intros [Hxy Hyx].
        assert (Hy : y ∈ (list_to_set (X ++ [node]) ∪ st_assigned sti : gset string)).
        { eapply closed_reach; [exact Hclosed'| |exact Hxy].
          by apply elem_of_union_l, elem_of_list_to_set. }
        apply elem_of_union in Hy as [Hy|Hy]; [by apply elem_of_list_to_set in Hy|].
        exfalso. destruct (HC x Hx) as [HxS _].
        apply (inv_S_fresh g sti Hi x HxS).
        by eapply (closed_reach g (st_assigned sti) y x).
    + done.
    + done.
Qed.

Lemma DFS_loop_sound g fuel node st0 ns st E :
  well_formed g →
  (∀ node st E, scc_inv g st → scc_sound g E st → node ∈ node_keys g →
     st_preorder st !! node = None →
     unseen (dom (st_preorder st)) (node_keys g) < fuel →
     (∀ p, p ∈ st_P st → reach g p node) →
     ∃ st' E', DFS fuel node st g = Returned st' g ∧
               DFS_result g E node st st' E') →
  scc_inv g st0 → st_preorder st0 !! node = None →
  unseen (dom (st_preorder (visit node st0))) (node_keys g) < fuel →
  (∀ p, p ∈ st_P st0 → reach g p node) →
  (∀ y, y ∈ ns → out_edge g node y) →
  scc_inv g st → scc_sound g E st → extends (visit node st0) st →
  ∃ st' E',
    array_forEach (DFS_neighbor fuel) ns st g = Returned st' g ∧
    scc_inv g st' ∧ scc_sound g E' st' ∧ extends (visit node st0) st' ∧
    (∀ x y, E x y → E' x y) ∧
    (∀ y, y ∈ ns → E' node y) ∧
    (∀ x y, st_preorder st !! x = None → is_Some (st_preorder st' !! x) →
            out_edge g x y → E' x y).
Proof.
  intros Hwf HDFS Hinv0 Hnone Hfuel HPRE. revert st E.
  induction ns as [|y ns IH]; intros st E Hns Hinv Hs Hext.
  { exists st, E. do 4 (split; [done|]). split; [done|].
    split; [intros y Hy; by apply elem_of_nil in Hy|].
    intros x y Hx [o Ho]. congruence. }
  assert (Hns' : ∀ y, y ∈ ns → out_edge g node y).
  { intros z Hz. apply Hns. by right. }
  assert (Hy : out_edge g node y) by (apply Hns; left).
  destruct (active_node g st0 node st Hinv0 Hnone Hext)
    as (HnodeS & Hlook & HS0 & Hactive).
  rewrite array_forEach_cons. unfold DFS_neighbor at 1.
  destruct (st_preorder st !! y) as [o|] eqn:Hyo.
  - destruct (decide (y ∈ st_assigned st)) as [Hin|Hnin].
    + rewrite ret_run.
      destruct (IH st (λ a b, E a b ∨ (a = node ∧ b = y)) Hns' Hinv)
        as (st' & E' & Hrun & Hinv' & Hs' & Hext' & HE & Hcov & Hnew); [|done|].
      { apply scc_sound_add_edge; [done|done|by eexists|]. intros _. by left. }
      exists st', E'. do 4 (split; [done|]).
      split; [intros a b Hab; apply HE; by left|].
      split; [|done].
      intros z [->|Hz]%elem_of_cons; [apply HE; by right|by apply Hcov].
    + rewrite ret_run.
      assert (HyS : y ∈ st_S st).
      { destruct (proj1 (inv_dom g st Hinv y)); [by eexists|done|done]. }
      destruct (scc_inv_pop g st o Hinv) as [Hinv1 Hext1]; [by exists y|].
      destruct (scc_sound_pop g E st node y o Hinv Hs HnodeS Hactive HyS Hyo Hy)
        as [Hs1 Hle].
      set (st1 := set_P (pop_while (st_preorder st) o (st_P st)) st) in *.
      destruct (IH st1 (λ a b, E a b ∨ (a = node ∧ b = y)) Hns' Hinv1)
        as (st' & E' & Hrun & Hinv' & Hs' & Hext' & HE & Hcov & Hnew);
        [|by eapply extends_trans|].
      { apply scc_sound_add_edge; [done|done|by eexists|]. intros _. right.
        split; [done|]. intros p Hp _. change (pre st p ≤ pre st y).
        rewrite (pre_lookup st y o Hyo). by apply Hle. }
      exists st', E'. do 4 (split; [done|]).
      split; [intros a b Hab; apply HE; by left|].
      split; [|done].
      intros z [->|Hz]%elem_of_cons; [apply HE; by right|by apply Hcov].
  - destruct (HDFS y st E Hinv Hs)
      as (st1 & E1 & Hrun1 & Hinv1 & Hs1 & Hext1 & Hlook1 & HE1 & Hnew1).
    { eapply outbound_neighbors_in_nodes; [done|exact Hy]. }
    { done. }
    { eapply Nat.le_lt_trans; [|exact Hfuel].
      apply unseen_mono, subseteq_dom. apply Hext. }
    { intros p Hp. destruct (ext_P _ _ Hext) as [k Hk]. simpl in Hk.
      assert (p ∈ node :: st_P st0) as [->|Hp0]%elem_of_cons
        by (rewrite Hk; set_solver).
      - by apply rtc_once.
      - eapply rtc_r; [by apply HPRE|done]. }
    rewrite Hrun1.
    assert (Hlook' : st_preorder st1 !! node = Some (st_count st0)).
    { eapply lookup_weaken; [exact Hlook|apply Hext1]. }
    destruct (IH st1 (λ a b, E1 a b ∨ (a = node ∧ b = y)) Hns' Hinv1)
      as (st' & E' & Hrun & Hinv' & Hs' & Hext' & HE & Hcov & Hnew);
      [|by eapply extends_trans|].
    { apply scc_sound_add_edge; [done|done|by eexists|]. intros _.
      destruct (proj1 (inv_dom g st1 Hinv1 y)) as [Ha|HyS]; [by eexists|by left|].
      right. split; [done|]. intros p Hp _.
      rewrite (pre_lookup st1 y _ Hlook1).
      assert (Hp' : p ∈ st_S st).
      { apply (inv_P_S g st Hinv). destruct (ext_P _ _ Hext1) as [k ->]. set_solver. }
      rewrite (pre_weaken st st1 p) by (apply Hext1 || by eapply S_numbered).
      pose proof (pre_lt_count g st p Hinv Hp'). lia. }
    exists st', E'. do 4 (split; [done|]).
    split; [intros a b Hab; apply HE; left; by apply HE1|].
    split; [intros z [->|Hz]%elem_of_cons; [apply HE; by right|by apply Hcov]|].
    intros a b Ha Ha' Hab.
    destruct (st_preorder st1 !! a) as [oa|] eqn:Ha1.
    + apply HE. left. apply Hnew1; [done|by eexists|done].
    + by apply Hnew.
Qed.

(** A call of [DFS] on a node not yet numbered, which every entry of [P]
    reaches, returns, keeps the graph and the invariants, numbers the
    node and examines every edge out of the nodes it numbers. *)
Lemma DFS_sound g fuel node st E :
  well_formed g → scc_inv g st → scc_sound g E st → node ∈ node_keys g →
  st_preorder st !! node = None →
  unseen (dom (st_preorder st)) (node_keys g) < fuel →
  (∀ p, p ∈ st_P st → reach g p node) →
  ∃ st' E', DFS fuel node st g = Returned st' g ∧ DFS_result g E node st st' E'.
Proof.
  intros Hwf. revert node st E.
  induction fuel as [|fuel IH];
    intros node st E Hinv Hs Hnode Hnone Hfuel HPRE; [lia|].
  rewrite DFS_unfold, bind_run, outboundNeighbors_run by done.
  assert (Hdom : dom (st_preorder (visit node st)) = {[node]} ∪ dom (st_preorder st)).
  { simpl. by rewrite dom_insert_L. }
  destruct (DFS_loop_sound g fuel node st (outbound_neighbors g node)
              (visit node st) E Hwf IH Hinv Hnone)
    as (sti & Ei & Hrun & Hi & Hsi & Hext & HE & Hcov & Hnew).
  { rewrite Hdom.
    pose proof (unseen_insert (dom (st_preorder st)) (node_keys g) node
                  (wf_NoDup_nodes g Hwf) Hnode) as Hu.
    rewrite not_elem_of_dom in Hu. specialize (Hu Hnone). lia. }
  { done. }
  { done. }
  { by apply scc_inv_visit. }
  { by apply scc_sound_visit. }
  { apply extends_refl. }
  rewrite bind_run, Hrun.
  destruct (active_node g st node sti Hinv Hnone Hext)
    as (HnodeS & Hlook & HS0 & Hactive).
  pose proof Hext as [[X HS] HP Hpre Hass Hcount Hnewo]. simpl in HS, HP, Hpre, Hass, Hcount, Hnewo.
  assert (Hpre0 : st_preorder st ⊆ st_preorder sti).
  { etrans; [|exact Hpre]. by apply insert_subseteq. }
  assert (HnP : node ∉ st_P st).
  { intros Hin. apply (inv_P_S g st Hinv) in Hin.
    destruct (S_numbered g st node Hinv Hin). congruence. }
  assert (Hnew0 : ∀ x o, st_preorder st !! x = None →
                         st_preorder sti !! x = Some o → st_count st ≤ o).
  { intros x o Hx Ho. destruct (decide (x = node)) as [->|Hne].
    - rewrite Hlook in Ho. injection Ho as <-. done.
    - assert (st_count st < o); [|lia]. apply (Hnewo x o); [|done].
      by rewrite lookup_insert_ne. }
  assert (Hcover : ∀ x y, st_preorder st !! x = None →
                          is_Some (st_preorder sti !! x) →
                          out_edge g x y → Ei x y).
  { intros x y Hx Hx' Hxy. destruct (decide (x = node)) as [->|Hne].
    - by apply Hcov.
    - apply Hnew; [simpl; by rewrite lookup_insert_ne|done|done]. }
  pose proof (inv_S_NoDup g sti Hi) as HndS. rewrite HS in HndS.
  apply NoDup_app in HndS as (_ & HXS & _).
  assert (HnX : node ∉ X). { intros Hin. apply (HXS node Hin). left. }
  destruct (decide (top_preorder (st_preorder sti) (st_P sti)
                    = st_preorder sti !! node)) as [Htop|Htop].
  - rewrite Hlook in Htop. unfold top_preorder in Htop.
    destruct (st_P sti) as [|p P''] eqn:HPi; [done|]. simpl in Htop.
    assert (p = node) as -> by (eapply (inv_inj g sti Hi); eauto).
    apply suffix_cons_inv in HP as [[= HPeq]|Hsuf];
      [|exfalso; apply HnP; destruct Hsuf as [k ->]; set_solver].
    subst P''. rewrite HS, pop_until_spec by done. rewrite ret_run.
    destruct (scc_root_pop g Ei st node sti X Hinv Hnone Hi Hsi Hext HS HPi)
      as [Hinv' Hs'].
    { intros x y [Hx|Hx]%elem_of_app Hxy.
      - destruct (above_node_new g st node sti X Hinv Hnone Hi Hext HS x Hx) as [Hxn _].
        apply Hnew; [done| |done]. apply (S_numbered g sti x Hi). rewrite HS. set_solver.
      - apply list_elem_of_singleton in Hx as ->. by apply Hcov. }
    eexists _, Ei. split; [done|].
    split; [exact Hinv'|]. split; [exact Hs'|].
    split; [|split; [exact Hlook|split; [done|exact Hcover]]].
    split; simpl; [by exists []|done|done|set_solver|lia|exact Hnew0].
  - rewrite ret_run. exists sti, Ei. split; [done|].
    split; [done|]. split; [done|].
    split; [|split; [exact Hlook|split; [done|exact Hcover]]].
    split; [exists (X ++ [node]); by rewrite HS, <- app_assoc| |done|done|lia|exact Hnew0].
    destruct (st_P sti) as [|p P''] eqn:HPi; [apply suffix_nil|].
    apply suffix_cons_inv in HP as [[= -> HPeq]|Hsuf]; [|done].
    exfalso. by apply Htop.
Qed.

(** The loop of [stronglyConnectedComponents] over the roots. *)
Lemma scc_roots_spec g vertices st E :
  well_formed g → scc_inv g st → scc_sound g E st →
  st_S st = [] → st_P st = [] →
  (∀ x, x ∈ vertices → x ∈ node_keys g) →
  ∃ st' E',
    array_forEach (λ vertex st,
        if decide (vertex ∈ st_assigned st) then mret st
        else DFS (S (graph_order g)) vertex st)
      vertices st g
    = Returned st' g ∧
    scc_inv g st' ∧ scc_sound g E' st' ∧ st_S st' = [] ∧ st_P st' = [] ∧
    st_assigned st ⊆ st_assigned st' ∧
    (∀ x, x ∈ vertices → x ∈ st_assigned st').
Proof.
  intros Hwf. revert st E.
  induction vertices as [|vertex vertices IH]; intros st E Hinv Hs HS HP Hv.
  { exists st, E. do 6 (split; [done|]). intros y Hy. by apply elem_of_nil in Hy. }
  assert (Hv' : ∀ x, x ∈ vertices → x ∈ node_keys g).
  { intros x Hx. apply Hv. by right. }
  rewrite array_forEach_cons.
  destruct (decide (vertex ∈ st_assigned st)) as [Hin|Hnin].
  - rewrite ret_run.
    destruct (IH st E Hinv Hs HS HP Hv')
      as (st' & E' & Hrun & Hinv' & Hs' & HS' & HP' & Hsub & Hall).
    exists st', E'. do 6 (split; [done|]).
    intros x [->|Hx]%elem_of_cons; [by apply Hsub|by apply Hall].
  - assert (Hnone : st_preorder st !! vertex = None).
    { apply eq_None_not_Some. intros Hsome.
      apply (inv_dom g st Hinv) in Hsome as [?|Hin]; [done|].
      rewrite HS in Hin. by apply elem_of_nil in Hin. }
    destruct (DFS_sound g (S (graph_order g)) vertex st E Hwf Hinv Hs)
      as (st1 & E1 & Hrun1 & Hinv1 & Hs1 & Hext1 & Hsome & _);
      [apply Hv; left|done| | |].
    { pose proof (unseen_length (dom (st_preorder st)) (node_keys g)).
      rewrite graph_order_keys. lia. }
    { intros p Hp. rewrite HP in Hp. by apply elem_of_nil in Hp. }
    rewrite Hrun1.
    destruct Hext1 as [[X HX] HP1 Hpre1 Hass1 _ _].
    assert (HP1' : st_P st1 = []).
    { rewrite HP in HP1. by apply suffix_nil_inv in HP1. }
    assert (HS1 : st_S st1 = []).
    { destruct (st_S st1) as [|s S1] eqn:HS1; [done|].
      destruct (inv_P_low g st1 Hinv1 s) as (p & ? & ? & Hp & _); [rewrite HS1; left|].
      rewrite HP1' in Hp. by apply elem_of_nil in Hp. }
    destruct (IH st1 E1 Hinv1 Hs1 HS1 HP1' Hv')
      as (st' & E' & Hrun & Hinv' & Hs' & HS' & HP' & Hsub & Hall).
    exists st', E'. do 5 (split; [done|]). split; [set_solver|].
    intros x [->|Hx]%elem_of_cons; [|by apply Hall].
    apply Hsub.
    destruct (proj1 (inv_dom g st1 Hinv1 vertex)) as [?|Hin]; [by eexists|done|].
    rewrite HS1 in Hin. by apply elem_of_nil in Hin.
Qed.

Lemma outbound_no_edges g v : g_edges g = [] → outbound_neighbors g v = [].
Proof.
  intros He. apply elem_of_nil_inv. intros x.
  rewrite elem_of_outbound_neighbors, He. intros (e & Hin & _).
  by apply elem_of_nil in Hin.
Qed.

Lemma reach_no_edges g x y : g_edges g = [] → reach g x y → x = y.
Proof.
  intros He Hxy. destruct Hxy as [|x y z Hxy _]; [done|].
  unfold out_edge in Hxy. rewrite outbound_no_edges in Hxy by done.
  by apply elem_of_nil in Hxy.
Qed.

(** On a graph that is not undirected, the strong component walker
    returns, leaves the graph as it is, lists every node once, and each
    component it returns is a class of mutual directed reachability. *)
Lemma stronglyConnectedComponents_spec g :
  well_formed g → type g ≠ undirected →
  ∃ comps, stronglyConnectedComponents g = Returned comps g ∧
           concat comps ≡ₚ node_keys g ∧
           (∀ c x y, c ∈ comps → x ∈ c → (y ∈ c ↔ mutual g x y)).
Proof.
  intros Hwf Hty. unfold stronglyConnectedComponents.
  rewrite bind_run, read_run.
  destruct (decide (graph_order g = 0)) as [H0|H0].
  { exists []. split; [done|].
    rewrite graph_order_keys in H0. apply nil_length_inv in H0. rewrite H0.
    split; [done|]. intros c x y Hc. by apply elem_of_nil in Hc. }
  rewrite bind_run, read_run, decide_False by done.
  rewrite bind_run, read_run, bind_run, read_run.
  destruct (decide (graph_size g = 0)) as [Hsz|Hsz].
  { rewrite array_forEach_singletons. eexists. split; [done|].
    simpl. rewrite concat_singletons. split; [done|].
    apply nil_length_inv in Hsz.
    intros c x y (n & -> & Hn)%list_elem_of_fmap Hx.
    apply list_elem_of_singleton in Hx as ->. rewrite list_elem_of_singleton.
    split; [intros ->; split; apply rtc_refl|].
    intros [Hxy _]. symmetry. by eapply reach_no_edges. }
  destruct (scc_roots_spec g (node_keys g) (mkSCC 1 [] [] ∅ ∅ []) (λ _ _, False)
              Hwf (scc_inv_init g) (scc_sound_init g))
    as (st' & E' & Hrun & Hinv & Hs & _ & _ & _ & Hall); [done|done|done|].
  rewrite bind_run, Hrun, ret_run. eexists. split; [done|]. split.
  - apply NoDup_Permutation.
    + apply (inv_comps_NoDup g st' Hinv).
    + by apply wf_NoDup_nodes.
    + intros x. rewrite (inv_comps g st' Hinv). split; [|apply Hall].
      intros Hx. apply (inv_nodes g st' Hinv), (inv_dom g st' Hinv). by left.
  - apply (snd_comps g E' st' Hs).
Qed.

(** ** Connectivity *)

Lemma connected_sym g x y : connected g x y → connected g y x.
Proof.
  induction 1 as [x|x y z Hxy _ IH]; [apply rtc_refl|].
  eapply rtc_r; [exact IH|]. by apply neighbors_sym.
Qed.

Lemma closed_connected g seen x y :
  closed g seen → x ∈ seen → connected g x y → y ∈ seen.
Proof.
  intros Hcl Hx Hxy. induction Hxy as [x|x y z Hxy _ IH]; [done|].
  apply IH. by eapply Hcl.
Qed.

Lemma components_from_all_seen g pending seen :
  (∀ x, x ∈ pending → x ∈ seen) → components_from g pending seen = [].
Proof.
  induction pending as [|node pending IH]; intros Hall; [done|].
  simpl. rewrite decide_True by (apply Hall; left).
  apply IH. intros x Hx. apply Hall. by right.
Qed.

(** A connected graph has a single weak component, which holds all its
    nodes. *)
Lemma weak_components_connected g r :
  well_formed g → r ∈ node_keys g →
  (∀ x, x ∈ node_keys g → connected g r x) →
  ∃ c, weak_components g = [c] ∧ c ≡ₚ node_keys g.
Proof.
  intros Hwf Hr Hconn. unfold weak_components.
  destruct (node_keys g) as [|v rest] eqn:Hkeys; [by apply elem_of_nil in Hr|].
  cbn [components_from]. rewrite decide_False by set_solver.
  destruct (component_of_spec g ∅ v Hwf (closed_empty g)) as (_ & Hc & _ & Hcl);
    [rewrite Hkeys; left|set_solver|].
  set (c := component_of g ∅ v) in *.
  destruct Hc as ([tl Hhd] & Hnd & Hcn & Hcc & _).
  assert (Hall : ∀ x, x ∈ v :: rest → x ∈ c).
  { intros x Hx.
    assert (connected g v x).
    { etrans; [apply connected_sym, Hconn; left|by apply Hconn]. }
    cut (x ∈ (∅ ∪ list_to_set c : gset string)); [set_solver|].
    eapply closed_connected; [exact Hcl| |done].
    rewrite Hhd. set_solver. }
  exists c. split.
  - f_equal. apply components_from_all_seen.
    intros x Hx. apply elem_of_union_r, elem_of_list_to_set, Hall. by right.
  - apply NoDup_Permutation; [done| |].
    + rewrite <- Hkeys. by apply wf_NoDup_nodes.
    + intros x. split; [|apply Hall]. rewrite <- Hkeys. apply Hcn.
Qed.

(** ** Cropping *)

Lemma filter_ext_in {T} (P Q : T → Prop) `{∀ x, Decision (P x)}
    `{∀ x, Decision (Q x)} (l : list T) :
  (∀ x, x ∈ l → (P x ↔ Q x)) → filter P l = filter Q l.
Proof.
  induction l as [|x l IH]; intros Hext; [done|].
  rewrite !filter_cons.
  assert (P x ↔ Q x) as Hx by (apply Hext; left).
  rewrite IH by (intros y Hy; apply Hext; by right).
  destruct (decide (P x)), (decide (Q x)); tauto.
Qed.

Lemma filter_all_in {T} (P : T → Prop) `{∀ x, Decision (P x)} (l : list T) :
  (∀ x, x ∈ l → P x) → filter P l = l.
Proof.
  induction l as [|x l IH]; intros Hall; [done|].
  rewrite filter_cons_True by (apply Hall; left).
  f_equal. apply IH. intros y Hy. apply Hall. by right.
Qed.

Lemma fst_filter (P : string → Prop) (Q : string * Attr → Prop)
    `{∀ x, Decision (P x)} `{∀ x, Decision (Q x)} (l : list (string * Attr)) :
  (∀ na, Q na ↔ P na.1) → (filter Q l).*1 = filter P (l.*1).
Proof.
  intros HPQ. induction l as [|[k a] l IH]; [done|].
  rewrite fmap_cons, !filter_cons. simpl.
  pose proof (HPQ (k, a)) as Hka. simpl in Hka.
  destruct (decide (Q (k, a))), (decide (P k)); simpl; try tauto;
    try f_equal; exact IH.
Qed.

Lemma node_keys_without g dropped :
  node_keys (without g dropped) = filter (λ x, x ∉ dropped) (node_keys g).
Proof. unfold node_keys. simpl. by apply fst_filter. Qed.

Lemma node_keys_restrict g keep :
  node_keys (restrict g keep) = filter (λ x, x ∈ keep) (node_keys g).
Proof. unfold node_keys. simpl. by apply fst_filter. Qed.

Lemma without_empty g : without g ∅ = g.
Proof.
  destruct g as [ty mu al ns es]. unfold without. simpl. f_equal.
  - apply filter_all_in. set_solver.
  - apply filter_all_in. set_solver.
Qed.

Lemma without_without g d1 d2 :
  without (without g d1) d2 = without g (d1 ∪ d2).
Proof.
  unfold without. simpl. f_equal.
  - rewrite list_filter_filter. apply filter_ext_in. set_solver.
  - rewrite list_filter_filter. apply filter_ext_in. set_solver.
Qed.

Lemma dropNode_run g key :
  key ∈ node_keys g → dropNode key g = Returned tt (without g {[key]}).
Proof.
  intros Hin. unfold dropNode, hasNode. rewrite bool_decide_eq_true_2 by done.
  f_equal. unfold without. f_equal; apply filter_ext_in; set_solver.
Qed.

(** The loop of [cropToLargestConnectedComponent]: the nodes outside the
    component are deleted one by one while the node map is walked. *)
Lemma crop_loop (component : gset string) pending g :
  NoDup pending → (∀ x, x ∈ pending → x ∈ node_keys g) →
  forEachNode_from (λ key _,
      if decide (key ∈ component) then mret tt else dropNode key)
    pending tt g
  = Returned tt
      (without g (list_to_set (filter (λ x, x ∉ component) pending))).
Proof.
  intros Hnd. revert g.
  induction Hnd as [|node pending Hnode Hnd IH]; intros g Hin.
  { simpl. by rewrite without_empty. }
  rewrite forEachNode_from_cons by (apply Hin; left). rewrite filter_cons.
  destruct (decide (node ∈ component)) as [Hc|Hc].
  - rewrite ret_run, decide_False by tauto.
    apply IH. intros x Hx. apply Hin. by right.
  - rewrite dropNode_run by (apply Hin; left). rewrite decide_True by done.
    rewrite IH.
    + rewrite without_without. done.
    + intros x Hx. rewrite node_keys_without, list_elem_of_filter.
      split; [set_solver|apply Hin; by right].
Qed.

Lemma without_restrict g keep :
  well_formed g →
  without g (list_to_set (filter (λ x, x ∉ keep) (node_keys g)))
  = restrict g keep.
Proof.
  intros Hwf. unfold without, restrict. f_equal.
  - apply filter_ext_in. intros [k a] Hin. simpl.
    rewrite elem_of_list_to_set, list_elem_of_filter.
    assert (k ∈ node_keys g) by (by apply (list_elem_of_fmap_2 fst _ (k, a))).
    destruct (decide (k ∈ keep)); naive_solver.
  - apply filter_ext_in. intros e He.
    destruct (wf_endpoints g e Hwf He) as [Hs Ht].
    rewrite !elem_of_list_to_set, !list_elem_of_filter.
    destruct (decide (edge_source e ∈ keep)), (decide (edge_target e ∈ keep));
      naive_solver.
Qed.

Lemma cropToLargestConnectedComponent_run g :
  well_formed g →
  cropToLargestConnectedComponent g
  = Returned tt (restrict g (list_to_set (largest_of [] (weak_components g)))).
Proof.
  intros Hwf. unfold cropToLargestConnectedComponent.
  rewrite bind_run, largestConnectedComponent_run by done.
  unfold forEachNode. rewrite bind_run, read_run.
  rewrite crop_loop; [|by apply wf_NoDup_nodes|done].
  by rewrite without_restrict.
Qed.

Lemma no_parallel_filter (P : Edge Attr → Prop) `{∀ e, Decision (P e)} l :
  no_parallel l → no_parallel (filter P l).
Proof.
  induction l as [|e l IH]; [done|]. intros [Hall Hnp].
  rewrite filter_cons. destruct (decide (P e)); [|by apply IH].
  split; [|by apply IH].
  rewrite Forall_forall in *. intros e' He'. apply Hall.
  apply list_elem_of_filter in He'. tauto.
Qed.

Lemma wf_restrict g keep : well_formed g → well_formed (restrict g keep).
Proof.
  intros (Hnd & Hek & Hall & Hmulti).
  split; [|split; [|split]].
  - rewrite node_keys_restrict. by apply NoDup_filter.
  - simpl. eapply sublist_NoDup; [exact Hek|].
    apply fmap_sublist, sublist_filter.
  - rewrite Forall_forall in *. intros e [[Hs Ht] He]%list_elem_of_filter.
    destruct (Hall e He) as (Hs' & Ht' & Hrest).
    rewrite node_keys_restrict, !list_elem_of_filter. done.
  - simpl. intros Hm. apply no_parallel_filter. by apply Hmulti.
Qed.

Lemma neighbors_restrict g (keep : gset string) x y :
  closed g keep → x ∈ keep →
  y ∈ neighbors g x → y ∈ neighbors (restrict g keep) x.
Proof.
  intros Hcl Hx Hy. pose proof (Hcl x y Hx Hy) as Hy'.
  rewrite elem_of_neighbors in *. destruct Hy as (e & He & Hxy).
  exists e. split; [|done]. simpl. rewrite list_elem_of_filter.
  split; [|done]. naive_solver.
Qed.

Lemma connected_restrict g (keep : gset string) x y :
  closed g keep → x ∈ keep →
  connected g x y → connected (restrict g keep) x y.
Proof.
  intros Hcl Hx Hxy. induction Hxy as [x|x y z Hxy _ IH]; [apply rtc_refl|].
  eapply rtc_l; [by apply neighbors_restrict|].
  apply IH. by eapply Hcl.
Qed.

(** The list returned by [largestConnectedComponent]: empty on the null
    graph, otherwise the first of the longest weak components. *)
Lemma largest_of_weak_components g :
  well_formed g →
  (node_keys g = [] ∧ largest_of [] (weak_components g) = []) ∨
  (node_keys g ≠ [] ∧
   (∃ node, weak_component g node (largest_of [] (weak_components g))) ∧
   ∃ l1 l2, weak_components g = l1 ++ largest_of [] (weak_components g) :: l2 ∧
            (∀ c, c ∈ l1 → length c < length (largest_of [] (weak_components g))) ∧
            (∀ c, c ∈ l2 → length c ≤ length (largest_of [] (weak_components g)))).
Proof.
  intros Hwf. unfold weak_components.
  destruct (node_keys g) as [|v rest] eqn:Hkeys; [by left|right].
  split; [done|]. rewrite <- Hkeys.
  destruct (components_from_spec g (node_keys g) ∅ Hwf (closed_empty g))
    as (_ & _ & Hcov & Hall & _); [done|].
  rewrite Forall_forall in Hall.
  destruct (largest_of_first_max [] (components_from g (node_keys g) ∅))
    as [[Heq Hsmall]|(l1 & l2 & Hsplit & _ & H1 & H2)].
  - exfalso. destruct (Hcov v) as [Hv|Hv]; [rewrite Hkeys; left|set_solver|].
    apply elem_of_concat in Hv as (c & _ & Hc).
    destruct (Hall c Hc) as (node & [rest' ->] & _).
    specialize (Hsmall _ Hc). simpl in Hsmall. lia.
  - split; [|by exists l1, l2].
    apply Hall. rewrite Hsplit at 2. set_solver.
Qed.

Lemma largest_closed g :
  well_formed g →
  NoDup (largest_of [] (weak_components g)) ∧
  (∀ x, x ∈ largest_of [] (weak_components g) → x ∈ node_keys g) ∧
  (∀ x y, x ∈ largest_of [] (weak_components g) → y ∈ neighbors g x →
          y ∈ largest_of [] (weak_components g)).
Proof.
  intros Hwf.
  destruct (largest_of_weak_components g Hwf)
    as [[_ ->]|(_ & (node & _ & Hnd & Hn & Hcl & _) & _)].
  - split; [constructor|]. split; intros x; [|intros y]; intros Hx;
      by apply elem_of_nil in Hx.
  - done.
Qed.

(** Once cropped, a graph with at least one node is connected. *)
Lemma crop_single_component g :
  well_formed g → node_keys g ≠ [] →
  node_keys (restrict g (list_to_set (largest_of [] (weak_components g))))
    ≡ₚ largest_of [] (weak_components g) ∧
  ∃ c, weak_components (restrict g (list_to_set (largest_of [] (weak_components g))))
       = [c] ∧
       c ≡ₚ node_keys (restrict g (list_to_set (largest_of [] (weak_components g)))).
Proof.
  intros Hwf Hne.
  destruct (largest_of_weak_components g Hwf)
    as [[? _]|(_ & (r & Hhd & Hnd & Hn & Hcl & Hconn) & _)]; [done|].
  set (L := largest_of [] (weak_components g)) in *.
  assert (Hkeys : ∀ x, x ∈ node_keys (restrict g (list_to_set L)) ↔ x ∈ L).
  { intros x. rewrite node_keys_restrict, list_elem_of_filter, elem_of_list_to_set.
    split; [tauto|]. intros Hx. split; [done|by apply Hn]. }
  assert (HclL : closed g (list_to_set L)).
  { intros x y Hx Hy. rewrite elem_of_list_to_set in *. by eapply Hcl. }
  assert (Hr : r ∈ L) by (destruct Hhd as [rest ->]; left).
  split.
  - apply NoDup_Permutation; [|done|done].
    rewrite node_keys_restrict. apply NoDup_filter. by apply wf_NoDup_nodes.
  - apply (weak_components_connected _ r).
    + by apply wf_restrict.
    + by apply Hkeys.
    + intros x Hx. apply connected_restrict; [done|by apply elem_of_list_to_set|].
      apply Hconn. by apply Hkeys.
Qed.

(** ** Subgraph extraction *)

Lemma getNodeAttributes_run g key :
  key ∈ node_keys g →
  ∃ attr, getNodeAttributes key g = Returned attr g ∧ (key, attr) ∈ g_nodes g.
Proof.
  intros Hin. unfold getNodeAttributes.
  destruct (list_find (λ na, na.1 = key) (g_nodes g)) as [[i [k a]]|] eqn:Hfind.
  - apply list_find_Some in Hfind as (Hi & Hk & _). simpl in Hk. subst k.
    exists a. split; [done|]. by eapply list_elem_of_lookup_2.
  - exfalso. apply list_elem_of_fmap in Hin as ([k a] & -> & Hin).
    destruct (list_find_elem_of (λ na, na.1 = k) (g_nodes g) (k, a) Hin eq_refl)
      as [? Hsome].
    simpl in Hfind. congruence.
Qed.

Lemma copyNode_fresh (sub : Graph Attr) key attr :
  key ∉ node_keys sub →
  copyNode sub key attr
  = inr (mkGraph (type sub) (multi sub) (allowSelfLoops sub)
                 (g_nodes sub ++ [(key, attr)]) (g_edges sub)).
Proof.
  intros Hk. unfold copyNode, hasNode. by rewrite bool_decide_eq_false_2.
Qed.

(** The [component.forEach] loop copies the nodes of the component, in
    order, each with the attributes it has in the source graph. *)
Lemma copy_nodes_loop g keys sub :
  NoDup keys →
  (∀ k, k ∈ keys → k ∈ node_keys g ∧ (k ∉ node_keys sub)) →
  ∃ entries,
    array_forEach (λ key sub,
        attr ← getNodeAttributes key; try_ (copyNode sub key attr))
      keys sub g
    = Returned (mkGraph (type sub) (multi sub) (allowSelfLoops sub)
                        (g_nodes sub ++ entries) (g_edges sub)) g ∧
    entries.*1 = keys ∧
    (∀ na, na ∈ entries → na ∈ g_nodes g).
Proof.
  intros Hnd. revert sub.
  induction Hnd as [|key keys Hkey Hnd IH]; intros sub Hk.
  { exists []. rewrite app_nil_r. split; [by destruct sub|].
    split; [done|]. intros na Hna. by apply elem_of_nil in Hna. }
  destruct (Hk key) as [Hkg Hks]; [left|].
  destruct (getNodeAttributes_run g key Hkg) as (attr & Hattr & Hentry).
  rewrite array_forEach_cons, bind_run, Hattr.
  rewrite copyNode_fresh by done. cbn [try_]. rewrite ret_run.
  destruct (IH (mkGraph (type sub) (multi sub) (allowSelfLoops sub)
                        (g_nodes sub ++ [(key, attr)]) (g_edges sub)))
    as (entries & Hrun & Hfst & Hin).
  { intros k Hkin. destruct (Hk k) as [Hkg' Hks']; [by right|].
    split; [done|]. unfold node_keys in *. simpl.
    rewrite fmap_app, elem_of_app. simpl.
    intros [?|Heq%list_elem_of_singleton]; [done|]. by subst. }
  exists ((key, attr) :: entries). rewrite Hrun. simpl.
  split; [by rewrite <- app_assoc|].
  split; [simpl; by f_equal|].
  intros na [->|Hna]%elem_of_cons; [done|by apply Hin].
Qed.

Lemma parallel_sym (e e' : Edge Attr) : parallel e e' → parallel e' e.
Proof.
  unfold parallel, same_slot.
  intros (Hu & [[Hs Ht]|(Hu' & Hs & Ht)]); split; try done; [by left|].
  right. split; [congruence|done].
Qed.

Lemma no_parallel_app_elt (l1 l2 : list (Edge Attr)) e :
  no_parallel (l1 ++ e :: l2) → ∀ e', e' ∈ l1 → ¬ parallel e' e.
Proof.
  induction l1 as [|x l1 IH]; intros Hnp e' He'; [by apply elem_of_nil in He'|].
  destruct Hnp as [Hall Hnp].
  apply elem_of_cons in He' as [->|He']; [|by apply IH].
  rewrite Forall_forall in Hall. apply Hall. set_solver.
Qed.

Lemma edge_eta (e : Edge Attr) :
  mkEdge (edge_key e) (edge_source e) (edge_target e) (edge_undirected e)
         (edge_attributes e) = e.
Proof. by destruct e. Qed.

(** An edge of a well-formed graph can be added to a graph of the same
    kind that holds both its endpoints and only edges inserted before
    it. *)
Lemma copyEdge_accepted g processed e pending (sub : Graph Attr) :
  well_formed g →
  g_edges g = processed ++ e :: pending →
  type sub = type g → multi sub = multi g →
  allowSelfLoops sub = allowSelfLoops g →
  edge_source e ∈ node_keys sub → edge_target e ∈ node_keys sub →
  (∀ e', e' ∈ g_edges sub → e' ∈ processed) →
  copyEdge sub (edge_undirected e) (edge_key e) (edge_source e)
           (edge_target e) (edge_attributes e)
  = inr (mkGraph (type sub) (multi sub) (allowSelfLoops sub) (g_nodes sub)
                 (g_edges sub ++ [e])).
Proof.
  intros (Hnd & Hek & Hall & Hmulti) Hsplit Hty Hmu Hal Hsrc Htgt Hsub.
  assert (He : e ∈ g_edges g) by (rewrite Hsplit; set_solver).
  rewrite Forall_forall in Hall.
  destruct (Hall e He) as (Hs & Ht & Hdir & Hund & Hloop).
  unfold copyEdge, hasNode. rewrite Hty, Hmu, Hal.
  rewrite decide_False by (intros [Hu Hty']; by apply Hdir).
  rewrite decide_False by (intros [Hu Hty']; by apply Hund).
  rewrite decide_False by (intros [Hl Heq]; by apply Hloop).
  rewrite !bool_decide_eq_true_2 by done. cbn [negb].
  rewrite decide_False.
  2:{ rewrite Hsplit, fmap_app in Hek.
      apply NoDup_app in Hek as (_ & Hfresh & _).
      intros Hin. apply (Hfresh (edge_key e)); [|left].
      apply list_elem_of_fmap in Hin as (e' & Hkey & He').
      apply list_elem_of_fmap. exists e'. split; [done|by apply Hsub]. }
  rewrite decide_False.
  2:{ intros [Hm (e' & He' & Hslot)%Exists_exists].
      specialize (Hmulti Hm). rewrite Hsplit in Hmulti.
      eapply no_parallel_app_elt; [exact Hmulti|by apply Hsub|].
      by apply parallel_sym. }
  by rewrite edge_eta.
Qed.

(** The [graph.forEachEdge] loop copies, in order, the edges whose source
    is in the component; none of the insertions is refused. *)
Lemma copy_edges_loop g (component : list string) processed pending sub :
  well_formed g →
  g_edges g = processed ++ pending →
  type sub = type g → multi sub = multi g →
  allowSelfLoops sub = allowSelfLoops g →
  node_keys sub = component →
  (∀ x y, x ∈ component → y ∈ neighbors g x → y ∈ component) →
  g_edges sub = filter (λ e, edge_source e ∈ component) processed →
  array_forEach (λ e sub,
      if hasNode sub (edge_source e)
      then try_ (copyEdge sub (edge_undirected e) (edge_key e)
                   (edge_source e) (edge_target e) (edge_attributes e))
      else mret sub)
    pending sub g
  = Returned (mkGraph (type sub) (multi sub) (allowSelfLoops sub) (g_nodes sub)
                (filter (λ e, edge_source e ∈ component) (g_edges g))) g.
Proof.
  intros Hwf. revert processed sub.
  induction pending as [|e pending IH];
    intros processed sub Hsplit Hty Hmu Hal Hkeys Hcl Hedges.
  { rewrite app_nil_r in Hsplit. rewrite Hsplit, <- Hedges. by destruct sub. }
  assert (He : e ∈ g_edges g) by (rewrite Hsplit; set_solver).
  assert (Hsplit' : g_edges g = (processed ++ [e]) ++ pending)
    by (by rewrite <- app_assoc).
  rewrite array_forEach_cons. unfold hasNode at 1. rewrite Hkeys.
  destruct (decide (edge_source e ∈ component)) as [Hsrc|Hsrc].
  - rewrite bool_decide_eq_true_2 by done.
    assert (Htgt : edge_target e ∈ component).
    { apply (Hcl (edge_source e)); [done|].
      apply elem_of_neighbors. exists e. split; [done|by left]. }
    rewrite (copyEdge_accepted g processed e pending sub); try done;
      [|by rewrite Hkeys|by rewrite Hkeys
       |intros e' He'; rewrite Hedges in He';
        apply list_elem_of_filter in He'; tauto].
    cbn [try_]. rewrite ret_run.
    rewrite (IH (processed ++ [e])); try done.
    simpl. rewrite filter_app, Hedges, filter_cons_True by done. done.
  - rewrite bool_decide_eq_false_2 by done. rewrite ret_run.
    rewrite (IH (processed ++ [e])); try done.
    rewrite filter_app, Hedges, filter_cons_False by done.
    by rewrite app_nil_r.
Qed.

Lemma largestConnectedComponentSubgraph_run g :
  well_formed g →
  ∃ entries,
    largestConnectedComponentSubgraph g
    = Returned (mkGraph (type g) (multi g) (allowSelfLoops g) entries
                  (filter (λ e, edge_source e ∈ largest_of [] (weak_components g))
                          (g_edges g))) g ∧
    entries.*1 = largest_of [] (weak_components g) ∧
    (∀ na, na ∈ entries → na ∈ g_nodes g).
Proof.
  intros Hwf. unfold largestConnectedComponentSubgraph.
  rewrite bind_run, largestConnectedComponent_run by done.
  rewrite bind_run, read_run.
  destruct (largest_closed g Hwf) as (Hnd & Hn & Hcl).
  destruct (copy_nodes_loop g (largest_of [] (weak_components g)) (nullCopy g) Hnd)
    as (entries & Hrun & Hfst & Hin).
  { intros k Hk. split; [by apply Hn|]. unfold node_keys. simpl.
    by intros ?%elem_of_nil. }
  rewrite bind_run, Hrun. simpl.
  unfold forEachEdge. rewrite bind_run, bind_run, read_run.
  rewrite (copy_edges_loop g (largest_of [] (weak_components g)) []); try done.
  exists entries. by rewrite ret_run.
Qed.

(** ** Graphs without edges *)

Lemma neighbors_no_edges g v : g_edges g = [] → neighbors g v = [].
Proof.
  intros He. apply elem_of_nil_inv. intros x.
  rewrite elem_of_neighbors, He. intros (e & Hin & _). by apply elem_of_nil in Hin.
Qed.

Lemma components_from_no_edges g pending seen :
  well_formed g → g_edges g = [] → closed g seen → NoDup pending →
  (∀ x, x ∈ pending → x ∈ node_keys g) →
  components_from g pending seen
  = (λ n, [n]) <$> filter (λ x, x ∉ seen) pending.
Proof.
  intros Hwf He Hcl Hnd. revert seen Hcl.
  induction Hnd as [|node pending Hnode Hnd IH]; intros seen Hcl Hin; [done|].
  cbn [components_from]. rewrite filter_cons.
  assert (Hin' : ∀ x, x ∈ pending → x ∈ node_keys g).
  { intros x Hx. apply Hin. by right. }
  destruct (decide (node ∈ seen)) as [Hs|Hs].
  - rewrite decide_False by tauto. by apply IH.
  - rewrite decide_True by done.
    destruct (component_of_spec g seen node Hwf Hcl) as (_ & Hc & _ & Hcl1);
      [apply Hin; left|done|].
    destruct Hc as ([rest Hhd] & Hndc & _ & _ & Hconn).
    assert (Hc : component_of g seen node = [node]).
    { rewrite Hhd in *. f_equal. destruct rest as [|x rest]; [done|exfalso].
      assert (Hx : connected g node x) by (apply Hconn; set_solver).
      inversion Hx as [|? y ? Hstep _]; subst.
      - apply NoDup_cons in Hndc as [Hnin _]. apply Hnin. left.
      - unfold adjacent in Hstep. rewrite neighbors_no_edges in Hstep by done.
        by apply elem_of_nil in Hstep. }
    rewrite Hc in *. rewrite fmap_cons. f_equal.
    rewrite IH by done. f_equal.
    apply filter_ext_in. intros x Hx. set_solver.
Qed.

Lemma foldl_callback_length {U} (callback : nat → U → U) comps u :
  foldl (flip (λ component : list string, callback (length component))) u comps
  = foldl (flip callback) u (length <$> comps).
Proof.
  revert u. induction comps as [|c comps IH]; intros u; [done|]. apply IH.
Qed.

(** * The stated properties *)

(** C1. Partition property.  On a well-formed graph the components emitted
    by [forEachConnectedComponent] are weak components and list every node
    of the graph exactly once; the components returned by
    [stronglyConnectedComponents], when the graph is not undirected, list
    every node of the graph exactly once too. *)
Theorem components_partition g :
  well_formed g →
  (∃ comps,
     (∀ U (callback : list string → U → U) u,
        forEachConnectedComponent callback u g
        = Returned (foldl (flip callback) u comps) g) ∧
     connectedComponents g = Returned comps g ∧
     Forall (λ c, ∃ node, weak_component g node c) comps ∧
     NoDup (concat comps) ∧ concat comps ≡ₚ node_keys g) ∧
  (type g ≠ undirected →
   ∃ comps, stronglyConnectedComponents g = Returned comps g ∧
            NoDup (concat comps) ∧ concat comps ≡ₚ node_keys g).
Proof.
  intros Hwf. split.
  - exists (weak_components g).
    split; [intros; by apply forEachConnectedComponent_run|].
    split; [by apply connectedComponents_run|].
    destruct (components_from_spec g (node_keys g) ∅ Hwf (closed_empty g))
      as (Hnd & Hnew & Hcov & Hall & _); [done|].
    split; [done|]. split; [done|].
    apply NoDup_Permutation; [done|by apply wf_NoDup_nodes|].
    intros x. split; [apply Hnew|]. intros Hx.
    destruct (Hcov x Hx); [set_solver|done].
  - intros Hty.
    destruct (stronglyConnectedComponents_spec g Hwf Hty) as (comps & Hrun & Hperm & _).
    exists comps. split; [done|]. split; [|done].
    rewrite Hperm. by apply wf_NoDup_nodes.
Qed.

(** C2. Largest component.  On a well-formed graph with at least one node,
    [largestConnectedComponent] returns one of the weak components that
    [connectedComponents] enumerates; every component enumerated before it
    is strictly shorter and every component enumerated after it is not
    longer; and the early exit gives the same result as the traversal of
    every component. *)
Theorem largest_component_first_max g :
  well_formed g → node_keys g ≠ [] →
  ∃ comps largest l1 l2,
    connectedComponents g = Returned comps g ∧
    largestConnectedComponent g = Returned largest g ∧
    (∃ node, weak_component g node largest) ∧
    comps = l1 ++ largest :: l2 ∧
    (∀ c, c ∈ l1 → length c < length largest) ∧
    (∀ c, c ∈ l2 → length c ≤ length largest) ∧
    largest_by_full_traversal g = Returned largest g.
Proof.
  intros Hwf Hne.
  destruct (largest_of_weak_components g Hwf)
    as [[? _]|(_ & Hweak & l1 & l2 & Hsplit & H1 & H2)]; [done|].
  exists (weak_components g), (largest_of [] (weak_components g)), l1, l2.
  split; [by apply connectedComponents_run|].
  split; [by apply largestConnectedComponent_run|].
  split; [done|]. split; [done|]. split; [done|]. split; [done|].
  by apply largest_by_full_traversal_run.
Qed.

(** C3, as amended.  On a graph classified undirected,
    [stronglyConnectedComponents] raises the wrong-directionality error,
    without any result, when the graph has at least one node; on the
    undirected graph with zero nodes the emptiness test comes first and
    the empty list is returned. *)
Theorem scc_undirected g :
  type g = undirected →
  (node_keys g ≠ [] → stronglyConnectedComponents g = Thrown UndirectedGraph g) ∧
  (node_keys g = [] → stronglyConnectedComponents g = Returned [] g).
Proof.
  intros Hty. unfold stronglyConnectedComponents.
  rewrite bind_run, read_run, graph_order_keys. split; intros Hn.
  - rewrite decide_False by (by intros ?%nil_length_inv).
    rewrite bind_run, read_run. by rewrite decide_True.
  - rewrite decide_True by (by rewrite Hn). done.
Qed.

(** C5. Subgraph extraction.  On a well-formed graph the copy succeeds;
    its nodes are those of the largest weak component, in order; it holds
    the edges of the source whose source endpoint is in the component,
    and both endpoints of each are nodes of the copy; every node entry
    and every edge of the copy is an entry of the source graph, with the
    same attributes.  When the graph has at least one node, the nodes of
    the copy are a weak component of the graph, one of those that
    [connectedComponents] enumerates, every component enumerated before it
    being strictly shorter and every component enumerated after it not
    longer; when the graph has no node, neither has the copy. *)
Theorem largest_subgraph g :
  well_formed g →
  ∃ largest sub,
    largestConnectedComponent g = Returned largest g ∧
    largestConnectedComponentSubgraph g = Returned sub g ∧
    node_keys sub = largest ∧
    g_edges sub = filter (λ e, edge_source e ∈ largest) (g_edges g) ∧
    (∀ e, e ∈ g_edges sub →
          edge_source e ∈ node_keys sub ∧ edge_target e ∈ node_keys sub) ∧
    (∀ na, na ∈ g_nodes sub → na ∈ g_nodes g) ∧
    (∀ e, e ∈ g_edges sub → e ∈ g_edges g) ∧
    (node_keys g = [] → node_keys sub = []) ∧
    (node_keys g ≠ [] →
     (∃ node, weak_component g node (node_keys sub)) ∧
     ∃ comps l1 l2,
       connectedComponents g = Returned comps g ∧
       comps = l1 ++ node_keys sub :: l2 ∧
       (∀ c, c ∈ l1 → length c < length (node_keys sub)) ∧
       (∀ c, c ∈ l2 → length c ≤ length (node_keys sub))).
Proof.
  intros Hwf.
  destruct (largestConnectedComponentSubgraph_run g Hwf)
    as (entries & Hrun & Hfst & Hin).
  destruct (largest_closed g Hwf) as (_ & _ & Hcl).
  set (largest := largest_of [] (weak_components g)) in *.
  set (sub := mkGraph (type g) (multi g) (allowSelfLoops g) entries
                (filter (λ e, edge_source e ∈ largest) (g_edges g))) in *.
  assert (Hkeys : node_keys sub = largest) by exact Hfst.
  exists largest, sub. rewrite Hkeys.
  split; [by apply largestConnectedComponent_run|].
  split; [exact Hrun|]. split; [done|]. split; [done|].
  split; [|split; [exact Hin|split; [|split]]].
  - intros e [Hsrc He]%list_elem_of_filter. split; [done|].
    apply (Hcl (edge_source e)); [done|].
    apply elem_of_neighbors. exists e. split; [done|by left].
  - intros e He. apply list_elem_of_filter in He. tauto.
  - intros Hnull.
    by destruct (largest_of_weak_components g Hwf) as [[_ Hl]|[Hne _]].
  - intros Hne.
    destruct (largest_of_weak_components g Hwf)
      as [[? _]|(_ & Hweak & l1 & l2 & Hsplit & H1 & H2)]; [done|].
    split; [done|]. exists (weak_components g), l1, l2.
    split; [by apply connectedComponents_run|]. done.
Qed.

(** C6, as amended.  On a well-formed graph,
    [cropToLargestConnectedComponent] leaves a graph whose nodes are those
    of the largest weak component.  If the graph had at least one node,
    enumerating the weak components of the cropped graph yields exactly
    one component, which holds all the remaining nodes; on the null graph
    the enumeration yields no component.  If the graph had at least one
    node, the component kept is a weak component of the graph, one of
    those that [connectedComponents] enumerates, every component
    enumerated before it being strictly shorter and every component
    enumerated after it not longer. *)
Theorem crop_to_largest g :
  well_formed g →
  ∃ largest g',
    largestConnectedComponent g = Returned largest g ∧
    cropToLargestConnectedComponent g = Returned tt g' ∧
    node_keys g' ≡ₚ largest ∧
    (node_keys g ≠ [] →
     ∃ c, connectedComponents g' = Returned [c] g' ∧ c ≡ₚ node_keys g') ∧
    (node_keys g = [] → connectedComponents g' = Returned [] g') ∧
    (node_keys g ≠ [] →
     (∃ node, weak_component g node largest) ∧
     ∃ comps l1 l2,
       connectedComponents g = Returned comps g ∧
       comps = l1 ++ largest :: l2 ∧
       (∀ c, c ∈ l1 → length c < length largest) ∧
       (∀ c, c ∈ l2 → length c ≤ length largest)).
Proof.
  intros Hwf.
  set (L := largest_of [] (weak_components g)).
  exists L, (restrict g (list_to_set L)).
  split; [by apply largestConnectedComponent_run|].
  split; [by apply cropToLargestConnectedComponent_run|].
  pose proof (wf_restrict g (list_to_set L) Hwf) as Hwf'.
  rewrite (connectedComponents_run _ Hwf').
  destruct (largest_closed g Hwf) as (Hnd & Hn & _). fold L in Hnd, Hn.
  split; [|split; [|split]].
  - apply NoDup_Permutation; [|done|].
    + rewrite node_keys_restrict. apply NoDup_filter. by apply wf_NoDup_nodes.
    + intros x. rewrite node_keys_restrict, list_elem_of_filter, elem_of_list_to_set.
      split; [tauto|]. intros Hx. split; [done|by apply Hn].
  - intros Hne. destruct (crop_single_component g Hwf Hne) as (_ & c & Hc & Hperm).
    exists c. fold L in Hc, Hperm. by rewrite Hc.
  - intros Hnil. unfold weak_components.
    rewrite node_keys_restrict, Hnil. done.
  - intros Hne.
    destruct (largest_of_weak_components g Hwf)
      as [[? _]|(_ & Hweak & l1 & l2 & Hsplit & H1 & H2)]; [done|].
    fold L in Hweak, Hsplit, H1, H2.
    split; [done|]. exists (weak_components g), l1, l2.
    split; [by apply connectedComponents_run|]. done.
Qed.

(** C7. Graphs without edges.  On a well-formed graph with at least one
    node and no edge, the weak components are the singletons of the nodes
    in enumeration order, and so are the strong components when the graph
    is not undirected. *)
Theorem no_edges_singletons g :
  well_formed g → node_keys g ≠ [] → g_edges g = [] →
  connectedComponents g = Returned ((λ n, [n]) <$> node_keys g) g ∧
  (type g ≠ undirected →
   stronglyConnectedComponents g = Returned ((λ n, [n]) <$> node_keys g) g).
Proof.
  intros Hwf Hne He. split.
  - rewrite connectedComponents_run by done. f_equal. unfold weak_components.
    rewrite (components_from_no_edges g (node_keys g) ∅ Hwf He (closed_empty g));
      [|by apply wf_NoDup_nodes|done].
    f_equal. apply filter_all_in. set_solver.
  - intros Hty. unfold stronglyConnectedComponents.
    rewrite bind_run, read_run, graph_order_keys.
    rewrite decide_False by (by intros ?%nil_length_inv).
    rewrite bind_run, read_run, decide_False by done.
    rewrite bind_run, read_run, bind_run, read_run.
    unfold graph_size. rewrite He. simpl.
    by rewrite array_forEach_singletons.
Qed.

(** C8. Size-only variant.  [forEachConnectedComponentOrder] calls its
    callback exactly as [forEachConnectedComponent] calls a callback that
    only looks at the length of the component; on a well-formed graph the
    sizes it reports are, in order, the lengths of the components that
    [connectedComponents] returns. *)
Theorem order_variant_refines g :
  well_formed g →
  (∀ U (callback : nat → U → U) u,
     forEachConnectedComponentOrder callback u g
     = forEachConnectedComponent (λ component, callback (length component)) u g) ∧
  ∃ comps,
    connectedComponents g = Returned comps g ∧
    forEachConnectedComponentOrder (λ order orders, orders ++ [order]) [] g
    = Returned (length <$> comps) g.
Proof.
  intros Hwf. split; [intros; apply forEachConnectedComponentOrder_eq|].
  exists (weak_components g). split; [by apply connectedComponents_run|].
  rewrite forEachConnectedComponentOrder_eq, forEachConnectedComponent_run by done.
  f_equal.
  pose proof (foldl_callback_length (λ order orders, orders ++ [order])
                (weak_components g) []) as Hfold.
  rewrite foldl_snoc in Hfold. exact Hfold.
Qed.

(** C9. Frame property.  On a well-formed graph, each of
    [forEachConnectedComponent], [forEachConnectedComponentOrder],
    [connectedComponents] and [largestConnectedComponent] returns with the
    graph object equal to what it was before the call: same nodes, same
    edges, same attributes. *)
Theorem traversals_leave_graph_unchanged g :
  well_formed g →
  (∀ U (callback : list string → U → U) u,
     ∃ r, forEachConnectedComponent callback u g = Returned r g) ∧
  (∀ U (callback : nat → U → U) u,
     ∃ r, forEachConnectedComponentOrder callback u g = Returned r g) ∧
  (∃ r, connectedComponents g = Returned r g) ∧
  (∃ r, largestConnectedComponent g = Returned r g).
Proof.
  intros Hwf. split; [|split; [|split]].
  - intros. eexists. by apply forEachConnectedComponent_run.
  - intros. eexists.
    rewrite forEachConnectedComponentOrder_eq. by apply forEachConnectedComponent_run.
  - eexists. by apply connectedComponents_run.
  - eexists. by apply largestConnectedComponent_run.
Qed.

(** C10. Null graph.  On a graph with zero nodes
    [largestConnectedComponent] returns the empty list. *)
Theorem largest_of_null_graph g :
  node_keys g = [] → largestConnectedComponent g = Returned [] g.
Proof.
  intros Hnil. unfold largestConnectedComponent.
  rewrite bind_run, read_run, graph_order_keys, Hnil. done.
Qed.

End Properties.

(** C4. Strong components respect direction.  On every well-formed graph
    that is not undirected, two nodes are in the same component returned
    by [stronglyConnectedComponents] exactly when each reaches the other
    along outbound edges.  In particular the directed cycle is one strong
    component and the directed path is three singletons, while the weak
    component walker finds a single component {A, B, C} in both, on the
    directed graphs as on the undirected graphs with the same edges. *)
Theorem scc_respects_direction :
  (∀ Attr (g : Graph Attr),
     well_formed g → type g ≠ undirected →
     ∃ comps, stronglyConnectedComponents g = Returned comps g ∧
              ∀ c x y, c ∈ comps → x ∈ c → (y ∈ c ↔ mutual g x y)) ∧
  stronglyConnectedComponents cycle_graph
  = Returned [["C"; "B"; "A"]]%string cycle_graph ∧
  stronglyConnectedComponents path_graph
  = Returned [["C"]; ["B"]; ["A"]]%string path_graph ∧
  connectedComponents cycle_graph
  = Returned [["A"; "B"; "C"]]%string cycle_graph ∧
  connectedComponents path_graph
  = Returned [["A"; "B"; "C"]]%string path_graph ∧
  connectedComponents cycle_undirected
  = Returned [["A"; "C"; "B"]]%string cycle_undirected ∧
  connectedComponents path_undirected
  = Returned [["A"; "B"; "C"]]%string path_undirected.
Proof.
  split.
  - intros Attr g Hwf Hty.
    destruct (stronglyConnectedComponents_spec g Hwf Hty)
      as (comps & Hrun & _ & Hclass).
    by exists comps.
  - repeat split; vm_compute; reflexivity.
Qed.

(** C3, as stated, fails on the undirected graph with zero nodes: the call
    returns the empty list instead of raising. *)
Lemma scc_null_undirected_returns :
  type null_undirected = undirected ∧
  stronglyConnectedComponents null_undirected = Returned [] null_undirected ∧
  ¬ ∃ g', stronglyConnectedComponents null_undirected
          = Thrown UndirectedGraph g'.
Proof.
  split; [reflexivity|]. split; [reflexivity|].
  intros [g' Hthrown]. vm_compute in Hthrown. discriminate Hthrown.
Qed.

(** C6, as stated, fails on the null graph: once cropped it is still the
    null graph, whose enumeration yields no component rather than one. *)
Lemma crop_null_graph_no_component :
  well_formed null_graph ∧
  cropToLargestConnectedComponent null_graph = Returned tt null_graph ∧
  connectedComponents null_graph = Returned [] null_graph ∧
  ¬ ∃ c, connectedComponents null_graph = Returned [c] null_graph.
Proof.
  split; [well_formed_by_computation|].
  split; [reflexivity|]. split; [reflexivity|].
  intros [c Hone]. vm_compute in Hone. discriminate Hone.
Qed.

(** ** Instances of the properties on the concrete graphs *)

Lemma components_partition_witness :
  well_formed two_strong_components ∧
  type two_strong_components ≠ undirected ∧
  (∃ comps,
     (∀ U (callback : list string → U → U) u,
        forEachConnectedComponent callback u two_strong_components
        = Returned (foldl (flip callback) u comps) two_strong_components) ∧
     connectedComponents two_strong_components
     = Returned comps two_strong_components ∧
     Forall (λ c, ∃ node, weak_component two_strong_components node c) comps ∧
     NoDup (concat comps) ∧
     concat comps ≡ₚ node_keys two_strong_components) ∧
  (∃ comps,
     stronglyConnectedComponents two_strong_components
     = Returned comps two_strong_components ∧
     NoDup (concat comps) ∧
     concat comps ≡ₚ node_keys two_strong_components).
Proof.
  assert (Hwf : well_formed two_strong_components)
    by well_formed_by_computation.
  split; [exact Hwf|]. split; [discriminate|].
  destruct (components_partition two_strong_components Hwf) as [Hweak Hstrong].
  split; [exact Hweak|]. apply Hstrong. discriminate.
Defined.

Lemma largest_component_first_max_witness :
  well_formed two_components ∧ node_keys two_components ≠ [] ∧
  ∃ comps largest l1 l2,
    connectedComponents two_components = Returned comps two_components ∧
    largestConnectedComponent two_components = Returned largest two_components ∧
    (∃ node, weak_component two_components node largest) ∧
    comps = l1 ++ largest :: l2 ∧
    (∀ c, c ∈ l1 → length c < length largest) ∧
    (∀ c, c ∈ l2 → length c ≤ length largest) ∧
    largest_by_full_traversal two_components = Returned largest two_components.
Proof.
  assert (Hwf : well_formed two_components) by well_formed_by_computation.
  split; [exact Hwf|]. split; [discriminate|].
  apply (largest_component_first_max two_components Hwf). discriminate.
Defined.

Lemma scc_undirected_witness :
  type single_undirected = undirected ∧
  node_keys single_undirected ≠ [] ∧
  stronglyConnectedComponents single_undirected
  = Thrown UndirectedGraph single_undirected.
Proof.
  split; [reflexivity|]. split; [discriminate|].
  apply (scc_undirected single_undirected eq_refl). discriminate.
Defined.

Lemma scc_respects_direction_witness :
  well_formed two_strong_components ∧
  type two_strong_components ≠ undirected ∧
  ∃ comps,
    stronglyConnectedComponents two_strong_components
    = Returned comps two_strong_components ∧
    ∀ c x y, c ∈ comps → x ∈ c →
             (y ∈ c ↔ mutual two_strong_components x y).
Proof.
  assert (Hwf : well_formed two_strong_components)
    by well_formed_by_computation.
  split; [exact Hwf|]. split; [discriminate|].
  apply (proj1 scc_respects_direction string two_strong_components Hwf).
  discriminate.
Defined.

Lemma largest_subgraph_witness :
  well_formed two_components ∧ node_keys two_components ≠ [] ∧
  ∃ largest sub,
    largestConnectedComponent two_components = Returned largest two_components ∧
    largestConnectedComponentSubgraph two_components
    = Returned sub two_components ∧
    node_keys sub = largest ∧
    g_edges sub
    = filter (λ e, edge_source e ∈ largest) (g_edges two_components) ∧
    (∀ e, e ∈ g_edges sub →
          edge_source e ∈ node_keys sub ∧ edge_target e ∈ node_keys sub) ∧
    (∀ na, na ∈ g_nodes sub → na ∈ g_nodes two_components) ∧
    (∀ e, e ∈ g_edges sub → e ∈ g_edges two_components) ∧
    (∃ node, weak_component two_components node (node_keys sub)) ∧
    ∃ comps l1 l2,
      connectedComponents two_components = Returned comps two_components ∧
      comps = l1 ++ node_keys sub :: l2 ∧
      (∀ c, c ∈ l1 → length c < length (node_keys sub)) ∧
      (∀ c, c ∈ l2 → length c ≤ length (node_keys sub)).
Proof.
  assert (Hwf : well_formed two_components) by well_formed_by_computation.
  split; [exact Hwf|]. split; [discriminate|].
  destruct (largest_subgraph two_components Hwf)
    as (largest & sub & Hlargest & Hsub & Hkeys & Hedges & Hends & Hnodes
        & Hin & _ & Hcomponent).
  exists largest, sub. split; [exact Hlargest|]. split; [exact Hsub|].
  split; [exact Hkeys|]. split; [exact Hedges|]. split; [exact Hends|].
  split; [exact Hnodes|]. split; [exact Hin|]. apply Hcomponent. discriminate.
Defined.

Lemma crop_to_largest_witness :
  well_formed two_components ∧ node_keys two_components ≠ [] ∧
  ∃ largest g',
    largestConnectedComponent two_components = Returned largest two_components ∧
    cropToLargestConnectedComponent two_components = Returned tt g' ∧
    node_keys g' ≡ₚ largest ∧
    (∃ c, connectedComponents g' = Returned [c] g' ∧ c ≡ₚ node_keys g') ∧
    (∃ node, weak_component two_components node largest) ∧
    ∃ comps l1 l2,
      connectedComponents two_components = Returned comps two_components ∧
      comps = l1 ++ largest :: l2 ∧
      (∀ c, c ∈ l1 → length c < length largest) ∧
      (∀ c, c ∈ l2 → length c ≤ length largest).
Proof.
  assert (Hwf : well_formed two_components) by well_formed_by_computation.
  split; [exact Hwf|]. split; [discriminate|].
  destruct (crop_to_largest two_components Hwf)
    as (largest & g' & Hlargest & Hcrop & Hnodes & Hone & _ & Hcomponent).
  exists largest, g'. split; [exact Hlargest|]. split; [exact Hcrop|].
  split; [exact Hnodes|]. split; [apply Hone; discriminate|].
  apply Hcomponent. discriminate.
Defined.

Lemma no_edges_singletons_witness :
  well_formed isolated_nodes ∧ node_keys isolated_nodes ≠ [] ∧
  g_edges isolated_nodes = [] ∧ type isolated_nodes ≠ undirected ∧
  connectedComponents isolated_nodes
  = Returned [["A"]; ["B"]; ["C"]]%string isolated_nodes ∧
  stronglyConnectedComponents isolated_nodes
  = Returned [["A"]; ["B"]; ["C"]]%string isolated_nodes.
Proof.
  assert (Hwf : well_formed isolated_nodes) by well_formed_by_computation.
  split; [exact Hwf|]. split; [discriminate|]. split; [reflexivity|].
  split; [discriminate|].
  destruct (no_edges_singletons isolated_nodes Hwf) as [Hweak Hstrong];
    [discriminate|reflexivity|].
  split; [exact Hweak|]. apply Hstrong. discriminate.
Defined.

Lemma order_variant_refines_witness :
  well_formed two_components ∧
  (∀ U (callback : nat → U → U) u,
     forEachConnectedComponentOrder callback u two_components
     = forEachConnectedComponent
         (λ component, callback (length component)) u two_components) ∧
  ∃ comps,
    connectedComponents two_components = Returned comps two_components ∧
    forEachConnectedComponentOrder (λ order orders, orders ++ [order]) []
      two_components
    = Returned (length <$> comps) two_components.
Proof.
  assert (Hwf : well_formed two_components) by well_formed_by_computation.
  split; [exact Hwf|]. apply (order_variant_refines two_components Hwf).
Defined.

Lemma traversals_leave_graph_unchanged_witness :
  well_formed two_components ∧
  (∀ U (callback : list string → U → U) u,
     ∃ r, forEachConnectedComponent callback u two_components
          = Returned r two_components) ∧
  (∀ U (callback : nat → U → U) u,
     ∃ r, forEachConnectedComponentOrder callback u two_components
          = Returned r two_components) ∧
  (∃ r, connectedComponents two_components = Returned r two_components) ∧
  (∃ r, largestConnectedComponent two_components = Returned r two_components).
Proof.
  assert (Hwf : well_formed two_components) by well_formed_by_computation.
  split; [exact Hwf|].
  apply (traversals_leave_graph_unchanged two_components Hwf).
Defined.

Lemma largest_of_null_graph_witness :
  node_keys null_graph = [] ∧
  largestConnectedComponent null_graph = Returned [] null_graph.
Proof.
  split; [reflexivity|]. apply (largest_of_null_graph null_graph). reflexivity.
Defined.

(** * Further properties of the component functions *)

Section Further.

Context {Attr : Type}.
Implicit Types (g : Graph Attr) (seen : gset string).

(** ** Weak components as connectivity classes *)

Lemma weak_component_class g node c x y :
  weak_component g node c → x ∈ c → (y ∈ c ↔ connected g x y).
Proof.
  intros (_ & _ & _ & Hcl & Hconn) Hx. split.
  - intros Hy. etrans; [apply connected_sym, Hconn, Hx|by apply Hconn].
  - intros Hxy.
    cut (y ∈ (list_to_set c : gset string)); [by rewrite elem_of_list_to_set|].
    eapply closed_connected; [|by apply elem_of_list_to_set|exact Hxy].
    intros a b Ha Hb. rewrite elem_of_list_to_set in *. by eapply Hcl.
Qed.

Lemma weak_components_spec g :
  well_formed g →
  NoDup (concat (weak_components g)) ∧
  concat (weak_components g) ≡ₚ node_keys g ∧
  Forall (λ c, ∃ node, weak_component g node c) (weak_components g).
Proof.
  intros Hwf.
  destruct (components_from_spec g (node_keys g) ∅ Hwf (closed_empty g))
    as (Hnd & Hnew & Hcov & Hall & _); [done|].
  split; [done|]. split; [|done].
  apply NoDup_Permutation; [done|by apply wf_NoDup_nodes|].
  intros x. split; [apply Hnew|]. intros Hx.
  destruct (Hcov x Hx); [set_solver|done].
Qed.

(** X1. The weak components are the classes of connectivity: two nodes are
    in the same component returned by [connectedComponents] exactly when a
    chain of edges, followed in either direction, joins them. *)
Theorem weak_components_are_classes g :
  well_formed g →
  ∃ comps, connectedComponents g = Returned comps g ∧
           ∀ c x y, c ∈ comps → x ∈ c → (y ∈ c ↔ connected g x y).
Proof.
  intros Hwf. exists (weak_components g).
  split; [by apply connectedComponents_run|].
  destruct (weak_components_spec g Hwf) as (_ & _ & Hall).
  rewrite Forall_forall in Hall.
  intros c x y Hc Hx. destruct (Hall c Hc) as [node Hnode].
  by eapply weak_component_class.
Qed.

Lemma length_concat_sum (ls : list (list string)) :
  length (concat ls) = sum_list (length <$> ls).
Proof.
  induction ls as [|l ls IH]; [done|]. simpl. by rewrite length_app, IH.
Qed.

(** X2. The sizes reported by [forEachConnectedComponentOrder] are all
    positive and add up to the order of the graph. *)
Theorem component_sizes_sum_to_order g :
  well_formed g →
  ∃ sizes,
    forEachConnectedComponentOrder (λ order orders, orders ++ [order]) [] g
    = Returned sizes g ∧
    sum_list sizes = graph_order g ∧
    Forall (λ n, 0 < n) sizes.
Proof.
  intros Hwf.
  exists (length <$> weak_components g). split.
  { rewrite forEachConnectedComponentOrder_eq, forEachConnectedComponent_run by done.
    f_equal.
    pose proof (foldl_callback_length (λ order orders, orders ++ [order])
                  (weak_components g) []) as Hfold.
    rewrite foldl_snoc in Hfold. exact Hfold. }
  destruct (weak_components_spec g Hwf) as (_ & Hperm & Hall).
  split.
  - rewrite <- length_concat_sum, Hperm. by rewrite graph_order_keys.
  - rewrite Forall_fmap. eapply Forall_impl; [exact Hall|].
    intros c (node & [rest ->] & _). simpl. lia.
Qed.

(** ** Strong components against weak components *)

Lemma out_edge_adjacent g x y : out_edge g x y → adjacent g x y.
Proof.
  unfold out_edge, adjacent.
  rewrite elem_of_outbound_neighbors, elem_of_neighbors.
  intros (e & He & H). exists e. naive_solver.
Qed.

Lemma reach_connected g x y : reach g x y → connected g x y.
Proof.
  induction 1 as [x|x y z Hxy _ IH]; [apply rtc_refl|].
  eapply rtc_l; [by apply out_edge_adjacent|done].
Qed.

Lemma adjacent_out_edge g x y :
  Forall (λ e, edge_undirected e = true) (g_edges g) →
  adjacent g x y → out_edge g x y.
Proof.
  intros Hall. unfold out_edge, adjacent.
  rewrite elem_of_outbound_neighbors, elem_of_neighbors.
  rewrite Forall_forall in Hall.
  intros (e & He & H). exists e. specialize (Hall e He). naive_solver.
Qed.

Lemma connected_reach g x y :
  Forall (λ e, edge_undirected e = true) (g_edges g) →
  connected g x y → reach g x y.
Proof.
  intros Hall. induction 1 as [x|x y z Hxy _ IH]; [apply rtc_refl|].
  eapply rtc_l; [by apply adjacent_out_edge|done].
Qed.

(** X5. Strong components refine weak components: two nodes of one strong
    component lie in the same weak component. *)
Theorem strong_components_within_weak g :
  well_formed g → type g ≠ undirected →
  ∃ strong weak,
    stronglyConnectedComponents g = Returned strong g ∧
    connectedComponents g = Returned weak g ∧
    ∀ cs cw x y, cs ∈ strong → cw ∈ weak →
                 x ∈ cs → y ∈ cs → x ∈ cw → y ∈ cw.
Proof.
  intros Hwf Hty.
  destruct (stronglyConnectedComponents_spec g Hwf Hty)
    as (strong & Hrun & _ & Hclass).
  exists strong, (weak_components g). split; [done|].
  split; [by apply connectedComponents_run|].
  intros cs cw x y Hcs Hcw Hx Hy Hxw.
  destruct (weak_components_spec g Hwf) as (_ & _ & Hall).
  rewrite Forall_forall in Hall. destruct (Hall cw Hcw) as [node Hnode].
  apply (weak_component_class g node cw x y Hnode Hxw).
  apply reach_connected. by apply (Hclass cs x y Hcs Hx).
Qed.

(** X6. On a mixed graph all of whose edges are undirected, the strong
    component and the weak component of a node have the same members. *)
Theorem strong_equals_weak_when_undirected_edges g :
  well_formed g → type g ≠ undirected →
  Forall (λ e, edge_undirected e = true) (g_edges g) →
  ∃ strong weak,
    stronglyConnectedComponents g = Returned strong g ∧
    connectedComponents g = Returned weak g ∧
    ∀ cs cw x, cs ∈ strong → cw ∈ weak → x ∈ cs → x ∈ cw →
               ∀ y, y ∈ cs ↔ y ∈ cw.
Proof.
  intros Hwf Hty Hund.
  destruct (stronglyConnectedComponents_spec g Hwf Hty)
    as (strong & Hrun & _ & Hclass).
  exists strong, (weak_components g). split; [done|].
  split; [by apply connectedComponents_run|].
  intros cs cw x Hcs Hcw Hx Hxw y.
  destruct (weak_components_spec g Hwf) as (_ & _ & Hall).
  rewrite Forall_forall in Hall. destruct (Hall cw Hcw) as [node Hnode].
  rewrite (Hclass cs x y Hcs Hx), (weak_component_class g node cw x y Hnode Hxw).
  split.
  - intros [Hxy _]. by apply reach_connected.
  - intros Hxy. split; apply connected_reach; [done|done|done|].
    by apply connected_sym.
Qed.

(** ** Order of the strong components *)

(** A property of the list of finished components that is kept whenever a
    component is appended in a state where the invariants hold is kept by
    [DFS]. *)
Section ComponentsInvariant.

Context (g : Graph Attr) (I : list (list string) → Prop).
Hypothesis I_append : ∀ st E comps c,
  st_components st = comps ++ [c] → c ≠ [] →
  scc_inv g st → scc_sound g E st →
  I comps → I (comps ++ [c]).

Lemma DFS_loop_components fuel node st0 ns st E :
  well_formed g →
  (∀ node st E, scc_inv g st → scc_sound g E st → node ∈ node_keys g →
     st_preorder st !! node = None →
     unseen (dom (st_preorder st)) (node_keys g) < fuel →
     (∀ p, p ∈ st_P st → reach g p node) →
     I (st_components st) →
     ∃ st' E', DFS fuel node st g = Returned st' g ∧
               DFS_result g E node st st' E' ∧ I (st_components st')) →
  scc_inv g st0 → st_preorder st0 !! node = None →
  unseen (dom (st_preorder (visit node st0))) (node_keys g) < fuel →
  (∀ p, p ∈ st_P st0 → reach g p node) →
  (∀ y, y ∈ ns → out_edge g node y) →
  scc_inv g st → scc_sound g E st → extends (visit node st0) st →
  I (st_components st) →
  ∃ st' E',
    array_forEach (DFS_neighbor fuel) ns st g = Returned st' g ∧
    scc_inv g st' ∧ scc_sound g E' st' ∧ extends (visit node st0) st' ∧
    (∀ y, y ∈ ns → E' node y) ∧
    (∀ x y, st_preorder st !! x = None → is_Some (st_preorder st' !! x) →
            out_edge g x y → E' x y) ∧
    (∀ x y, E x y → E' x y) ∧
    I (st_components st').
Proof.
  intros Hwf HDFS Hinv0 Hnone Hfuel HPRE. revert st E.
  induction ns as [|y ns IH]; intros st E Hns Hinv Hs Hext HI.
  { exists st, E. do 3 (split; [done|]). split; [done|].
    split; [intros y Hy; by apply elem_of_nil in Hy|].
    split; [|done]. intros x y Hx [o Ho]. congruence. }
  assert (Hns' : ∀ y, y ∈ ns → out_edge g node y).
  { intros z Hz. apply Hns. by right. }
  assert (Hy : out_edge g node y) by (apply Hns; left).
  destruct (active_node g st0 node st Hinv0 Hnone Hext)
    as (HnodeS & Hlook & HS0 & Hactive).
  rewrite array_forEach_cons. unfold DFS_neighbor at 1.
  destruct (st_preorder st !! y) as [o|] eqn:Hyo.
  - destruct (decide (y ∈ st_assigned st)) as [Hin|Hnin].
    + rewrite ret_run.
      destruct (IH st (λ a b, E a b ∨ (a = node ∧ b = y)) Hns' Hinv)
        as (st' & E' & Hrun & Hinv' & Hs' & Hext' & Hcov & Hnew & HE & HI');
        [|done|done|].
      { apply scc_sound_add_edge; [done|done|by eexists|]. intros _. by left. }
      exists st', E'. do 4 (split; [done|]).
      split; [intros z [->|Hz]%elem_of_cons; [apply HE; by right|by apply Hcov]|].
      split; [done|]. split; [|done]. intros a b Hab. apply HE. by left.
    + rewrite ret_run.
      assert (HyS : y ∈ st_S st).
      { destruct (proj1 (inv_dom g st Hinv y)); [by eexists|done|done]. }
      destruct (scc_inv_pop g st o Hinv) as [Hinv1 Hext1]; [by exists y|].
      destruct (scc_sound_pop g E st node y o Hinv Hs HnodeS Hactive HyS Hyo Hy)
        as [Hs1 Hle].
      set (st1 := set_P (pop_while (st_preorder st) o (st_P st)) st) in *.
      destruct (IH st1 (λ a b, E a b ∨ (a = node ∧ b = y)) Hns' Hinv1)
        as (st' & E' & Hrun & Hinv' & Hs' & Hext' & Hcov & Hnew & HE & HI');
        [|by eapply extends_trans|done|].
      { apply scc_sound_add_edge; [done|done|by eexists|]. intros _. right.
        split; [done|]. intros p Hp _. change (pre st p ≤ pre st y).
        rewrite (pre_lookup st y o Hyo). by apply Hle. }
      exists st', E'. do 4 (split; [done|]).
      split; [intros z [->|Hz]%elem_of_cons; [apply HE; by right|by apply Hcov]|].
      split; [done|]. split; [|done]. intros a b Hab. apply HE. by left.
  - destruct (HDFS y st E Hinv Hs)
      as (st1 & E1 & Hrun1 & (Hinv1 & Hs1 & Hext1 & Hlook1 & HE1 & Hnew1) & HI1).
    { eapply outbound_neighbors_in_nodes; [done|exact Hy]. }
    { done. }
    { eapply Nat.le_lt_trans; [|exact Hfuel].
      apply unseen_mono, subseteq_dom. apply Hext. }
    { intros p Hp. destruct (ext_P _ _ Hext) as [k Hk]. simpl in Hk.
      assert (p ∈ node :: st_P st0) as [->|Hp0]%elem_of_cons
        by (rewrite Hk; set_solver).
      - by apply rtc_once.
      - eapply rtc_r; [by apply HPRE|done]. }
    { done. }
    rewrite Hrun1.
    assert (Hlook' : st_preorder st1 !! node = Some (st_count st0)).
    { eapply lookup_weaken; [exact Hlook|apply Hext1]. }
    destruct (IH st1 (λ a b, E1 a b ∨ (a = node ∧ b = y)) Hns' Hinv1)
      as (st' & E' & Hrun & Hinv' & Hs' & Hext' & Hcov & Hnew & HE & HI');
      [|by eapply extends_trans|done|].
    { apply scc_sound_add_edge; [done|done|by eexists|]. intros _.
      destruct (proj1 (inv_dom g st1 Hinv1 y)) as [Ha|HyS]; [by eexists|by left|].
      right. split; [done|]. intros p Hp _.
      rewrite (pre_lookup st1 y _ Hlook1).
      assert (Hp' : p ∈ st_S st).
      { apply (inv_P_S g st Hinv). destruct (ext_P _ _ Hext1) as [k ->]. set_solver. }
      rewrite (pre_weaken st st1 p) by (apply Hext1 || by eapply S_numbered).
      pose proof (pre_lt_count g st p Hinv Hp'). lia. }
    exists st', E'. do 4 (split; [done|]).
    split; [intros z [->|Hz]%elem_of_cons; [apply HE; by right|by apply Hcov]|].
    split; [|split; [|done]].
    + intros a b Ha Ha' Hab.
      destruct (st_preorder st1 !! a) as [oa|] eqn:Ha1.
      * apply HE. left. apply Hnew1; [done|by eexists|done].
      * by apply Hnew.
    + intros a b Hab. apply HE. left. by apply HE1.
Qed.

Lemma DFS_components fuel node st E :
  well_formed g → scc_inv g st → scc_sound g E st → node ∈ node_keys g →
  st_preorder st !! node = None →
  unseen (dom (st_preorder st)) (node_keys g) < fuel →
  (∀ p, p ∈ st_P st → reach g p node) →
  I (st_components st) →
  ∃ st' E', DFS fuel node st g = Returned st' g ∧
            DFS_result g E node st st' E' ∧ I (st_components st').
Proof.
  intros Hwf. revert node st E.
  induction fuel as [|fuel IH];
    intros node st E Hinv Hs Hnode Hnone Hfuel HPRE HI; [lia|].
  rewrite DFS_unfold, bind_run, outboundNeighbors_run by done.
  assert (Hdom : dom (st_preorder (visit node st)) = {[node]} ∪ dom (st_preorder st)).
  { simpl. by rewrite dom_insert_L. }
  destruct (DFS_loop_components fuel node st (outbound_neighbors g node)
              (visit node st) E Hwf IH Hinv Hnone)
    as (sti & Ei & Hrun & Hi & Hsi & Hext & Hcov & Hnew & HE & HIi).
  { rewrite Hdom.
    pose proof (unseen_insert (dom (st_preorder st)) (node_keys g) node
                  (wf_NoDup_nodes g Hwf) Hnode) as Hu.
    rewrite not_elem_of_dom in Hu. specialize (Hu Hnone). lia. }
  { done. }
  { done. }
  { by apply scc_inv_visit. }
  { by apply scc_sound_visit. }
  { apply extends_refl. }
  { done. }
  rewrite bind_run, Hrun.
  destruct (active_node g st node sti Hinv Hnone Hext)
    as (HnodeS & Hlook & HS0 & Hactive).
  pose proof Hext as [[X HS] HP Hpre Hass Hcount Hnewo].
  simpl in HS, HP, Hpre, Hass, Hcount, Hnewo.
  assert (HnP : node ∉ st_P st).
  { intros Hin. apply (inv_P_S g st Hinv) in Hin.
    destruct (S_numbered g st node Hinv Hin). congruence. }
  assert (Hnew0 : ∀ x o, st_preorder st !! x = None →
                         st_preorder sti !! x = Some o → st_count st ≤ o).
  { intros x o Hx Ho. destruct (decide (x = node)) as [->|Hne].
    - rewrite Hlook in Ho. injection Ho as <-. done.
    - assert (st_count st < o); [|lia]. apply (Hnewo x o); [|done].
      by rewrite lookup_insert_ne. }
  assert (Hcover : ∀ x y, st_preorder st !! x = None →
                          is_Some (st_preorder sti !! x) →
                          out_edge g x y → Ei x y).
  { intros x y Hx Hx' Hxy. destruct (decide (x = node)) as [->|Hne].
    - by apply Hcov.
    - apply Hnew; [simpl; by rewrite lookup_insert_ne|done|done]. }
  assert (Hpre0 : st_preorder st ⊆ st_preorder sti).
  { etrans; [|exact Hpre]. by apply insert_subseteq. }
  pose proof (inv_S_NoDup g sti Hi) as HndS. rewrite HS in HndS.
  apply NoDup_app in HndS as (_ & HXS & _).
  assert (HnX : node ∉ X). { intros Hin. apply (HXS node Hin). left. }
  destruct (decide (top_preorder (st_preorder sti) (st_P sti)
                    = st_preorder sti !! node)) as [Htop|Htop].
  - rewrite Hlook in Htop. unfold top_preorder in Htop.
    destruct (st_P sti) as [|p P''] eqn:HPi; [done|]. simpl in Htop.
    assert (p = node) as -> by (eapply (inv_inj g sti Hi); eauto).
    apply suffix_cons_inv in HP as [[= HPeq]|Hsuf];
      [|exfalso; apply HnP; destruct Hsuf as [k ->]; set_solver].
    subst P''. rewrite HS, pop_until_spec by done. rewrite ret_run.
    destruct (scc_root_pop g Ei st node sti X Hinv Hnone Hi Hsi Hext HS HPi)
      as [Hinv' Hs'].
    { intros x y [Hx|Hx]%elem_of_app Hxy.
      - destruct (above_node_new g st node sti X Hinv Hnone Hi Hext HS x Hx) as [Hxn _].
        apply Hnew; [done| |done]. apply (S_numbered g sti x Hi). rewrite HS. set_solver.
      - apply list_elem_of_singleton in Hx as ->. by apply Hcov. }
    eexists _, Ei. split; [done|]. split.
    + split; [exact Hinv'|]. split; [exact Hs'|].
      split; [|split; [exact Hlook|split; [done|exact Hcover]]].
      split; simpl; [by exists []|done|done|set_solver|lia|exact Hnew0].
    + simpl. eapply I_append; [| |exact Hinv'|exact Hs'|exact HIi];
        [done|by destruct X].
  - rewrite ret_run. exists sti, Ei. split; [done|]. split; [|done].
    split; [done|]. split; [done|].
    split; [|split; [exact Hlook|split; [done|exact Hcover]]].
    split; [exists (X ++ [node]); by rewrite HS, <- app_assoc| |done|done|lia|exact Hnew0].
    destruct (st_P sti) as [|p P''] eqn:HPi; [apply suffix_nil|].
    apply suffix_cons_inv in HP as [[= -> HPeq]|Hsuf]; [|done].
    exfalso. by apply Htop.
Qed.

Lemma scc_roots_components vertices st E :
  well_formed g → scc_inv g st → scc_sound g E st →
  st_S st = [] → st_P st = [] →
  (∀ x, x ∈ vertices → x ∈ node_keys g) →
  I (st_components st) →
  ∃ st' E',
    array_forEach (λ vertex st,
        if decide (vertex ∈ st_assigned st) then mret st
        else DFS (S (graph_order g)) vertex st)
      vertices st g
    = Returned st' g ∧
    scc_inv g st' ∧ scc_sound g E' st' ∧ I (st_components st').
Proof.
  intros Hwf. revert st E.
  induction vertices as [|vertex vertices IH]; intros st E Hinv Hs HS HP Hv HI.
  { by exists st, E. }
  assert (Hv' : ∀ x, x ∈ vertices → x ∈ node_keys g).
  { intros x Hx. apply Hv. by right. }
  rewrite array_forEach_cons.
  destruct (decide (vertex ∈ st_assigned st)) as [Hin|Hnin].
  - rewrite ret_run. by apply (IH st E).
  - assert (Hnone : st_preorder st !! vertex = None).
    { apply eq_None_not_Some. intros Hsome.
      apply (inv_dom g st Hinv) in Hsome as [?|Hin]; [done|].
      rewrite HS in Hin. by apply elem_of_nil in Hin. }
    destruct (DFS_components (S (graph_order g)) vertex st E Hwf Hinv Hs)
      as (st1 & E1 & Hrun1 & (Hinv1 & Hs1 & Hext1 & Hsome & _) & HI1);
      [apply Hv; left|done| | |done|].
    { pose proof (unseen_length (dom (st_preorder st)) (node_keys g)).
      rewrite graph_order_keys. lia. }
    { intros p Hp. rewrite HP in Hp. by apply elem_of_nil in Hp. }
    rewrite Hrun1.
    destruct Hext1 as [[X HX] HP1 Hpre1 Hass1 _ _].
    assert (HP1' : st_P st1 = []).
    { rewrite HP in HP1. by apply suffix_nil_inv in HP1. }
    assert (HS1 : st_S st1 = []).
    { destruct (st_S st1) as [|s S1] eqn:HS1; [done|].
      destruct (inv_P_low g st1 Hinv1 s) as (p & ? & ? & Hp & _); [rewrite HS1; left|].
      rewrite HP1' in Hp. by apply elem_of_nil in Hp. }
    by apply (IH st1 E1).
Qed.

End ComponentsInvariant.

Lemma prefix_closed_append g st E comps c :
  st_components st = comps ++ [c] → c ≠ [] →
  scc_inv g st → scc_sound g E st →
  prefix_closed g comps → prefix_closed g (comps ++ [c]).
Proof.
  intros Hcomps _ Hinv Hs Hold l1 l2 Heq x y Hx Hxy.
  destruct l2 as [|c' l2 _] using rev_ind.
  - rewrite app_nil_r in Heq. subst l1. rewrite <- Hcomps in *.
    apply (inv_comps g st Hinv). apply (inv_comps g st Hinv) in Hx.
    by eapply (snd_closed g E st Hs).
  - rewrite app_assoc in Heq. apply app_inj_tail in Heq as [Heq _].
    by apply (Hold l1 l2 Heq x y).
Qed.

(** X7. [stronglyConnectedComponents] returns the components in reverse
    topological order: an outbound neighbor of a node is in the node's own
    component or in one listed before it. *)
Theorem strong_components_reverse_topological g :
  well_formed g → type g ≠ undirected →
  ∃ comps,
    stronglyConnectedComponents g = Returned comps g ∧
    ∀ l1 c l2 x y, comps = l1 ++ c :: l2 → x ∈ c →
      y ∈ outbound_neighbors g x → y ∈ c ∨ ∃ c', c' ∈ l1 ∧ y ∈ c'.
Proof.
  intros Hwf Hty.
  assert (Hgoal : ∀ comps, prefix_closed g comps →
    ∀ l1 c l2 x y, comps = l1 ++ c :: l2 → x ∈ c →
      y ∈ outbound_neighbors g x → y ∈ c ∨ ∃ c', c' ∈ l1 ∧ y ∈ c').
  { intros comps Hpc l1 c l2 x y Heq Hx Hxy.
    assert (Hy : y ∈ concat (l1 ++ [c])).
    { apply (Hpc (l1 ++ [c]) l2 ltac:(by rewrite <- app_assoc) x y); [|done].
      rewrite concat_app. simpl. rewrite app_nil_r. set_solver. }
    rewrite concat_app in Hy. simpl in Hy. rewrite app_nil_r in Hy.
    apply elem_of_app in Hy as [Hy|Hy]; [right|by left].
    apply elem_of_concat in Hy as (c' & Hy & Hc'). eauto. }
  unfold stronglyConnectedComponents.
  rewrite bind_run, read_run.
  destruct (decide (graph_order g = 0)) as [H0|H0].
  { exists []. split; [done|]. intros l1 c l2 x y Heq. by destruct l1. }
  rewrite bind_run, read_run, decide_False by done.
  rewrite bind_run, read_run, bind_run, read_run.
  destruct (decide (graph_size g = 0)) as [Hsz|Hsz].
  { rewrite array_forEach_singletons. eexists. split; [done|].
    apply nil_length_inv in Hsz.
    intros l1 c l2 x y _ _ Hxy. rewrite outbound_no_edges in Hxy by done.
    by apply elem_of_nil in Hxy. }
  destruct (scc_roots_components g (prefix_closed g) (prefix_closed_append g)
              (node_keys g) (mkSCC 1 [] [] ∅ ∅ []) (λ _ _, False)
              Hwf (scc_inv_init g) (scc_sound_init g))
    as (st' & E' & Hrun & _ & _ & Hpc); [done|done|done| |].
  { intros l1 l2 Heq x y Hx. simpl in Heq.
    symmetry in Heq. apply app_eq_nil in Heq as [-> _]. by apply elem_of_nil in Hx. }
  rewrite bind_run, Hrun, ret_run. eexists. split; [done|]. by apply Hgoal.
Qed.

(** ** Strong components are not empty *)

Lemma length_le_concat (comps : list (list string)) :
  Forall (λ c, c ≠ []) comps → length comps ≤ length (concat comps).
Proof.
  induction 1 as [|c comps Hc _ IH]; [done|]. simpl. rewrite length_app.
  destruct c; [done|]. simpl. lia.
Qed.

Lemma nonempty_append g (st : SCC) (E : string → string → Prop) comps c :
  st_components st = comps ++ [c] → c ≠ [] →
  scc_inv g st → scc_sound g E st →
  Forall (λ c, c ≠ []) comps → Forall (λ c, c ≠ []) (comps ++ [c]).
Proof.
  intros _ Hc _ _ Hcomps. apply Forall_app. split; [done|].
  by apply Forall_singleton.
Qed.

(** X22. No strong component is empty, so [stronglyConnectedComponents]
    returns at most as many components as the graph has nodes. *)
Theorem strong_components_nonempty g :
  well_formed g → type g ≠ undirected →
  ∃ comps,
    stronglyConnectedComponents g = Returned comps g ∧
    Forall (λ c, c ≠ []) comps ∧
    length comps ≤ graph_order g.
Proof.
  intros Hwf Hty.
  destruct (stronglyConnectedComponents_spec g Hwf Hty)
    as (comps & Hrun & Hperm & _).
  exists comps. split; [done|].
  cut (Forall (λ c, c ≠ []) comps).
  { intros Hne. split; [done|].
    rewrite graph_order_keys, <- Hperm. by apply length_le_concat. }
  revert Hrun. unfold stronglyConnectedComponents.
  rewrite bind_run, read_run.
  destruct (decide (graph_order g = 0)) as [H0|H0].
  { rewrite ret_run. by intros [= <-]. }
  rewrite bind_run, read_run, decide_False by done.
  rewrite bind_run, read_run, bind_run, read_run.
  destruct (decide (graph_size g = 0)) as [Hsz|Hsz].
  { rewrite array_forEach_singletons. intros [= <-]. simpl.
    apply Forall_fmap, Forall_forall. by intros x _. }
  destruct (scc_roots_components g (Forall (λ c, c ≠ [])) (nonempty_append g)
              (node_keys g) (mkSCC 1 [] [] ∅ ∅ []) (λ _ _, False)
              Hwf (scc_inv_init g) (scc_sound_init g))
    as (st' & E' & Hrun & _ & _ & Hne); [done|done|done|by constructor|].
  rewrite bind_run, Hrun, ret_run. by intros [= <-].
Qed.

(** ** Order of the weak components *)

Lemma components_from_order g pending seen l1 c l2 :
  well_formed g → closed g seen →
  (∀ x, x ∈ pending → x ∈ node_keys g) →
  components_from g pending seen = l1 ++ c :: l2 →
  ∃ p1 r p2 rest,
    pending = p1 ++ r :: p2 ∧ c = r :: rest ∧
    ∀ x, x ∈ p1 → x ∈ seen ∨ x ∈ concat l1.
Proof.
  intros Hwf. revert seen l1.
  induction pending as [|node pending IH]; intros seen l1 Hcl Hpend Heq.
  { simpl in Heq. by destruct l1. }
  assert (Hpend' : ∀ x, x ∈ pending → x ∈ node_keys g).
  { intros x Hx. apply Hpend. by right. }
  cbn [components_from] in Heq.
  destruct (decide (node ∈ seen)) as [Hs|Hs].
  - destruct (IH seen l1 Hcl Hpend' Heq) as (p1 & r & p2 & rest & -> & -> & Hp1).
    exists (node :: p1), r, p2, rest. split; [done|]. split; [done|].
    intros x [->|Hx]%elem_of_cons; [by left|by apply Hp1].
  - destruct (component_of_spec g seen node Hwf Hcl) as (_ & Hc & _ & Hcl1);
      [apply Hpend; left|done|].
    destruct l1 as [|c0 l1]; simpl in Heq.
    + injection Heq as <- _. destruct Hc as ([rest Hrest] & _).
      exists [], node, pending, rest. split; [done|]. split; [done|].
      intros x Hx. by apply elem_of_nil in Hx.
    + injection Heq as <- Heq.
      destruct (IH _ l1 Hcl1 Hpend' Heq) as (p1 & r & p2 & rest & -> & -> & Hp1).
      exists (node :: p1), r, p2, rest. split; [done|]. split; [done|].
      destruct Hc as ([rest0 Hrest0] & _).
      intros x [->|Hx]%elem_of_cons.
      * right. simpl. rewrite Hrest0. set_solver.
      * destruct (Hp1 x Hx) as [[H|H]%elem_of_union|H]; [by left| |].
        -- right. simpl. rewrite elem_of_list_to_set in H. set_solver.
        -- right. simpl. set_solver.
Qed.

(** X3. Components come out in node enumeration order: each component
    starts with the first node of the graph that no earlier component
    holds. *)
Theorem weak_components_in_enumeration_order g :
  well_formed g →
  ∃ comps,
    connectedComponents g = Returned comps g ∧
    ∀ l1 c l2, comps = l1 ++ c :: l2 →
      ∃ n1 r n2 rest,
        node_keys g = n1 ++ r :: n2 ∧ c = r :: rest ∧
        (∀ x, x ∈ n1 → ∃ c', c' ∈ l1 ∧ x ∈ c').
Proof.
  intros Hwf. exists (weak_components g).
  split; [by apply connectedComponents_run|].
  intros l1 c l2 Heq.
  destruct (components_from_order g (node_keys g) ∅ l1 c l2 Hwf (closed_empty g))
    as (n1 & r & n2 & rest & Hkeys & Hc & Hn1); [done|done|].
  exists n1, r, n2, rest. split; [done|]. split; [done|].
  intros x Hx. destruct (Hn1 x Hx) as [H|H]; [set_solver|].
  apply elem_of_concat in H as (c' & Hxc & Hc'). eauto.
Qed.

(** ** Cropping and extraction *)

Lemma restrict_all g (keep : gset string) :
  well_formed g → (∀ x, x ∈ node_keys g → x ∈ keep) → restrict g keep = g.
Proof.
  intros Hwf Hall. destruct g as [ty mu al ns es]. unfold restrict. simpl.
  f_equal.
  - apply filter_all_in. intros [k a] Hin. simpl. apply Hall.
    by apply (list_elem_of_fmap_2 fst _ (k, a)).
  - apply filter_all_in. intros e He.
    destruct (wf_endpoints _ e Hwf He). split; by apply Hall.
Qed.

Lemma largest_of_nonempty_singleton (c : list string) :
  c ≠ [] → largest_of [] [c] = c.
Proof.
  intros Hc. unfold largest_of. simpl.
  rewrite decide_True; [done|]. destruct c; [done|simpl; lia].
Qed.

Lemma largest_covers_when_single g comps :
  well_formed g → weak_components g = comps → length comps ≤ 1 →
  ∀ x, x ∈ node_keys g → x ∈ largest_of [] comps.
Proof.
  intros Hwf Hcomps Hlen x Hx.
  destruct (weak_components_spec g Hwf) as (_ & Hperm & _).
  rewrite Hcomps in Hperm. rewrite <- Hperm in Hx.
  destruct comps as [|c [|c' comps]]; simpl in Hx, Hlen; [by apply elem_of_nil in Hx| |lia].
  rewrite app_nil_r in Hx. rewrite largest_of_nonempty_singleton; [done|].
  intros ->. by apply elem_of_nil in Hx.
Qed.

(** X8. When [connectedComponents] reports at most one component,
    [cropToLargestConnectedComponent] leaves the graph as it is. *)
Theorem crop_unchanged_when_connected g comps :
  well_formed g →
  connectedComponents g = Returned comps g → length comps ≤ 1 →
  cropToLargestConnectedComponent g = Returned tt g.
Proof.
  intros Hwf Hcc Hlen.
  rewrite connectedComponents_run in Hcc by done. injection Hcc as Hcomps.
  rewrite cropToLargestConnectedComponent_run by done. f_equal.
  apply restrict_all; [done|]. intros x Hx. apply elem_of_list_to_set.
  rewrite Hcomps. by eapply largest_covers_when_single.
Qed.

(** X9. Cropping twice is cropping once: on the cropped graph,
    [cropToLargestConnectedComponent] changes nothing. *)
Theorem crop_idempotent g :
  well_formed g →
  ∃ g', cropToLargestConnectedComponent g = Returned tt g' ∧
        cropToLargestConnectedComponent g' = Returned tt g'.
Proof.
  intros Hwf.
  set (g' := restrict g (list_to_set (largest_of [] (weak_components g)))).
  assert (Hwf' : well_formed g') by (by apply wf_restrict).
  exists g'. split; [by apply cropToLargestConnectedComponent_run|].
  rewrite cropToLargestConnectedComponent_run by done. f_equal.
  apply restrict_all; [done|]. intros x Hx. apply elem_of_list_to_set.
  apply (largest_covers_when_single g' (weak_components g') Hwf' eq_refl); [|done].
  destruct (node_keys g) as [|v rest] eqn:Hkeys.
  - unfold weak_components, g'. rewrite node_keys_restrict, Hkeys. simpl. lia.
  - destruct (crop_single_component g Hwf) as (_ & c & Hc & _); [by rewrite Hkeys|].
    fold g' in Hc. rewrite Hc. simpl. lia.
Qed.

(** X10. Cropping only removes: the cropped graph is well formed, keeps
    the options of the graph, its nodes and edges are those of the graph in
    their order with some left out, and an edge of the graph is kept as
    soon as one of its endpoints is. *)
Theorem crop_only_removes g :
  well_formed g →
  ∃ g', cropToLargestConnectedComponent g = Returned tt g' ∧
        well_formed g' ∧
        type g' = type g ∧ multi g' = multi g ∧
        allowSelfLoops g' = allowSelfLoops g ∧
        g_nodes g' `sublist_of` g_nodes g ∧
        g_edges g' `sublist_of` g_edges g ∧
        ∀ e, e ∈ g_edges g →
             (e ∈ g_edges g' ↔
              edge_source e ∈ node_keys g' ∨ edge_target e ∈ node_keys g').
Proof.
  intros Hwf.
  set (L := largest_of [] (weak_components g)).
  exists (restrict g (list_to_set L)).
  split; [by apply cropToLargestConnectedComponent_run|].
  split; [by apply wf_restrict|]. do 3 (split; [done|]).
  split; [apply sublist_filter|]. split; [apply sublist_filter|].
  destruct (largest_closed g Hwf) as (_ & Hn & Hcl). fold L in Hn, Hcl.
  intros e He. simpl.
  rewrite node_keys_restrict, !list_elem_of_filter, !elem_of_list_to_set.
  destruct (wf_endpoints g e Hwf He) as [Hs Ht].
  split; [tauto|]. intros [[Hin _]|[Hin _]]; (split; [|done]).
  - split; [done|]. apply (Hcl (edge_source e)); [done|].
    apply elem_of_neighbors. exists e. split; [done|by left].
  - split; [|done]. apply (Hcl (edge_target e)); [done|].
    apply elem_of_neighbors. exists e. split; [done|by right].
Qed.

Lemma attribute_unique (l : list (string * Attr)) k a a' :
  NoDup (l.*1) → (k, a) ∈ l → (k, a') ∈ l → a = a'.
Proof.
  induction l as [|[k0 a0] l IH]; intros Hnd H1 H2; [by apply elem_of_nil in H1|].
  rewrite fmap_cons in Hnd. apply NoDup_cons in Hnd as [Hk0 Hnd]. simpl in Hk0.
  apply elem_of_cons in H1 as [H1|H1]; apply elem_of_cons in H2 as [H2|H2].
  - congruence.
  - exfalso. apply Hk0. injection H1 as <- _.
    by apply (list_elem_of_fmap_2 fst _ (k, a')).
  - exfalso. apply Hk0. injection H2 as <- _.
    by apply (list_elem_of_fmap_2 fst _ (k, a)).
  - by apply IH.
Qed.

Lemma subgraph_edges_both_ends g :
  well_formed g →
  filter (λ e, edge_source e ∈ largest_of [] (weak_components g)) (g_edges g)
  = g_edges (restrict g (list_to_set (largest_of [] (weak_components g)))).
Proof.
  intros Hwf. destruct (largest_closed g Hwf) as (_ & _ & Hcl).
  simpl. apply filter_ext_in. intros e He.
  rewrite !elem_of_list_to_set. split; [|tauto]. intros Hs. split; [done|].
  apply (Hcl (edge_source e)); [done|].
  apply elem_of_neighbors. exists e. split; [done|by left].
Qed.

(** X11. The extracted subgraph and the cropped graph agree: same options,
    same edges in the same order, same node entries up to their order. *)
Theorem subgraph_matches_crop g :
  well_formed g →
  ∃ sub g',
    largestConnectedComponentSubgraph g = Returned sub g ∧
    cropToLargestConnectedComponent g = Returned tt g' ∧
    type sub = type g' ∧ multi sub = multi g' ∧
    allowSelfLoops sub = allowSelfLoops g' ∧
    g_nodes sub ≡ₚ g_nodes g' ∧
    g_edges sub = g_edges g'.
Proof.
  intros Hwf.
  destruct (largestConnectedComponentSubgraph_run g Hwf)
    as (entries & Hrun & Hfst & Hin).
  destruct (largest_closed g Hwf) as (Hnd & Hn & _).
  set (L := largest_of [] (weak_components g)) in *.
  eexists _, (restrict g (list_to_set L)). split; [exact Hrun|].
  split; [by apply cropToLargestConnectedComponent_run|].
  do 3 (split; [done|]). split; [|by apply subgraph_edges_both_ends].
  simpl. pose proof (wf_NoDup_nodes g Hwf) as Hkeys.
  apply NoDup_Permutation.
  - apply (NoDup_fmap_1 fst). by rewrite Hfst.
  - apply NoDup_filter. by apply (NoDup_fmap_1 fst).
  - intros [k a]. rewrite list_elem_of_filter, elem_of_list_to_set. simpl. split.
    + intros Hka. split; [|by apply Hin].
      rewrite <- Hfst. by apply (list_elem_of_fmap_2 fst _ (k, a)).
    + intros [Hk Hka]. rewrite <- Hfst in Hk.
      apply list_elem_of_fmap in Hk as ([k' a'] & Heq & Hka'). simpl in Heq. subst k'.
      by rewrite (attribute_unique (g_nodes g) k a a' Hkeys Hka (Hin _ Hka')).
Qed.

Lemma neighbors_same_edges (g1 g2 : Graph Attr) v :
  g_edges g1 = g_edges g2 → neighbors g1 v = neighbors g2 v.
Proof.
  intros He. unfold neighbors, in_neighbors, out_neighbors, undirected_neighbors.
  by rewrite He.
Qed.

Lemma connected_same_edges (g1 g2 : Graph Attr) x y :
  g_edges g1 = g_edges g2 → connected g1 x y → connected g2 x y.
Proof.
  intros He. induction 1 as [x|x y z Hxy _ IH]; [apply rtc_refl|].
  eapply rtc_l; [|exact IH]. unfold adjacent in *.
  by rewrite <- (neighbors_same_edges g1 g2).
Qed.

Lemma wf_same_edges (g1 g2 : Graph Attr) :
  well_formed g1 → g_edges g2 = g_edges g1 →
  type g2 = type g1 → multi g2 = multi g1 →
  allowSelfLoops g2 = allowSelfLoops g1 →
  NoDup (node_keys g2) →
  (∀ x, x ∈ node_keys g1 → x ∈ node_keys g2) →
  well_formed g2.
Proof.
  intros (Hnd & Hek & Hall & Hmulti) He Hty Hmu Hal Hnd2 Hkeys.
  unfold well_formed. rewrite He, Hty, Hmu, Hal.
  split; [done|]. split; [done|]. split; [|done].
  eapply Forall_impl; [exact Hall|]. intros e (Hs & Ht & Hrest).
  split; [by apply Hkeys|]. split; [by apply Hkeys|done].
Qed.

(** X12. The subgraph extracted from a graph with at least one node is a
    well-formed graph with exactly one weak component, which holds all its
    nodes. *)
Theorem subgraph_is_connected g :
  well_formed g → node_keys g ≠ [] →
  ∃ sub c,
    largestConnectedComponentSubgraph g = Returned sub g ∧
    well_formed sub ∧
    connectedComponents sub = Returned [c] sub ∧
    c ≡ₚ node_keys sub.
Proof.
  intros Hwf Hne.
  destruct (largestConnectedComponentSubgraph_run g Hwf)
    as (entries & Hrun & Hfst & Hin).
  destruct (largest_of_weak_components g Hwf)
    as [[? _]|(_ & (r & Hhd & Hnd & Hn & Hcl & Hconn) & _)]; [done|].
  set (L := largest_of [] (weak_components g)) in *.
  set (sub := mkGraph (type g) (multi g) (allowSelfLoops g) entries
                (filter (λ e, edge_source e ∈ L) (g_edges g))) in *.
  set (g' := restrict g (list_to_set L)).
  assert (He : g_edges sub = g_edges g') by (by apply subgraph_edges_both_ends).
  assert (Hkeys' : ∀ x, x ∈ node_keys g' ↔ x ∈ L).
  { intros x. unfold g'.
    rewrite node_keys_restrict, list_elem_of_filter, elem_of_list_to_set.
    split; [tauto|]. intros Hx. split; [done|by apply Hn]. }
  assert (Hwf_sub : well_formed sub).
  { apply (wf_same_edges g'); try done.
    - by apply wf_restrict.
    - unfold node_keys. simpl. by rewrite Hfst.
    - intros x Hx. unfold node_keys at 1. simpl. rewrite Hfst. by apply Hkeys'. }
  assert (HclL : closed g (list_to_set L)).
  { intros x y Hx Hy. rewrite elem_of_list_to_set in *. by eapply Hcl. }
  destruct (weak_components_connected sub r Hwf_sub) as (c & Hc & Hperm).
  - unfold node_keys. simpl. rewrite Hfst. destruct Hhd as [rest ->]. left.
  - intros x Hx. unfold node_keys in Hx. simpl in Hx. rewrite Hfst in Hx.
    apply (connected_same_edges g' sub); [done|].
    apply connected_restrict; [done| |by apply Hconn].
    apply elem_of_list_to_set. destruct Hhd as [rest ->]. left.
  - exists sub, c. split; [exact Hrun|]. split; [done|].
    split; [|done]. rewrite connectedComponents_run by done. by rewrite Hc.
Qed.

(** ** Independence of edge direction *)

Lemma connected_same_adjacency (g1 g2 : Graph Attr) x y :
  (∀ a b, b ∈ neighbors g1 a → b ∈ neighbors g2 a) →
  connected g1 x y → connected g2 x y.
Proof.
  intros Hadj. induction 1 as [x|x y z Hxy _ IH]; [apply rtc_refl|].
  eapply rtc_l; [|exact IH]. by apply Hadj.
Qed.

Lemma components_from_same_adjacency (g1 g2 : Graph Attr) pending seen :
  well_formed g1 → well_formed g2 →
  (∀ a b, b ∈ neighbors g1 a ↔ b ∈ neighbors g2 a) →
  closed g1 seen →
  (∀ x, x ∈ pending → x ∈ node_keys g1) →
  (∀ x, x ∈ pending → x ∈ node_keys g2) →
  Forall2 (≡ₚ) (components_from g1 pending seen)
               (components_from g2 pending seen).
Proof.
  intros Hwf1 Hwf2 Hadj. revert seen.
  induction pending as [|node pending IH]; intros seen Hcl1 Hp1 Hp2; simpl;
    [constructor|].
  assert (Hcl2 : closed g2 seen).
  { intros x y Hx Hy. apply (Hcl1 x y Hx). by apply Hadj. }
  destruct (decide (node ∈ seen)) as [Hseen|Hseen].
  { apply IH; [done|..]; intros x Hx; [apply Hp1|apply Hp2]; by right. }
  destruct (component_of_spec g1 seen node Hwf1 Hcl1) as (_ & Hc1 & _ & Hcl1');
    [apply Hp1; left|done|].
  destruct (component_of_spec g2 seen node Hwf2 Hcl2) as (_ & Hc2 & _ & _);
    [apply Hp2; left|done|].
  set (c1 := component_of g1 seen node) in *.
  set (c2 := component_of g2 seen node) in *.
  assert (Hperm : c1 ≡ₚ c2).
  { apply NoDup_Permutation; [apply Hc1|apply Hc2|]. intros x.
    assert (Hn1 : node ∈ c1) by (destruct Hc1 as [[rest ->] _]; left).
    assert (Hn2 : node ∈ c2) by (destruct Hc2 as [[rest ->] _]; left).
    rewrite (weak_component_class g1 node c1 node x Hc1 Hn1).
    rewrite (weak_component_class g2 node c2 node x Hc2 Hn2).
    split; apply connected_same_adjacency; intros a b; apply Hadj. }
  constructor; [done|].
  assert (Hset : (list_to_set c2 : gset string) = list_to_set c1).
  { apply set_eq. intros x. rewrite !elem_of_list_to_set. by rewrite Hperm. }
  rewrite Hset.
  apply IH; [done|..]; intros x Hx; [apply Hp1|apply Hp2]; by right.
Qed.

Lemma neighbors_same_ends (g1 g2 : Graph Attr) a b :
  Forall2 same_ends (g_edges g1) (g_edges g2) →
  b ∈ neighbors g1 a → b ∈ neighbors g2 a.
Proof.
  intros Hedges. rewrite !elem_of_neighbors. intros (e & He & Hends).
  apply list_elem_of_lookup in He as [i He].
  destruct (Forall2_lookup_l _ _ _ _ _ Hedges He) as (e' & He' & Hsame).
  exists e'. split; [by eapply list_elem_of_lookup_2|].
  unfold same_ends in Hsame. naive_solver.
Qed.

(** X4. The weak component walker ignores direction: two graphs with the
    same nodes, whose edges join the same pairs of nodes one for one
    (whatever their orientation, directed or not), have the same number of
    components, in the same order, each with the same members. *)
Theorem components_ignore_direction (g1 g2 : Graph Attr) :
  well_formed g1 → well_formed g2 →
  node_keys g1 = node_keys g2 →
  Forall2 same_ends (g_edges g1) (g_edges g2) →
  ∃ comps1 comps2,
    connectedComponents g1 = Returned comps1 g1 ∧
    connectedComponents g2 = Returned comps2 g2 ∧
    Forall2 (≡ₚ) comps1 comps2.
Proof.
  intros Hwf1 Hwf2 Hkeys Hedges.
  assert (Hadj : ∀ a b, b ∈ neighbors g1 a ↔ b ∈ neighbors g2 a).
  { intros a b. split; apply neighbors_same_ends; [done|].
    apply Forall2_flip. eapply Forall2_impl; [exact Hedges|].
    intros e e'. unfold same_ends. naive_solver. }
  exists (weak_components g1), (weak_components g2).
  rewrite !connectedComponents_run by done. do 2 (split; [done|]).
  unfold weak_components. rewrite <- Hkeys.
  apply components_from_same_adjacency;
    [done|done|done|apply closed_empty|done|].
  intros x. by rewrite Hkeys.
Qed.

End Further.

(** ** Instances of the further properties on the concrete graphs *)

Lemma weak_components_are_classes_witness :
  well_formed two_components ∧
  ∃ comps, connectedComponents two_components = Returned comps two_components ∧
           ∀ c x y, c ∈ comps → x ∈ c →
                    (y ∈ c ↔ connected two_components x y).
Proof.
  assert (Hwf : well_formed two_components) by well_formed_by_computation.
  split; [exact Hwf|]. apply (weak_components_are_classes two_components Hwf).
Defined.

Lemma component_sizes_sum_to_order_witness :
  well_formed two_components ∧
  ∃ sizes,
    forEachConnectedComponentOrder (λ order orders, orders ++ [order]) []
      two_components
    = Returned sizes two_components ∧
    sum_list sizes = graph_order two_components ∧
    Forall (λ n, 0 < n) sizes.
Proof.
  assert (Hwf : well_formed two_components) by well_formed_by_computation.
  split; [exact Hwf|]. apply (component_sizes_sum_to_order two_components Hwf).
Defined.

Lemma strong_components_within_weak_witness :
  well_formed two_strong_components ∧
  type two_strong_components ≠ undirected ∧
  ∃ strong weak,
    stronglyConnectedComponents two_strong_components
    = Returned strong two_strong_components ∧
    connectedComponents two_strong_components
    = Returned weak two_strong_components ∧
    ∀ cs cw x y, cs ∈ strong → cw ∈ weak →
                 x ∈ cs → y ∈ cs → x ∈ cw → y ∈ cw.
Proof.
  assert (Hwf : well_formed two_strong_components)
    by well_formed_by_computation.
  split; [exact Hwf|]. split; [discriminate|].
  apply (strong_components_within_weak two_strong_components Hwf).
  discriminate.
Defined.

Lemma strong_equals_weak_when_undirected_edges_witness :
  well_formed two_components ∧ type two_components ≠ undirected ∧
  Forall (λ e, edge_undirected e = true) (g_edges two_components) ∧
  ∃ strong weak,
    stronglyConnectedComponents two_components
    = Returned strong two_components ∧
    connectedComponents two_components = Returned weak two_components ∧
    ∀ cs cw x, cs ∈ strong → cw ∈ weak → x ∈ cs → x ∈ cw →
               ∀ y, y ∈ cs ↔ y ∈ cw.
Proof.
  assert (Hwf : well_formed two_components) by well_formed_by_computation.
  assert (Hund : Forall (λ e : Edge string, edge_undirected e = true)
                        (g_edges two_components))
    by (repeat constructor).
  split; [exact Hwf|]. split; [discriminate|]. split; [exact Hund|].
  apply (strong_equals_weak_when_undirected_edges two_components Hwf);
    [discriminate|exact Hund].
Defined.

Lemma strong_components_reverse_topological_witness :
  well_formed two_strong_components ∧
  type two_strong_components ≠ undirected ∧
  ∃ comps,
    stronglyConnectedComponents two_strong_components
    = Returned comps two_strong_components ∧
    ∀ l1 c l2 x y, comps = l1 ++ c :: l2 → x ∈ c →
      y ∈ outbound_neighbors two_strong_components x →
      y ∈ c ∨ ∃ c', c' ∈ l1 ∧ y ∈ c'.
Proof.
  assert (Hwf : well_formed two_strong_components)
    by well_formed_by_computation.
  split; [exact Hwf|]. split; [discriminate|].
  apply (strong_components_reverse_topological two_strong_components Hwf).
  discriminate.
Defined.

Lemma weak_components_in_enumeration_order_witness :
  well_formed two_components ∧
  ∃ comps,
    connectedComponents two_components = Returned comps two_components ∧
    ∀ l1 c l2, comps = l1 ++ c :: l2 →
      ∃ n1 r n2 rest,
        node_keys two_components = n1 ++ r :: n2 ∧ c = r :: rest ∧
        (∀ x, x ∈ n1 → ∃ c', c' ∈ l1 ∧ x ∈ c').
Proof.
  assert (Hwf : well_formed two_components) by well_formed_by_computation.
  split; [exact Hwf|].
  apply (weak_components_in_enumeration_order two_components Hwf).
Defined.

Lemma crop_unchanged_when_connected_witness :
  well_formed cycle_graph ∧
  connectedComponents cycle_graph
  = Returned [["A"; "B"; "C"]]%string cycle_graph ∧
  length [["A"; "B"; "C"]]%string ≤ 1 ∧
  cropToLargestConnectedComponent cycle_graph = Returned tt cycle_graph.
Proof.
  assert (Hwf : well_formed cycle_graph) by well_formed_by_computation.
  assert (Hrun : connectedComponents cycle_graph
                 = Returned [["A"; "B"; "C"]]%string cycle_graph)
    by (vm_compute; reflexivity).
  assert (Hlen : length [["A"; "B"; "C"]]%string ≤ 1) by (simpl; lia).
  split; [exact Hwf|]. split; [exact Hrun|]. split; [exact Hlen|].
  exact (crop_unchanged_when_connected cycle_graph _ Hwf Hrun Hlen).
Defined.

Lemma crop_idempotent_witness :
  well_formed two_components ∧
  ∃ g', cropToLargestConnectedComponent two_components = Returned tt g' ∧
        cropToLargestConnectedComponent g' = Returned tt g'.
Proof.
  assert (Hwf : well_formed two_components) by well_formed_by_computation.
  split; [exact Hwf|]. apply (crop_idempotent two_components Hwf).
Defined.

Lemma crop_only_removes_witness :
  well_formed two_components ∧
  ∃ g', cropToLargestConnectedComponent two_components = Returned tt g' ∧
        well_formed g' ∧
        type g' = type two_components ∧ multi g' = multi two_components ∧
        allowSelfLoops g' = allowSelfLoops two_components ∧
        g_nodes g' `sublist_of` g_nodes two_components ∧
        g_edges g' `sublist_of` g_edges two_components ∧
        ∀ e, e ∈ g_edges two_components →
             (e ∈ g_edges g' ↔
              edge_source e ∈ node_keys g' ∨ edge_target e ∈ node_keys g').
Proof.
  assert (Hwf : well_formed two_components) by well_formed_by_computation.
  split; [exact Hwf|]. apply (crop_only_removes two_components Hwf).
Defined.

Lemma subgraph_matches_crop_witness :
  well_formed two_components ∧
  ∃ sub g',
    largestConnectedComponentSubgraph two_components
    = Returned sub two_components ∧
    cropToLargestConnectedComponent two_components = Returned tt g' ∧
    type sub = type g' ∧ multi sub = multi g' ∧
    allowSelfLoops sub = allowSelfLoops g' ∧
    g_nodes sub ≡ₚ g_nodes g' ∧
    g_edges sub = g_edges g'.
Proof.
  assert (Hwf : well_formed two_components) by well_formed_by_computation.
  split; [exact Hwf|]. apply (subgraph_matches_crop two_components Hwf).
Defined.

Lemma subgraph_is_connected_witness :
  well_formed two_components ∧ node_keys two_components ≠ [] ∧
  ∃ sub c,
    largestConnectedComponentSubgraph two_components
    = Returned sub two_components ∧
    well_formed sub ∧
    connectedComponents sub = Returned [c] sub ∧
    c ≡ₚ node_keys sub.
Proof.
  assert (Hwf : well_formed two_components) by well_formed_by_computation.
  split; [exact Hwf|]. split; [discriminate|].
  apply (subgraph_is_connected two_components Hwf). discriminate.
Defined.

Lemma components_ignore_direction_witness :
  well_formed cycle_graph ∧ well_formed cycle_undirected ∧
  node_keys cycle_graph = node_keys cycle_undirected ∧
  Forall2 same_ends (g_edges cycle_graph) (g_edges cycle_undirected) ∧
  ∃ comps1 comps2,
    connectedComponents cycle_graph = Returned comps1 cycle_graph ∧
    connectedComponents cycle_undirected = Returned comps2 cycle_undirected ∧
    Forall2 (≡ₚ) comps1 comps2.
Proof.
  assert (Hwf1 : well_formed cycle_graph) by well_formed_by_computation.
  assert (Hwf2 : well_formed cycle_undirected) by well_formed_by_computation.
  assert (Hedges : Forall2 same_ends (g_edges cycle_graph)
                           (g_edges cycle_undirected))
    by well_formed_by_computation.
  split; [exact Hwf1|]. split; [exact Hwf2|]. split; [reflexivity|].
  split; [exact Hedges|].
  exact (components_ignore_direction cycle_graph cycle_undirected
           Hwf1 Hwf2 eq_refl Hedges).
Defined.

Lemma strong_components_nonempty_witness :
  well_formed two_strong_components ∧
  type two_strong_components ≠ undirected ∧
  ∃ comps,
    stronglyConnectedComponents two_strong_components
    = Returned comps two_strong_components ∧
    Forall (λ c, c ≠ []) comps ∧
    length comps ≤ graph_order two_strong_components.
Proof.
  assert (Hwf : well_formed two_strong_components)
    by well_formed_by_computation.
  split; [exact Hwf|]. split; [discriminate|].
  apply (strong_components_nonempty two_strong_components Hwf). discriminate.
Defined.

(** * Properties of the canvas settings *)

Lemma DEFAULTS_no_proto : DEFAULTS !! "__proto__" = None.
Proof. vm_compute. reflexivity. Qed.

(** The merge made by [refineSettings]: the own properties of the caller's
    settings other than [__proto__], over the defaults, under the computed
    dimensions. *)
Lemma Object_assign_refine (o dimensions : Obj) :
  dimensions !! "__proto__" = None →
  Object_assign ∅ [DEFAULTS; o; dimensions]
  = dimensions ∪ (delete "__proto__" o ∪ DEFAULTS).
Proof.
  intros Hd. unfold Object_assign. cbn [foldl].
  assert (H1 : assign_source (∅, true) DEFAULTS = (DEFAULTS, true)).
  { unfold assign_source. rewrite DEFAULTS_no_proto.
    by rewrite (delete_id _ _ DEFAULTS_no_proto), (right_id_L ∅ (∪)). }
  rewrite H1.
  assert (H2 : ∃ setter, assign_source (DEFAULTS, true) o
                         = (delete "__proto__" o ∪ DEFAULTS, setter)).
  { unfold assign_source. destruct (o !! "__proto__") as [v|]; [|by eauto].
    rewrite DEFAULTS_no_proto. simpl. destruct v; by eauto. }
  destruct H2 as [setter ->]. unfold assign_source. rewrite Hd. simpl.
  by rewrite (delete_id _ _ Hd).
Qed.

Lemma get_copied (o : Obj) key :
  key ≠ "__proto__" → get (delete "__proto__" o) key = get o key.
Proof. intros. unfold get. by rewrite lookup_delete_ne. Qed.

Lemma get_union_l (a b : Obj) key v :
  a !! key = Some v → get (a ∪ b) key = v.
Proof. intros H. unfold get. by rewrite (lookup_union_Some_l _ _ _ _ H). Qed.

Lemma get_union_r (a b : Obj) key :
  a !! key = None → get (a ∪ b) key = get b key.
Proof. intros H. unfold get. by rewrite lookup_union_r. Qed.

Lemma get_insert_eq (o : Obj) key v : get (<[key := v]> o) key = v.
Proof. unfold get. by rewrite lookup_insert_eq. Qed.

Lemma get_insert_ne (o : Obj) key key' v :
  key ≠ key' → get (<[key := v]> o) key' = get o key'.
Proof. intros. unfold get. by rewrite lookup_insert_ne. Qed.

Lemma truthy_get_own (o : Obj) key :
  truthy (get o key) = true → o !! key = Some (get o key).
Proof. unfold get. by destruct (o !! key). Qed.

Lemma DEFAULTS_width : DEFAULTS !! "width" = Some (JSNumber 2048).
Proof. vm_compute. reflexivity. Qed.

Lemma DEFAULTS_height : DEFAULTS !! "height" = Some (JSNumber 2048).
Proof. vm_compute. reflexivity. Qed.

(** The outcome of [refineSettings], by cases on the two dimensions the
    caller gave. *)
Lemma refineSettings_cases settings :
  let o := default ∅ settings in
  let c := delete "__proto__" o in
  let w := get o "width" in
  let h := get o "height" in
  refineSettings settings =
  if truthy w then
    if truthy h then inr (c ∪ DEFAULTS)
    else inr (<["height" := w]> (c ∪ DEFAULTS))
  else if truthy h then inr (<["width" := h]> (c ∪ DEFAULTS))
  else if bool_decide (is_Some (o !! "width") ∧ is_Some (o !! "height"))
       then inl InvalidDimensions
       else inr (c ∪ DEFAULTS).
Proof.
  intros o c w h. unfold refineSettings. fold o. fold w. fold h.
  assert (Hcw : c !! "width" = o !! "width") by (by apply lookup_delete_ne).
  assert (Hch : c !! "height" = o !! "height") by (by apply lookup_delete_ne).
  destruct (truthy w) eqn:Hw, (truthy h) eqn:Hh; simpl;
    rewrite Object_assign_refine
      by (rewrite ?lookup_insert_ne by done; apply lookup_empty);
    fold c.
  - rewrite (left_id_L ∅ (∪)).
    rewrite (get_union_l c DEFAULTS "width" w)
      by (rewrite Hcw; by apply truthy_get_own).
    by rewrite Hw.
  - rewrite <- insert_union_l, (left_id_L ∅ (∪)).
    unfold get at 1. rewrite lookup_insert_ne by done.
    fold (get (c ∪ DEFAULTS) "width").
    rewrite (get_union_l c DEFAULTS "width" w)
      by (rewrite Hcw; by apply truthy_get_own).
    by rewrite Hw.
  - rewrite <- insert_union_l, (left_id_L ∅ (∪)).
    unfold get at 1. rewrite lookup_insert_eq. simpl. by rewrite Hh.
  - rewrite (left_id_L ∅ (∪)). unfold w, h, get in *.
    unfold get. rewrite !lookup_union, Hcw, Hch, DEFAULTS_width, DEFAULTS_height.
    destruct (o !! "width") as [w'|] eqn:Ew, (o !! "height") as [h'|] eqn:Eh;
      simpl in *.
    + by rewrite Hw, Hh.
    + by rewrite Hw.
    + done.
    + done.
Qed.



Lemma refineSettings_layers settings r :
  refineSettings settings = inr r →
  ∃ dimensions : Obj,
    r = dimensions ∪ (delete "__proto__" (default ∅ settings) ∪ DEFAULTS) ∧
    ∀ key, key ≠ "width" → key ≠ "height" → dimensions !! key = None.
Proof.
  rewrite refineSettings_cases. cbv zeta. intros Hr.
  repeat case_match; simplify_eq.
  - exists ∅. split; [by rewrite (left_id_L ∅ (∪))|].
    intros key _ _. by rewrite lookup_empty.
  - exists {["height" := get (default ∅ settings) "width"]}.
    split; [by rewrite <- insert_union_singleton_l|].
    intros key _ Hkh. by rewrite lookup_singleton_ne.
  - exists {["width" := get (default ∅ settings) "height"]}.
    split; [by rewrite <- insert_union_singleton_l|].
    intros key Hkw _. by rewrite lookup_singleton_ne.
  - exists ∅. split; [by rewrite (left_id_L ∅ (∪))|].
    intros key _ _. by rewrite lookup_empty.
Qed.

Lemma refined_no_proto settings r :
  refineSettings settings = inr r → r !! "__proto__" = None.
Proof.
  intros (dimensions & -> & Hd)%refineSettings_layers.
  rewrite lookup_union_r by (by apply Hd).
  rewrite lookup_union_r by apply lookup_delete_eq.
  apply DEFAULTS_no_proto.
Qed.

(** X15. The refined settings have no own [__proto__] property.  Apart
    from it and from the two dimensions the merge is shallow and the
    caller wins: an own property of the caller's settings keeps the
    caller's value, whatever it is, and any other own property of the
    result has its default. *)
Theorem refineSettings_merge settings r :
  refineSettings settings = inr r →
  r !! "__proto__" = None ∧
  ∀ key, key ≠ "width" → key ≠ "height" → key ≠ "__proto__" →
         r !! key = match default ∅ settings !! key with
                    | Some v => Some v
                    | None => DEFAULTS !! key
                    end.
Proof.
  intros Hr. split; [by eapply refined_no_proto|].
  apply refineSettings_layers in Hr as (dimensions & -> & Hd).
  intros key Hkw Hkh Hkp.
  rewrite lookup_union_r by (by apply Hd).
  rewrite lookup_union, lookup_delete_ne by done.
  by destruct (default ∅ settings !! key), (DEFAULTS !! key).
Qed.

Lemma DEFAULTS_absorbed (o : Obj) : (o ∪ DEFAULTS) ∪ DEFAULTS = o ∪ DEFAULTS.
Proof. by rewrite <- (assoc_L (∪)), (idemp_L (∪)). Qed.

Lemma refineSettings_shape settings r :
  refineSettings settings = inr r →
  r ∪ DEFAULTS = r ∧
  (truthy (get r "width") = true ∨ truthy (get r "height") = true).
Proof.
  rewrite refineSettings_cases. cbv zeta.
  set (o := default ∅ settings). set (c := delete "__proto__" o).
  assert (Hcw : c !! "width" = o !! "width") by (by apply lookup_delete_ne).
  assert (Hch : c !! "height" = o !! "height") by (by apply lookup_delete_ne).
  destruct (truthy (get o "width")) eqn:Hw;
    [|destruct (truthy (get o "height")) eqn:Hh;
      [|case_bool_decide as Hown; [done|]]];
    [destruct (truthy (get o "height")) eqn:Hh|..];
    intros [= <-]; rewrite <- ?insert_union_l, DEFAULTS_absorbed;
    (split; [done|]).
  - left. rewrite (get_union_l c _ "width" (get o "width")); [done|].
    rewrite Hcw. by apply truthy_get_own.
  - left. unfold get at 1. rewrite lookup_insert_ne by done.
    fold (get (c ∪ DEFAULTS) "width").
    rewrite (get_union_l c _ "width" (get o "width")); [done|].
    rewrite Hcw. by apply truthy_get_own.
  - left. unfold get. by rewrite lookup_insert_eq.
  - destruct (o !! "width") as [w|] eqn:Ew.
    + right. destruct (o !! "height") as [h|] eqn:Eh.
      * destruct Hown. split; by eexists.
      * rewrite get_union_r by (by rewrite Hch). unfold get.
        by rewrite DEFAULTS_height.
    + left. rewrite get_union_r by (by rewrite Hcw). unfold get.
      by rewrite DEFAULTS_width.
Qed.

Lemma refineSettings_fixed (r : Obj) :
  r ∪ DEFAULTS = r → r !! "__proto__" = None →
  truthy (get r "width") = true → truthy (get r "height") = true →
  refineSettings (Some r) = inr r.
Proof.
  intros Hr Hp Hw Hh. rewrite refineSettings_cases. cbv zeta. simpl.
  by rewrite Hw, Hh, (delete_id _ _ Hp), Hr.
Qed.

(** X16. Refined settings can be refined again: the second call returns,
    what it returns is a fixed point of [refineSettings], and it returns
    its argument whenever both dimensions of it are truthy. *)
Theorem refineSettings_stabilises settings r :
  refineSettings settings = inr r →
  ∃ r', refineSettings (Some r) = inr r' ∧
        refineSettings (Some r') = inr r' ∧
        (truthy (get r "width") = true → truthy (get r "height") = true →
         r' = r).
Proof.
  intros Hrefined. pose proof (refined_no_proto _ _ Hrefined) as Hp.
  apply refineSettings_shape in Hrefined as [Hr Hdim].
  destruct (truthy (get r "width")) eqn:Hw, (truthy (get r "height")) eqn:Hh.
  - exists r. by rewrite refineSettings_fixed.
  - exists (<["height" := get r "width"]> r).
    split; [|split; [|done]].
    + rewrite refineSettings_cases. cbv zeta. simpl.
      by rewrite Hw, Hh, (delete_id _ _ Hp), Hr.
    + apply refineSettings_fixed.
      * by rewrite <- insert_union_l, Hr.
      * by rewrite lookup_insert_ne.
      * unfold get at 1. rewrite lookup_insert_ne by done. exact Hw.
      * unfold get at 1. by rewrite lookup_insert_eq.
  - exists (<["width" := get r "height"]> r).
    split; [|split; [|done]].
    + rewrite refineSettings_cases. cbv zeta. simpl.
      by rewrite Hw, Hh, (delete_id _ _ Hp), Hr.
    + apply refineSettings_fixed.
      * by rewrite <- insert_union_l, Hr.
      * by rewrite lookup_insert_ne.
      * unfold get at 1. by rewrite lookup_insert_eq.
      * unfold get at 1. rewrite lookup_insert_ne by done. exact Hh.
  - by destruct Hdim.
Qed.

(** ** The default reducers *)

Lemma member_resolvable v key :
  resolvable v → ∃ c, member v key = inr c.
Proof. intros [? ?]. destruct v; simpl; by eauto. Qed.

Lemma DEFAULT_NODE_REDUCER_color settings node attr :
  DEFAULT_NODE_REDUCER settings node attr =
  color ← (if truthy (get attr "color") then inr (get attr "color")
           else member (get settings "nodes") "defaultColor");
  if is_number (get attr "x") && is_number (get attr "y")
  then inr (<["type" := js_or (get attr "type") (JSString "circle")]> (
            <["label" := js_or (get attr "label") (JSString node)]> (
            <["x" := get attr "x"]> (<["y" := get attr "y"]> (
            <["size" := js_or (get attr "size") (JSNumber 1)]> (
            <["color" := color]> ∅))))))
  else inl (InvalidPosition node).
Proof.
  unfold DEFAULT_NODE_REDUCER. cbv zeta.
  destruct (if truthy (get attr "color") then _ else _) as [e|c]; [done|].
  simpl. rewrite !get_insert_ne by done. rewrite get_insert_eq.
  rewrite !get_insert_ne by done. rewrite get_insert_eq.
  by destruct (is_number (get attr "x")), (is_number (get attr "y")).
Qed.

(** X17. The errors of [DEFAULT_NODE_REDUCER]: a [TypeError] when the node
    has no truthy [color] and [settings.nodes] is [undefined] or [null];
    otherwise the position error, naming the node, when [x] or [y] is not
    a number; and no other. *)
Theorem node_reducer_error settings node attr e :
  DEFAULT_NODE_REDUCER settings node attr = inl e ↔
  (truthy (get attr "color") = false ∧ ¬ resolvable (get settings "nodes") ∧
   e = TypeError) ∨
  ((truthy (get attr "color") = true ∨ resolvable (get settings "nodes")) ∧
   (is_number (get attr "x") = false ∨ is_number (get attr "y") = false) ∧
   e = InvalidPosition node).
Proof.
  rewrite DEFAULT_NODE_REDUCER_color. unfold resolvable.
  destruct (truthy (get attr "color")) eqn:Hc; simpl.
  - destruct (is_number (get attr "x")), (is_number (get attr "y")); simpl;
      naive_solver.
  - destruct (get settings "nodes") eqn:Hn; simpl;
      destruct (is_number (get attr "x")), (is_number (get attr "y")); simpl;
      naive_solver.
Qed.

(** X18. What [DEFAULT_NODE_REDUCER] returns: an object with exactly the
    six properties [type], [label], [x], [y], [size], [color]; [x] and [y]
    are numbers; [type] and [size] are truthy, and so is [label] unless
    the node key is the empty string; the positions and every truthy
    attribute among the six are the node's own. *)
Theorem node_reducer_result settings node attr reduced :
  DEFAULT_NODE_REDUCER settings node attr = inr reduced →
  is_number (get reduced "x") = true ∧ is_number (get reduced "y") = true ∧
  truthy (get reduced "type") = true ∧ truthy (get reduced "size") = true ∧
  (node ≠ "" → truthy (get reduced "label") = true) ∧
  dom reduced = {["type"; "label"; "x"; "y"; "size"; "color"]} ∧
  (∀ key, key ∈ dom reduced →
          key = "x" ∨ key = "y" ∨ truthy (get attr key) = true →
          get reduced key = get attr key).
Proof.
  rewrite DEFAULT_NODE_REDUCER_color.
  destruct (if truthy (get attr "color") then _ else _) as [e|c] eqn:Hcolor;
    [done|]. simpl.
  destruct (is_number (get attr "x")) eqn:Hx; [|done].
  destruct (is_number (get attr "y")) eqn:Hy; [|done]. simpl.
  intros [= <-].
  rewrite ?get_insert_eq, ?get_insert_ne by done.
  rewrite ?get_insert_eq, ?get_insert_ne by done.
  rewrite ?get_insert_eq, ?get_insert_ne by done.
  split; [done|]. split; [done|].
  split; [unfold js_or; by destruct (truthy (get attr "type")) eqn:?|].
  split; [unfold js_or; by destruct (truthy (get attr "size")) eqn:?|].
  split.
  { intros Hnode. unfold js_or. destruct (truthy (get attr "label")) eqn:?; [done|].
    simpl. destruct node; [done|]. done. }
  split; [by rewrite !dom_insert_L, dom_empty_L, (right_id_L ∅ (∪))|].
  intros key Hkey Hcase. rewrite !dom_insert_L, dom_empty_L in Hkey.
  assert (Hor : ∀ a b, truthy a = true → js_or a b = a).
  { intros a b Ha. unfold js_or. by rewrite Ha. }
  assert (key = "type" ∨ key = "label" ∨ key = "x" ∨ key = "y" ∨
          key = "size" ∨ key = "color") as Hkeys by set_solver.
  destruct Hkeys as [-> | [-> | [-> | [-> | [-> | ->]]]]];
    rewrite ?get_insert_eq, ?get_insert_ne by done;
    rewrite ?get_insert_eq, ?get_insert_ne by done;
    rewrite ?get_insert_eq, ?get_insert_ne by done;
    try done;
    try (destruct Hcase as [?|[?|Ht]]; [done|done|by apply Hor]).
  destruct Hcase as [?|[?|Ht]]; [done|done|].
  rewrite Ht in Hcolor. by injection Hcolor.
Qed.

(** X19. [DEFAULT_EDGE_REDUCER] throws only a [TypeError], and only when
    the edge has no truthy [color] and [settings.edges] is [undefined] or
    [null]. *)
Theorem edge_reducer_error settings edge attr e :
  DEFAULT_EDGE_REDUCER settings edge attr = inl e ↔
  truthy (get attr "color") = false ∧ ¬ resolvable (get settings "edges") ∧
  e = TypeError.
Proof.
  unfold DEFAULT_EDGE_REDUCER, resolvable. cbv zeta.
  destruct (truthy (get attr "color")) eqn:Hc; simpl; [naive_solver|].
  destruct (get settings "edges") eqn:Hn; simpl; naive_solver.
Qed.

Lemma refined_defaults settings r key :
  refineSettings settings = inr r →
  key = "nodes" ∨ key = "edges" →
  default ∅ settings !! key = None →
  get r key = get DEFAULTS key.
Proof.
  intros (dimensions & -> & Hd)%refineSettings_layers Hkey Hnone. unfold get.
  rewrite lookup_union_r by (apply Hd; by destruct Hkey as [-> | ->]).
  rewrite lookup_union_r; [done|].
  rewrite lookup_delete_ne by (by destruct Hkey as [-> | ->]). done.
Qed.

(** X20. With settings refined from settings that do not set [nodes], the
    node reducer returns on every node whose [x] and [y] are numbers, and
    the color is the node's truthy [color] or else ['#999']. *)
Theorem refined_settings_color_nodes settings r node attr :
  refineSettings settings = inr r →
  default ∅ settings !! "nodes" = None →
  is_number (get attr "x") = true → is_number (get attr "y") = true →
  ∃ reduced,
    DEFAULT_NODE_REDUCER r node attr = inr reduced ∧
    get reduced "color" = (if truthy (get attr "color") then get attr "color"
                           else JSString "#999").
Proof.
  intros Hr Hnone Hx Hy. rewrite DEFAULT_NODE_REDUCER_color.
  rewrite (refined_defaults settings r "nodes" Hr) by (by auto).
  rewrite Hx, Hy.
  destruct (truthy (get attr "color")); simpl; eexists; (split; [reflexivity|]);
    by rewrite !get_insert_ne, get_insert_eq by done.
Qed.

(** X21. With settings refined from settings that do not set [edges], the
    edge reducer always returns, with exactly the properties [type], [size]
    and [color], each the edge's own truthy value or else ['line'], [1] and
    ['#ccc']. *)
Theorem refined_settings_color_edges settings r edge attr :
  refineSettings settings = inr r →
  default ∅ settings !! "edges" = None →
  ∃ reduced,
    DEFAULT_EDGE_REDUCER r edge attr = inr reduced ∧
    dom reduced = {["type"; "size"; "color"]} ∧
    get reduced "type" = js_or (get attr "type") (JSString "line") ∧
    get reduced "size" = js_or (get attr "size") (JSNumber 1) ∧
    get reduced "color" = js_or (get attr "color") (JSString "#ccc").
Proof.
  intros Hr Hnone. unfold DEFAULT_EDGE_REDUCER. cbv zeta.
  rewrite (refined_defaults settings r "edges" Hr) by (by auto).
  assert (Hcolor : (if truthy (get attr "color") then inr (get attr "color")
                    else member (get DEFAULTS "edges") "defaultColor")
                   = inr (js_or (get attr "color") (JSString "#ccc"))
                   :> CanvasError + JSValue).
  { unfold js_or. by destruct (truthy (get attr "color")). }
  rewrite Hcolor. simpl. eexists. split; [reflexivity|].
  split; [by rewrite !dom_insert_L, dom_empty_L, (right_id_L ∅ (∪))|].
  rewrite get_insert_eq. rewrite !get_insert_ne by done.
  rewrite get_insert_eq. rewrite !get_insert_ne by done.
  by rewrite get_insert_eq.
Qed.

(** ** Instances of the properties on the concrete settings *)



Lemma refineSettings_merge_witness :
  ∃ r, refineSettings (Some inherited_settings) = inr r ∧
       r !! "__proto__" = None ∧
       r !! "padding" = Some (JSNumber 0) ∧
       r !! "batchSize" = Some (JSNumber 500) ∧
       r !! "nodes" = Some (JSObject (<["reducer" := JSFunction "reducer"]> ∅)).
Proof.
  destruct (refineSettings (Some inherited_settings)) as [e|r] eqn:Hr;
    [vm_compute in Hr; discriminate Hr|].
  exists r. split; [reflexivity|].
  destruct (refineSettings_merge _ r Hr) as [Hproto Hkeys].
  split; [exact Hproto|].
  rewrite (Hkeys "padding"), (Hkeys "batchSize"), (Hkeys "nodes")
    by discriminate.
  repeat split; vm_compute; reflexivity.
Defined.

Lemma refineSettings_stabilises_witness :
  ∃ r, refineSettings (Some zero_width) = inr r ∧
  ∃ r', refineSettings (Some r) = inr r' ∧
        refineSettings (Some r') = inr r' ∧
        (truthy (get r "width") = true → truthy (get r "height") = true →
         r' = r).
Proof.
  destruct (refineSettings (Some zero_width)) as [e|r] eqn:Hr;
    [vm_compute in Hr; discriminate Hr|].
  exists r. split; [reflexivity|].
  exact (refineSettings_stabilises (Some zero_width) r Hr).
Defined.

Lemma node_reducer_error_witness :
  DEFAULT_NODE_REDUCER DEFAULTS "n" misplaced = inl (InvalidPosition "n").
Proof.
  apply (proj2 (node_reducer_error DEFAULTS "n" misplaced (InvalidPosition "n"))).
  right. split; [right; split; vm_compute; discriminate|].
  split; [left; reflexivity|reflexivity].
Defined.

Lemma node_reducer_result_witness :
  ∃ reduced,
    DEFAULT_NODE_REDUCER DEFAULTS "n" positioned = inr reduced ∧
    is_number (get reduced "x") = true ∧ is_number (get reduced "y") = true ∧
    truthy (get reduced "type") = true ∧ truthy (get reduced "size") = true ∧
    ("n" ≠ "" → truthy (get reduced "label") = true) ∧
    dom reduced = {["type"; "label"; "x"; "y"; "size"; "color"]} ∧
    (∀ key, key ∈ dom reduced →
            key = "x" ∨ key = "y" ∨ truthy (get positioned key) = true →
            get reduced key = get positioned key).
Proof.
  destruct (DEFAULT_NODE_REDUCER DEFAULTS "n" positioned) as [e|reduced] eqn:Hr;
    [vm_compute in Hr; discriminate Hr|].
  exists reduced. split; [reflexivity|].
  exact (node_reducer_result DEFAULTS "n" positioned reduced Hr).
Defined.

Lemma edge_reducer_error_witness :
  DEFAULT_EDGE_REDUCER ∅ "e" ∅ = inl TypeError.
Proof.
  apply (proj2 (edge_reducer_error ∅ "e" ∅ TypeError)).
  split; [reflexivity|]. split; [|reflexivity].
  intros [Hundefined _]. apply Hundefined. reflexivity.
Defined.

Lemma refined_settings_color_nodes_witness :
  ∃ r, refineSettings (Some width_only) = inr r ∧
  ∃ reduced,
    DEFAULT_NODE_REDUCER r "n" positioned = inr reduced ∧
    get reduced "color" = JSString "#999".
Proof.
  destruct (refineSettings (Some width_only)) as [e|r] eqn:Hr;
    [vm_compute in Hr; discriminate Hr|].
  exists r. split; [reflexivity|].
  exact (refined_settings_color_nodes (Some width_only) r "n" positioned Hr
           eq_refl eq_refl eq_refl).
Defined.

Lemma refined_settings_color_edges_witness :
  ∃ r, refineSettings (Some custom_settings) = inr r ∧
  ∃ reduced,
    DEFAULT_EDGE_REDUCER r "e" ∅ = inr reduced ∧
    dom reduced = {["type"; "size"; "color"]} ∧
    get reduced "type" = JSString "line" ∧
    get reduced "size" = JSNumber 1 ∧
    get reduced "color" = JSString "#ccc".
Proof.
  destruct (refineSettings (Some custom_settings)) as [e|r] eqn:Hr;
    [vm_compute in Hr; discriminate Hr|].
  exists r. split; [reflexivity|].
  exact (refined_settings_color_edges (Some custom_settings) r "e" ∅ Hr eq_refl).
Defined.
